(** * xsort: re-sorting a sorted slice with an unsorted tail

    A shallow embedding of [appended.go] (package [xsort]), of the
    heap-merge engine [heapAppendSort] (package [sort]), of the adapters
    [OrderedAsc] and [OrderedDesc] and of the test drivers of
    [appended_test.go], together with the properties of the re-sort engines
    and of the heuristic selectors.

    Conventions of the embedding:
    - a Go slice is a [list E]; an index is a [Z]; reading or slicing out of
      range is the panic branch of the result type; a slice expression
      [s[lo:hi]] is checked against [len(s)];
    - [int] and [uint] are 64 bits wide: [uint] is a [Z] in [0, 2^64) and
      its arithmetic is wrapped explicitly with [wrap]; [int(x)] of a [uint]
      is [to_int]; the length of a slice is an [int], hence below [2^63];
    - [s.Less(i, j)] compares the elements at the two positions with a fixed
      boolean comparator [ltb], as [OrderedAsc] and [OrderedDesc] do;
    - the engines mutate the slice in place: they are computations in a state
      and error monad over the slice. *)

From Stdlib Require Import ZArith Lia Bool.
From Stdlib.Strings Require Import Byte.
From stdpp Require Import base list sorting strings pretty.

Local Open Scope Z_scope.

(** ** Machine integers *)

Definition uint_size : Z := 2 ^ 64.

(** Arithmetic on [uint] wraps around. *)
Definition wrap (x : Z) : Z := x mod uint_size.

(** The conversion [int(x)] of a [uint] value (two's complement). *)
Definition to_int (x : Z) : Z := if x <? 2 ^ 63 then x else x - uint_size.

(** [len(s)] as an integer. *)
Definition len {A} (l : list A) : Z := Z.of_nat (length l).

(** ** The heuristic selectors of [appended.go] *)

Definition shouldUseAppended (totalSize tailSize : Z) : bool :=
  if totalSize <? 512 then wrap (tailSize * 4) <? totalSize
  else wrap (tailSize * tailSize) / 64 <? totalSize.

Definition shouldUseAppendedWithBuf (totalSize tailSize : Z) : bool :=
  if totalSize <? 10 then false
  else if totalSize <? 64 then wrap (tailSize * 3) <? totalSize
  else if totalSize <? 256 then wrap (tailSize * 2) <? totalSize
  else wrap (tailSize * 5) <? wrap (totalSize * 3).

(** The selector that accompanies [heapAppendSort] in package [sort]; it has
    the same name as the one above and different thresholds. *)
Module HeapPkg.
Definition shouldUseAppended (totalSize tailSize : Z) : bool :=
  if totalSize <=? 4 then false
  else if totalSize <=? 128 then wrap (8 * tailSize) <? totalSize
  else if totalSize <=? 4096 then wrap (wrap (tailSize * tailSize) * 4) <? totalSize
  else tailSize <? 64.
End HeapPkg.

(** The thresholds as the specification words them, over the mathematical
    integers. *)
Definition spec_shouldUseInPlace (n k : Z) : bool :=
  if n <? 512 then 4 * k <? n else k * k / 64 <? n.

Definition spec_shouldUseBuffered (n k : Z) : bool :=
  if n <? 10 then false
  else if n <? 64 then 3 * k <? n
  else if n <? 256 then 2 * k <? n
  else 5 * k <? 3 * n.

(** ** Results, panics and the state monad of the engines *)

Inductive panic : Type :=
| TailTooLong      (* the explicit "tail is longer than the slice" panics *)
| OutOfRange       (* a run-time index or slice-bounds panic *)
| ShouldNotHappen. (* the "should not happen" panic of heapAppendSort *)

(** A computation ends normally with a value and the final slice, or panics
    with the slice as it is at that moment.  [OutOfFuel] is the answer of a
    loop whose iteration budget ran out. *)
Inductive res (St A : Type) : Type :=
| Ok (a : A) (st : St)
| Panic (p : panic) (st : St)
| OutOfFuel.
Arguments Ok {St A} a st.
Arguments Panic {St A} p st.
Arguments OutOfFuel {St A}.

Definition M (St A : Type) : Type := St -> res St A.

Definition ret {St A} (a : A) : M St A := fun st => Ok a st.

Definition bind {St A B} (m : M St A) (k : A -> M St B) : M St B :=
  fun st =>
    match m st with
    | Ok a st' => k a st'
    | Panic p st' => Panic p st'
    | OutOfFuel => OutOfFuel
    end.

Definition raise {St A} (p : panic) : M St A := fun st => Panic p st.

Declare Scope go_scope.
Delimit Scope go_scope with go.
Notation "'let!' x ':=' m 'in' k" := (bind m (fun x => k))
  (at level 10, x pattern, m at level 100, k at level 200) : go_scope.
Notation "m ';;' k" := (bind m (fun _ => k))
  (at level 100, k at level 200, right associativity) : go_scope.
Local Open Scope go_scope.

(** ** Library functions the engines call

    [sort.Sort], [sort.Slice], [sort.Search], [slices.Reverse],
    [slices.Rotate] and the built-in [copy] are used through their
    documented behaviour. *)

Section Library.
Context {E : Type}.

(** The full sort ([sort.Sort], and [sort.Slice] with an explicit
    comparator).  Over a strict total order every comparison sort returns the
    same slice, so an insertion sort stands for the library's. *)
Fixpoint sort_insert (less : E -> E -> bool) (x : E) (l : list E) : list E :=
  match l with
  | [] => [x]
  | y :: l' => if less y x then y :: sort_insert less x l' else x :: y :: l'
  end.

Fixpoint sort_list (less : E -> E -> bool) (l : list E) : list E :=
  match l with
  | [] => []
  | x :: l' => sort_insert less x (sort_list less l')
  end.

(** [slices.Rotate(w, n)]: every element moves [n] positions toward the end
    of [w] (toward the start when [n] is negative), wrapping around.  The
    unit tests of the repository pass with this direction only. *)
Definition rotate (n : Z) (w : list E) : list E :=
  let m := len w in
  if m =? 0 then w
  else let r := Z.to_nat (m - n mod m) in drop r w ++ take r w.

(** [copy(dst, src)]: the first [min(len(dst), len(src))] elements of [src]
    overwrite the start of [dst]. *)
Definition copy_into (dst src : list E) : list E :=
  take (length dst) src ++ drop (length src) dst.

Definition modify (f : list E -> list E) : M (list E) unit :=
  fun s => Ok tt (f s).

Definition sort_Sort (less : E -> E -> bool) : M (list E) unit :=
  modify (sort_list less).

Definition sort_Slice (less : E -> E -> bool) : M (list E) unit :=
  modify (sort_list less).

Definition slices_Reverse : M (list E) unit := modify reverse.

Definition slices_Rotate (n : Z) : M (list E) unit := modify (rotate n).

(** [sort.Search(n, f)]: binary search for the least index in [0, n] from
    which [f] holds.  The interval [i, j) shrinks at every turn, so [j - i]
    turns are enough. *)
Fixpoint search_loop {St} (fuel : nat) (f : Z -> M St bool) (i j : Z) : M St Z :=
  if i <? j then
    match fuel with
    | O => fun _ => OutOfFuel
    | S fuel' =>
        let h := Z.shiftr (i + j) 1 in
        let! b := f h in
        if negb b then search_loop fuel' f (h + 1) j
        else search_loop fuel' f i h
    end
  else ret i.

Definition sort_Search {St} (n : Z) (f : Z -> M St bool) : M St Z :=
  search_loop (Z.to_nat n) f 0 n.

(** *** Indexing and slicing *)

Definition lookupZ (s : list E) (i : Z) : option E :=
  if i <? 0 then None else s !! Z.to_nat i.

(** [s[i]] as a value. *)
Definition Load (i : Z) : M (list E) E :=
  fun s => match lookupZ s i with
           | Some x => Ok x s
           | None => Panic OutOfRange s
           end.

(** [buf[i]], read while the state is the main slice. *)
Definition LoadFrom (buf : list E) (i : Z) : M (list E) E :=
  fun s => match lookupZ buf i with
           | Some x => Ok x s
           | None => Panic OutOfRange s
           end.

(** [s[i] = x]. *)
Definition Store (i : Z) (x : E) : M (list E) unit :=
  fun s => if (0 <=? i) && (i <? len s)
           then Ok tt (<[Z.to_nat i := x]> s)
           else Panic OutOfRange s.

(** [s[i], s[j] = s[j], s[i]]. *)
Definition Swap (i j : Z) : M (list E) unit :=
  let! b := Load j in
  let! a := Load i in
  Store i b ;; Store j a.

(** The bounds of the slice expression [s[lo:hi]]. *)
Definition in_bounds (lo hi : Z) (s : list E) : bool :=
  (0 <=? lo) && (lo <=? hi) && (hi <=? len s).

(** A computation on the sub-slice [s[lo:hi]], which shares its storage
    with [s]. *)
Definition Window {A} (lo hi : Z) (m : M (list E) A) : M (list E) A :=
  fun s =>
    if in_bounds lo hi s then
      let pre := take (Z.to_nat lo) s in
      let mid := take (Z.to_nat (hi - lo)) (drop (Z.to_nat lo) s) in
      let post := drop (Z.to_nat hi) s in
      match m mid with
      | Ok a mid' => Ok a (pre ++ mid' ++ post)
      | Panic p mid' => Panic p (pre ++ mid' ++ post)
      | OutOfFuel => OutOfFuel
      end
    else Panic OutOfRange s.

(** The elements of [s[lo:hi]] as a value. *)
Definition Slice (lo hi : Z) : M (list E) (list E) :=
  fun s =>
    if in_bounds lo hi s
    then Ok (take (Z.to_nat (hi - lo)) (drop (Z.to_nat lo) s)) s
    else Panic OutOfRange s.

(** [copy(s[to:hi], s[from:])] inside one slice; the source is read before
    the destination is written, as [copy] does for overlapping slices. *)
Definition CopyWithin (to hi from : Z) : M (list E) unit :=
  fun s =>
    (let! _ := Slice to hi in
     let! src := Slice from (len s) in
     Window to hi (modify (fun dst => copy_into dst src))) s.

End Library.

(** ** The engines of [appended.go] *)

Section Engines.
Context {E : Type} (ltb : E -> E -> bool).

(** [s.Less(i, j)]. *)
Definition Less (i j : Z) : M (list E) bool :=
  let! a := Load i in
  let! b := Load j in
  ret (ltb a b).

(** The loop of [groupInsertAppendSort]; [unsortedCount] counts down from
    [tailLength]. *)
Fixpoint inplace_loop (unsortedCount : nat) (unsortedStartIdx unsortedEnd : Z)
  : M (list E) unit :=
  match unsortedCount with
  | O => ret tt
  | S remaining =>
      let count := Z.of_nat unsortedCount in
      let! leftIdx := sort_Search unsortedStartIdx
                        (fun i => Less unsortedStartIdx i) in
      if leftIdx =? unsortedStartIdx then
        if unsortedStartIdx =? 0 then
          Window 0 count slices_Reverse (* break *)
        else
          let leftIdx := if 0 <? leftIdx then leftIdx - 1 else leftIdx in
          let! lt := Less unsortedStartIdx (unsortedStartIdx - 1) in
          if lt then
            Window leftIdx (leftIdx + count + 1) (slices_Rotate (-2)) ;;
            let unsortedStartIdx := leftIdx in
            inplace_loop remaining unsortedStartIdx
              (unsortedStartIdx + count - 1)
          else
            Window (leftIdx + 1) (leftIdx + count + 1) (slices_Rotate (-1)) ;;
            let unsortedStartIdx := leftIdx + 1 in
            inplace_loop remaining unsortedStartIdx
              (unsortedStartIdx + count - 1)
      else
        Window (leftIdx + 1) unsortedEnd
          (slices_Rotate (unsortedEnd - unsortedStartIdx)) ;;
        Swap leftIdx (leftIdx + 1) ;;
        Window leftIdx (leftIdx + count + 1) (slices_Rotate (-2)) ;;
        let unsortedStartIdx := leftIdx in
        inplace_loop remaining unsortedStartIdx (unsortedStartIdx + count - 1)
  end.

Definition groupInsertAppendSort (tailLength : Z) : M (list E) unit :=
  fun s =>
    let length := len s in
    if to_int tailLength >? length then Panic TailTooLong s
    else
      let splitIdx := wrap (length - tailLength) in
      if splitIdx =? 0 then sort_Sort ltb s
      else
        (Window splitIdx length (sort_Slice (fun x y => ltb y x)) ;;
         inplace_loop (Z.to_nat tailLength) splitIdx length) s.

(** The loop of [groupInsertAppendSortWithBuf]. *)
Fixpoint buffered_loop (buf : list E) (unsortedCount : nat)
  (unsortedStartIdx unsortedEnd : Z) : M (list E) unit :=
  match unsortedCount with
  | O => ret tt
  | S remaining =>
      let count := Z.of_nat unsortedCount in
      let! x := LoadFrom buf (count - 1) in
      Store unsortedStartIdx x ;;
      let! leftIdx := sort_Search unsortedStartIdx
                        (fun i => Less unsortedStartIdx i) in
      let copyTo := leftIdx + count in
      CopyWithin copyTo unsortedEnd leftIdx ;;
      let! y := LoadFrom buf (count - 1) in
      Store (leftIdx + count - 1) y ;;
      let unsortedStartIdx := leftIdx in
      buffered_loop buf remaining unsortedStartIdx
        (unsortedStartIdx + count - 1)
  end.

(** The result value is the scratch buffer as the call leaves it. *)
Definition groupInsertAppendSortWithBuf (buf : list E) : M (list E) (list E) :=
  fun s =>
    let tailLength := len buf in
    let length := len s in
    if tailLength >? length then Panic TailTooLong s
    else
      let splitIdx := length - tailLength in
      if splitIdx =? 0 then (sort_Sort ltb ;; ret buf) s
      else
        (Window splitIdx length (sort_Sort ltb) ;;
         let! rightPart := Slice splitIdx length in
         let buf := copy_into buf rightPart in
         buffered_loop buf (Z.to_nat tailLength) splitIdx length ;;
         ret buf) s.

Definition Appended (tailLength : Z) : M (list E) unit :=
  fun s =>
    if tailLength =? 0 then Ok tt s
    else if negb (shouldUseAppended (len s) tailLength) then
      if tailLength >? len s then Panic TailTooLong s
      else sort_Sort ltb s
    else groupInsertAppendSort tailLength s.

Definition AppendedWithBuf (buf : list E) : M (list E) (list E) :=
  fun s =>
    let tailLength := len buf in
    if tailLength =? 0 then Ok buf s
    else if negb (shouldUseAppendedWithBuf (len s) tailLength) then
      if tailLength >? len s then Panic TailTooLong s
      else (sort_Sort ltb ;; ret buf) s
    else groupInsertAppendSortWithBuf buf s.

(** *** The heap of [container/heap] over a window of the slice

    [heapAppendSort] keeps its heap [h] inside the slice: [h] starts as the
    empty slice [s[splitIdx:splitIdx]] and grows by [append] into the storage
    of [s].  The heap is therefore the window [s[base : base+n]] and the
    operations below act on [s] through that window. *)

Fixpoint heap_up (fuel : nat) (j : Z) : M (list E) unit :=
  match fuel with
  | O => fun _ => OutOfFuel
  | S fuel' =>
      let i := Z.quot (j - 1) 2 in (* parent *)
      if i =? j then ret tt
      else
        let! lt := Less j i in
        if negb lt then ret tt
        else Swap i j ;; heap_up fuel' i
  end.

Fixpoint heap_down (fuel : nat) (i n : Z) : M (list E) unit :=
  match fuel with
  | O => fun _ => OutOfFuel
  | S fuel' =>
      let j1 := 2 * i + 1 in
      if (j1 >=? n) || (j1 <? 0) then ret tt
      else
        let j2 := j1 + 1 in
        let! j := if j2 <? n
                  then let! lt := Less j2 j1 in ret (if lt then j2 else j1)
                  else ret j1 in
        let! lt := Less j i in
        if negb lt then ret tt
        else Swap i j ;; heap_down fuel' j n
  end.

(** [heap.Push(&h, x)] with [h = s[base : base+hlen]]; the value is the new
    length of [h].  [append] puts the element into [s[base+hlen]], the slot
    right after the heap.  (Past the end of [s] an [append] would leave the
    storage of [s]; the engine never gets there, and the embedding has the
    out-of-range branch of the store in that place.) *)
Definition heap_Push (base hlen : Z) (x : E) : M (list E) Z :=
  Store (base + hlen) x ;;
  Window base (base + hlen + 1) (heap_up (Z.to_nat hlen + 1) hlen) ;;
  ret (hlen + 1).

(** [heap.Pop(&h)]: the least element and the new length of [h]. *)
Definition heap_Pop (base hlen : Z) : M (list E) (E * Z) :=
  let n := hlen - 1 in
  Window base (base + hlen)
    (Swap 0 n ;;
     heap_down (Z.to_nat hlen + 1) 0 n ;;
     let! x := Load n in
     ret (x, n)).

(** *** [heapAppendSort] *)

(** How a residual heap window was handled: by the recursive call or by the
    full sort; both carry the tail length of the call and the heap size.
    The log of these decisions is the value of the engine. *)
Inductive residual : Type :=
| Recurse (tailLength heapLen : Z)
| FullSort (tailLength heapLen : Z).

(** The main pass over [idx = modifyStart .. splitIdx-1]; the value is the
    final heap length and [rightIdx]. *)
Fixpoint heap_loop (iters : nat) (splitIdx length idx : Z)
  (hlen rightIdx : Z) (hasRight hasHeap : bool) : M (list E) (Z * Z) :=
  match iters with
  | O => ret (hlen, rightIdx)
  | S iters' =>
      if negb hasRight && negb hasHeap then ret (hlen, rightIdx) (* break *)
      else
        let! availFromHeap :=
          if hasHeap then Less splitIdx idx else ret false in
        let! availFromRight :=
          if hasRight then Less rightIdx idx else ret false in
        if negb availFromRight && negb availFromHeap then (* continue *)
          heap_loop iters' splitIdx length (idx + 1)
            hlen rightIdx hasRight hasHeap
        else
          let! old := Load idx in
          let! fromHeap :=
            if availFromHeap
            then if negb availFromRight then ret true
                 else Less splitIdx rightIdx
            else ret false in
          let! (availFromRight, hlen, rightIdx, hasRight, hasHeap) :=
            if fromHeap then
              let! (x, hlen) := heap_Pop splitIdx hlen in
              Store idx x ;;
              ret (availFromRight, hlen, rightIdx, hasRight, 0 <? hlen)
            else
              let! availFromRight :=
                if rightIdx + 1 <? length
                then Less (rightIdx + 1) idx else ret false in
              let! x := Load rightIdx in
              Store idx x ;;
              let rightIdx := rightIdx + 1 in
              ret (availFromRight, hlen, rightIdx,
                   rightIdx <? length, hasHeap) in
          if negb availFromRight then
            let rightIdx := rightIdx - 1 in
            Store rightIdx old ;; (* continue *)
            heap_loop iters' splitIdx length (idx + 1)
              hlen rightIdx true hasHeap
          else
            let! hlen := heap_Push splitIdx hlen old in
            heap_loop iters' splitIdx length (idx + 1)
              hlen rightIdx hasRight true
  end.

(** [fuel] bounds the depth of the recursion. *)
Fixpoint heapAppendSort (fuel : nat) (tailLength : Z)
  : M (list E) (list residual) :=
  fun s =>
    match fuel with
    | O => OutOfFuel
    | S fuel' =>
        if tailLength =? 0 then Ok [] s
        else
          let splitIdx := len s - to_int tailLength in
          if splitIdx =? 0 then (sort_Sort ltb ;; ret []) s
          else
            (Window splitIdx (len s) (sort_Sort ltb) ;;
             let! lt := Less splitIdx (splitIdx - 1) in
             if negb lt then ret []
             else
               let! modifyStart :=
                 sort_Search splitIdx (fun i => Less splitIdx i) in
               if modifyStart >=? splitIdx then raise ShouldNotHappen
               else
                 let length := len s in
                 let! (hlen, rightIdx) :=
                   heap_loop (Z.to_nat (splitIdx - modifyStart))
                     splitIdx length modifyStart 0 splitIdx true false in
                 if hlen =? 0 then ret []
                 else
                   let! sorted :=
                     if hlen =? 1 then Less splitIdx rightIdx
                     else ret false in
                   if sorted then ret []
                   else if negb (HeapPkg.shouldUseAppended tailLength hlen)
                   then
                     Window splitIdx length (sort_Sort ltb) ;;
                     ret [FullSort tailLength hlen]
                   else
                     Window splitIdx length
                       (slices_Rotate (to_int tailLength - hlen)) ;;
                     let! log := Window splitIdx length
                                   (heapAppendSort fuel' hlen) in
                     ret (Recurse tailLength hlen :: log)) s
    end.

End Engines.

(** ** Orders and sortedness *)

(** The comparator is a strict total order on the elements: two elements
    that compare neither way are the same element. *)
Record strict_total_order {E} (ltb : E -> E -> bool) : Prop := {
  sto_irrefl : forall a, ltb a a = false;
  sto_trans : forall a b c, ltb a b = true -> ltb b c = true -> ltb a c = true;
  sto_total : forall a b, ltb a b = false -> ltb b a = false -> a = b
}.

(** [a] is not after [b]. *)
Definition leb_of {E} (ltb : E -> E -> bool) (a b : E) : Prop := ltb b a = false.

(** Sorted ascending: no element is less than an earlier one. *)
Definition sorted {E} (ltb : E -> E -> bool) (l : list E) : Prop :=
  StronglySorted (leb_of ltb) l.

(** A slice whose first [n - k] elements are sorted ascending. *)
Definition prefix_sorted {E} (ltb : E -> E -> bool) (k : Z) (s : list E) : Prop :=
  sorted ltb (take (Z.to_nat (len s - k)) s).

(** The comparison [s.Less(i, j)] as a value, for positions in range. *)
Definition less_at {E} (ltb : E -> E -> bool) (s : list E) (i j : Z) : bool :=
  match lookupZ s i, lookupZ s j with
  | Some a, Some b => ltb a b
  | _, _ => false
  end.

(** What a call does to the slice: the result without its value. *)
Definition slice_outcome {St A} (r : res St A) : res St unit :=
  match r with
  | Ok _ st => Ok tt st
  | Panic p st => Panic p st
  | OutOfFuel => OutOfFuel
  end.

(** A computation that never runs out of its iteration budget. *)
Definition terminates {St A} (m : M St A) : Prop :=
  forall st, m st <> OutOfFuel.


(** The slice [H] with the elements at [i] and [j] exchanged. *)
Definition swap_at {E} (H : list E) (i j : Z) : list E :=
  match lookupZ H i, lookupZ H j with
  | Some a, Some b => <[Z.to_nat j := a]> (<[Z.to_nat i := b]> H)
  | _, _ => H
  end.

(** Heap order: the element at [c] is not before its parent, the element
    at [(c - 1) / 2]. *)
Definition ordered_at {E} (ltb : E -> E -> bool) (H : list E) (c : Z) : Prop :=
  forall a b,
    lookupZ H ((c - 1) / 2) = Some a -> lookupZ H c = Some b -> leb_of ltb a b.

Definition heap_ordered {E} (ltb : E -> E -> bool) (H : list E) : Prop :=
  forall c, 1 <= c -> ordered_at ltb H c.

(** The invariant of [up]: heap order everywhere except between [j] and
    its parent, and the children of [j] are not before the parent of [j]. *)
Definition up_inv {E} (ltb : E -> E -> bool) (H : list E) (j : Z) : Prop :=
  (forall c, 1 <= c -> c <> j -> ordered_at ltb H c) /\
  (forall c a b, 1 <= j -> 1 <= c -> (c - 1) / 2 = j ->
     lookupZ H ((j - 1) / 2) = Some a -> lookupZ H c = Some b ->
     leb_of ltb a b).

(** The invariant of [down]: heap order everywhere except between [i] and
    its children, and the children of [i] are not before the parent of
    [i]. *)
Definition down_inv {E} (ltb : E -> E -> bool) (H : list E) (i : Z) : Prop :=
  (forall c, 1 <= c -> (c - 1) / 2 <> i -> ordered_at ltb H c) /\
  (forall c a b, 1 <= i -> 1 <= c -> (c - 1) / 2 = i ->
     lookupZ H ((i - 1) / 2) = Some a -> lookupZ H c = Some b ->
     leb_of ltb a b).

(** A well-nested log of residual decisions for a call with tail length
    [tailLength]: a recursive call is the call for the heap it mentions, that
    heap is not empty and holds less than an eighth of the tail; the full
    sort ends the log, on a heap that is not empty and not the whole tail. *)
Fixpoint well_nested (tailLength : Z) (log : list residual) : Prop :=
  match log with
  | [] => True
  | Recurse t h :: rest =>
      t = tailLength /\ 0 < h /\ 8 * h < t /\ well_nested h rest
  | FullSort t h :: rest => t = tailLength /\ 0 < h < t /\ rest = []
  end.

(** ** The adapters [OrderedAsc] and [OrderedDesc]

    A slice of an ordered element type with the methods of
    [sort.Interface]; [ltb] is the built-in [<] of the element type and
    [a > b] is [b < a].  The engines above, run with the comparator [ltb],
    compare through [OrderedAsc.Less]; run with [OrderedDesc.gt ltb] they
    compare through [OrderedDesc.Less]. *)

Module OrderedAsc.
Section Methods.
Context {E : Type} (ltb : E -> E -> bool).

(** [s[i] < s[j]]. *)
Definition Less (i j : Z) : M (list E) bool :=
  let! a := Load i in
  let! b := Load j in
  ret (ltb a b).

Definition Len : M (list E) Z := fun s => Ok (len s) s.

(** [s[i], s[j] = s[j], s[i]]: both reads come before the first write. *)
Definition Swap (i j : Z) : M (list E) unit :=
  let! b := Load j in
  let! a := Load i in
  Store i b ;; Store j a.

End Methods.
End OrderedAsc.

Module OrderedDesc.
Section Methods.
Context {E : Type} (ltb : E -> E -> bool).

(** [a > b] on the elements. *)
Definition gt (a b : E) : bool := ltb b a.

(** [s[i] > s[j]]. *)
Definition Less (i j : Z) : M (list E) bool :=
  let! a := Load i in
  let! b := Load j in
  ret (gt a b).

Definition Len : M (list E) Z := fun s => Ok (len s) s.

Definition Swap (i j : Z) : M (list E) unit :=
  let! b := Load j in
  let! a := Load i in
  Store i b ;; Store j a.

End Methods.
End OrderedDesc.

(** ** The test drivers of [appended_test.go] *)

(** The loop of [intsEqual] over [idx = 0 .. len(a)-1]; both slices have
    [idx] in range when the loop runs. *)
Fixpoint intsEqual_loop (count idx : nat) (a b : list Z) : bool :=
  match count with
  | O => true
  | S count' =>
      match a !! idx, b !! idx with
      | Some x, Some y =>
          if negb (x =? y) then false
          else intsEqual_loop count' (S idx) a b
      | _, _ => false
      end
  end.

Definition intsEqual (a b : list Z) : bool :=
  if negb (len a =? len b) then false
  else intsEqual_loop (length a) 0 a b.

(** [<] on bytes and the conversion [int(v)] of a byte. *)
Definition byte_ltb (a b : byte) : bool := (Byte.to_N a <? Byte.to_N b)%N.

Definition int_of_byte (v : byte) : Z := Z.of_N (Byte.to_N v).

(** [fmt.Sprintf("%d", v)] of an unsigned value. *)
Definition Sprintf_d (v : N) : string := pretty v.

(** [prepareTestCase] sorts the first [len(initial) - tailLength] bytes of
    [initial] in place; its values are the slice of [int], the decimal
    strings of the two parts and the name of the test case. *)
Definition prepareTestCase (tailLength : Z)
  : M (list byte) (list Z * list string * list string * string) :=
  fun initial =>
    let splitIdx := len initial - to_int tailLength in
    (Window 0 splitIdx (sort_Slice byte_ltb) ;;
     let! leftPart := Slice 0 (len initial - to_int tailLength) in
     let leftStrs := (fun v => Sprintf_d (Byte.to_N v)) <$> leftPart in
     let! rightPart := Slice (len initial - to_int tailLength) (len initial) in
     let rightStrs := (fun v => Sprintf_d (Byte.to_N v)) <$> rightPart in
     fun initial =>
       Ok (int_of_byte <$> initial, leftStrs, rightStrs,
           String.concat " " leftStrs +:+ " | " +:+
           String.concat " " rightStrs +:+ " (tailLength: " +:+
           Sprintf_d (Z.to_N tailLength) +:+ ")")
          initial) initial.

(** How a test case ends: it passes, it fails at [t.Fatalf] (the message is
    left out), or the code under test panics; [Unfinished] is the answer for
    a run whose iteration budget ran out. *)
Inductive verdict : Type :=
| Pass
| Fail
| Crash (p : panic)
| Unfinished.

(** The three drivers re-sort the prepared slice, sort a copy of it with
    [sort.Slice] and compare the two. *)
Definition testAppended (initial : list byte) (tailLength : Z) : verdict :=
  match prepareTestCase tailLength initial with
  | Ok (s, _, _, _) _ =>
      let c := copy_into (replicate (length s) 0) s in
      match Appended Z.ltb tailLength s with
      | Ok _ s =>
          let c := sort_list Z.ltb c in
          if negb (intsEqual c s) then Fail else Pass
      | Panic p _ => Crash p
      | OutOfFuel => Unfinished
      end
  | Panic p _ => Crash p
  | OutOfFuel => Unfinished
  end.

Definition testAppended2 (initial : list byte) (tailLength : Z) : verdict :=
  match prepareTestCase tailLength initial with
  | Ok (s, _, _, _) _ =>
      let c := copy_into (replicate (length s) 0) s in
      match groupInsertAppendSort Z.ltb tailLength s with
      | Ok _ s =>
          let c := sort_list Z.ltb c in
          if negb (intsEqual c s) then Fail else Pass
      | Panic p _ => Crash p
      | OutOfFuel => Unfinished
      end
  | Panic p _ => Crash p
  | OutOfFuel => Unfinished
  end.

Definition testAppended3 (initial : list byte) (tailLength : Z) : verdict :=
  match prepareTestCase tailLength initial with
  | Ok (s, _, _, _) _ =>
      let c := copy_into (replicate (length s) 0) s in
      match groupInsertAppendSortWithBuf Z.ltb
              (replicate (Z.to_nat tailLength) 0) s with
      | Ok _ s =>
          let c := sort_list Z.ltb c in
          if negb (intsEqual c s) then Fail else Pass
      | Panic p _ => Crash p
      | OutOfFuel => Unfinished
      end
  | Panic p _ => Crash p
  | OutOfFuel => Unfinished
  end.

(** * Properties *)

(** ** The heuristic selectors *)

Lemma wrap_small (x : Z) : 0 <= x < uint_size -> wrap x = x.
Proof. intros H. unfold wrap. now apply Z.mod_small. Qed.

Lemma wrap_range (x : Z) : 0 <= wrap x < uint_size.
Proof. unfold wrap, uint_size. apply Z.mod_pos_bound. lia. Qed.

Lemma to_int_small (x : Z) : 0 <= x < 2 ^ 63 -> to_int x = x.
Proof.
  intros H. unfold to_int.
  destruct (Z.ltb_spec x (2 ^ 63)); [reflexivity | lia].
Qed.

Lemma sq_div_mono (k k' : Z) : 0 <= k <= k' -> k * k / 64 <= k' * k' / 64.
Proof. intros H. apply Z.div_le_mono; nia. Qed.

(** C4, as stated, fails: at [n = k = 2^32] the product [k * k] wraps around
    to [0], so the in-place selector accepts where the threshold
    [k * k / 64 < n] over the integers rejects. *)
Lemma selectors_thresholds_counterexample :
  ~ (forall n k : Z, 0 <= k <= n -> n < uint_size ->
       shouldUseAppended n k = spec_shouldUseInPlace n k /\
       shouldUseAppendedWithBuf n k = spec_shouldUseBuffered n k).
Proof.
  intros H.
  destruct (H (2 ^ 32) (2 ^ 32)) as [H1 _]; [lia | reflexivity |].
  vm_compute in H1. discriminate H1.
Qed.

(** C4 (amended): for all [0 <= k <= n < 2^64], [shouldUseAppended] computes
    the in-place thresholds of the specification whenever [k * k] fits the
    unsigned machine word, and [shouldUseAppendedWithBuf] computes the
    buffered thresholds whenever [5 * k] and [3 * n] fit it. *)
Theorem selectors_compute_thresholds (n k : Z) :
  0 <= k <= n -> n < uint_size ->
  (k * k < uint_size ->
   shouldUseAppended n k = spec_shouldUseInPlace n k) /\
  (5 * k < uint_size -> 3 * n < uint_size ->
   shouldUseAppendedWithBuf n k = spec_shouldUseBuffered n k).
Proof.
  intros Hk Hn. split.
  - intros Hsq. unfold shouldUseAppended, spec_shouldUseInPlace.
    destruct (Z.ltb_spec n 512).
    + rewrite wrap_small by (unfold uint_size; lia).
      now rewrite Z.mul_comm.
    + rewrite wrap_small by nia. reflexivity.
  - intros H5 H3. unfold shouldUseAppendedWithBuf, spec_shouldUseBuffered.
    destruct (Z.ltb_spec n 10); [reflexivity |].
    destruct (Z.ltb_spec n 64).
    { rewrite wrap_small by (unfold uint_size; lia). now rewrite Z.mul_comm. }
    destruct (Z.ltb_spec n 256).
    { rewrite wrap_small by (unfold uint_size; lia). now rewrite Z.mul_comm. }
    rewrite !wrap_small by lia.
    now rewrite (Z.mul_comm k), (Z.mul_comm n).
Qed.

Lemma selectors_compute_thresholds_witness :
  (shouldUseAppended 1000 100 = spec_shouldUseInPlace 1000 100) /\
  (shouldUseAppendedWithBuf 1000 100 = spec_shouldUseBuffered 1000 100).
Proof.
  destruct (selectors_compute_thresholds 1000 100) as [H1 H2];
    [lia | reflexivity |].
  split; [apply H1 | apply H2]; reflexivity.
Defined.

(** C6, as stated, fails over the unsigned machine integers: at [n = 100]
    the in-place selector rejects [k = 25] and accepts [k' = 2^62], because
    [4 * k'] wraps around to [0]. *)
Lemma selectors_monotone_counterexample :
  ~ (forall n k k' : Z, 0 <= k < k' -> k' < uint_size ->
       (shouldUseAppended n k = false -> shouldUseAppended n k' = false) /\
       (shouldUseAppendedWithBuf n k = false ->
        shouldUseAppendedWithBuf n k' = false)).
Proof.
  intros H.
  destruct (H 100 25 (2 ^ 62)) as [H1 _]; [lia | reflexivity |].
  specialize (H1 eq_refl). vm_compute in H1. discriminate H1.
Qed.

(** C6 (amended): for every fixed [n] and all [0 <= k < k'], a rejection at
    [(n, k)] stays a rejection at [(n, k')] as long as the products the
    selector forms do not wrap around: [k' * k' < 2^64] for
    [shouldUseAppended], [5 * k' < 2^64] for [shouldUseAppendedWithBuf]. *)
Theorem selectors_monotone (n k k' : Z) :
  0 <= k < k' ->
  (k' * k' < uint_size ->
   shouldUseAppended n k = false -> shouldUseAppended n k' = false) /\
  (5 * k' < uint_size ->
   shouldUseAppendedWithBuf n k = false ->
   shouldUseAppendedWithBuf n k' = false).
Proof.
  intros Hk. split.
  - intros Hsq. unfold shouldUseAppended.
    assert (Hk' : k' < 2 ^ 32) by (unfold uint_size in Hsq; nia).
    destruct (Z.ltb_spec n 512).
    + rewrite !wrap_small by (unfold uint_size; lia).
      rewrite !Z.ltb_ge. lia.
    + rewrite !wrap_small by (unfold uint_size in *; nia).
      rewrite !Z.ltb_ge. intros Hle.
      pose proof (sq_div_mono k k'). lia.
  - intros H5. unfold shouldUseAppendedWithBuf.
    destruct (Z.ltb_spec n 10); [reflexivity |].
    destruct (Z.ltb_spec n 64).
    { rewrite !wrap_small by lia. rewrite !Z.ltb_ge. lia. }
    destruct (Z.ltb_spec n 256).
    { rewrite !wrap_small by lia. rewrite !Z.ltb_ge. lia. }
    rewrite (wrap_small (k * 5)), (wrap_small (k' * 5)) by lia.
    rewrite !Z.ltb_ge. lia.
Qed.

Lemma selectors_monotone_witness :
  shouldUseAppended 1000 400 = false /\
  shouldUseAppendedWithBuf 1000 700 = false.
Proof.
  destruct (selectors_monotone 1000 300 400) as [H1 _]; [lia |].
  destruct (selectors_monotone 1000 600 700) as [_ H2]; [lia |].
  split; [apply H1 | apply H2]; reflexivity.
Defined.

(** ** The monad and the slice primitives *)

Section PrimitiveFacts.
Context {E : Type}.
Implicit Types (s w A B C : list E) (i j lo hi : Z).

Lemma len_nonneg s : 0 <= len s.
Proof. unfold len. lia. Qed.

Lemma len_app A B : len (A ++ B) = len A + len B.
Proof. unfold len. rewrite length_app. lia. Qed.

Lemma len_cons (x : E) A : len (x :: A) = len A + 1.
Proof. unfold len. simpl. lia. Qed.

Lemma len_nil : len (@nil E) = 0.
Proof. reflexivity. Qed.

Lemma len_to_nat s : Z.to_nat (len s) = length s.
Proof. unfold len. lia. Qed.

Lemma lookupZ_Some s i x :
  lookupZ s i = Some x -> 0 <= i < len s.
Proof.
  unfold lookupZ, len. destruct (Z.ltb_spec i 0) as [Hneg | Hpos];
    [discriminate |].
  intros Hx%lookup_lt_Some. lia.
Qed.

Lemma lookupZ_in_range s i :
  0 <= i < len s -> exists x, lookupZ s i = Some x.
Proof.
  unfold lookupZ, len. intros H.
  destruct (Z.ltb_spec i 0); [lia |].
  destruct (lookup_lt_is_Some_2 s (Z.to_nat i)) as [x Hx]; [lia |].
  eauto.
Qed.

Lemma lookupZ_app_l A B i :
  0 <= i < len A -> lookupZ (A ++ B) i = lookupZ A i.
Proof.
  unfold lookupZ, len. intros H.
  destruct (Z.ltb_spec i 0); [lia |].
  apply lookup_app_l. lia.
Qed.

Lemma lookupZ_app_r A B i :
  len A <= i -> lookupZ (A ++ B) i = lookupZ B (i - len A).
Proof.
  unfold lookupZ, len. intros H.
  destruct (Z.ltb_spec i 0); [lia |].
  destruct (Z.ltb_spec (i - Z.of_nat (length A)) 0); [lia |].
  rewrite lookup_app_r by lia. f_equal. lia.
Qed.

Lemma lookupZ_middle A B (x : E) i :
  i = len A -> lookupZ (A ++ x :: B) i = Some x.
Proof.
  intros ->. rewrite lookupZ_app_r by lia.
  rewrite Z.sub_diag. reflexivity.
Qed.

Lemma Load_eq s i x : lookupZ s i = Some x -> Load i s = Ok x s.
Proof. unfold Load. now intros ->. Qed.

Lemma Load_total s i : 0 <= i < len s -> exists x, Load i s = Ok x s.
Proof.
  intros [x Hx]%lookupZ_in_range. exists x. now apply Load_eq.
Qed.

Lemma Store_length s s' i (x : E) :
  Store i x s = Ok tt s' -> length s' = length s.
Proof.
  unfold Store. destruct (_ && _); [| discriminate].
  intros [= <-]. apply length_insert.
Qed.

Lemma Store_total s i (x : E) :
  0 <= i < len s -> Store i x s = Ok tt (<[Z.to_nat i := x]> s).
Proof.
  intros H. unfold Store.
  destruct (Z.leb_spec 0 i); [| lia].
  destruct (Z.ltb_spec i (len s)); [| lia]. reflexivity.
Qed.

Lemma Store_middle A B (x y : E) i :
  i = len A -> Store i x (A ++ y :: B) = Ok tt (A ++ x :: B).
Proof.
  intros ->. rewrite Store_total.
  - rewrite len_to_nat.
    replace (length A) with (length A + 0)%nat at 1 by lia.
    now rewrite insert_app_r.
  - rewrite len_app, len_cons. pose proof (len_nonneg A).
    pose proof (len_nonneg B). lia.
Qed.

Lemma Swap_adjacent A B (x y : E) i :
  i = len A ->
  Swap i (i + 1) (A ++ x :: y :: B) = Ok tt (A ++ y :: x :: B).
Proof.
  intros ->. unfold Swap, bind.
  rewrite (Load_eq _ _ y).
  2:{ rewrite lookupZ_app_r by lia.
      replace (len A + 1 - len A) with 1 by lia. reflexivity. }
  rewrite (Load_eq _ _ x) by now apply lookupZ_middle.
  rewrite Store_middle by reflexivity.
  change (A ++ y :: y :: B) with (A ++ [y] ++ y :: B).
  rewrite app_assoc, Store_middle.
  - now rewrite <- app_assoc.
  - rewrite len_app, len_cons, len_nil. lia.
Qed.

Lemma Swap_total s i j :
  0 <= i < len s -> 0 <= j < len s ->
  exists s', Swap i j s = Ok tt s' /\ length s' = length s.
Proof.
  intros Hi Hj. unfold Swap, bind.
  destruct (Load_total s j Hj) as [b ->].
  destruct (Load_total s i Hi) as [a ->].
  rewrite Store_total by assumption.
  rewrite Store_total.
  - eexists. split; [reflexivity |]. now rewrite !length_insert.
  - unfold len. rewrite length_insert. exact Hj.
Qed.

Lemma in_bounds_true lo hi s :
  0 <= lo -> lo <= hi -> hi <= len s -> in_bounds lo hi s = true.
Proof.
  intros H1 H2 H3. unfold in_bounds.
  destruct (Z.leb_spec 0 lo); [| lia].
  destruct (Z.leb_spec lo hi); [| lia].
  destruct (Z.leb_spec hi (len s)); [| lia]. reflexivity.
Qed.

Lemma in_bounds_spec lo hi s :
  in_bounds lo hi s = true <-> 0 <= lo /\ lo <= hi /\ hi <= len s.
Proof.
  unfold in_bounds. rewrite !andb_true_iff, !Z.leb_le. tauto.
Qed.

(** The window [s[lo:hi]] of [A ++ B ++ C] is [B] when the lengths agree. *)
Lemma window_split A B C lo hi :
  lo = len A -> hi - lo = len B ->
  take (Z.to_nat lo) (A ++ B ++ C) = A /\
  take (Z.to_nat (hi - lo)) (drop (Z.to_nat lo) (A ++ B ++ C)) = B /\
  drop (Z.to_nat hi) (A ++ B ++ C) = C.
Proof.
  intros -> HB.
  assert (Hhi : Z.to_nat hi = (length A + length B)%nat)
    by (unfold len in *; lia).
  rewrite HB, Hhi, !len_to_nat. repeat split.
  - now rewrite take_app_length.
  - now rewrite drop_app_length, take_app_length.
  - rewrite app_assoc, <- length_app. now rewrite drop_app_length.
Qed.

Lemma Window_app {R} A B C lo hi (m : M (list E) R) :
  lo = len A -> hi - lo = len B ->
  Window lo hi m (A ++ B ++ C) =
  match m B with
  | Ok a B' => Ok a (A ++ B' ++ C)
  | Panic p B' => Panic p (A ++ B' ++ C)
  | OutOfFuel => OutOfFuel
  end.
Proof.
  intros HA HB. unfold Window.
  rewrite in_bounds_true.
  - destruct (window_split A B C lo hi HA HB) as (-> & -> & ->).
    reflexivity.
  - pose proof (len_nonneg A). lia.
  - pose proof (len_nonneg B). lia.
  - rewrite !len_app. pose proof (len_nonneg C). lia.
Qed.

Lemma Window_modify_app A B C lo hi (f : list E -> list E) :
  lo = len A -> hi - lo = len B ->
  Window lo hi (modify f) (A ++ B ++ C) = Ok tt (A ++ f B ++ C).
Proof. intros HA HB. now rewrite Window_app. Qed.

(** Every slice splits at the bounds of a window. *)
Lemma window_decompose s lo hi :
  in_bounds lo hi s = true ->
  exists A B C, s = A ++ B ++ C /\ lo = len A /\ hi - lo = len B.
Proof.
  intros (H1 & H2 & H3)%in_bounds_spec.
  exists (take (Z.to_nat lo) s),
         (take (Z.to_nat (hi - lo)) (drop (Z.to_nat lo) s)),
         (drop (Z.to_nat (hi - lo)) (drop (Z.to_nat lo) s)).
  rewrite !take_drop. unfold len in *.
  rewrite !length_take, length_drop. repeat split; lia.
Qed.

Lemma Window_modify_total s lo hi (f : list E -> list E) :
  (forall w, length (f w) = length w) ->
  in_bounds lo hi s = true ->
  exists s', Window lo hi (modify f) s = Ok tt s' /\ length s' = length s.
Proof.
  intros Hf Hb.
  destruct (window_decompose s lo hi Hb) as (A & B & C & -> & HA & HB).
  rewrite Window_modify_app by assumption.
  eexists. split; [reflexivity |].
  now rewrite !length_app, Hf.
Qed.

End PrimitiveFacts.

(** ** Strict total orders and sorted slices *)

Lemma Z_ltb_order : strict_total_order Z.ltb.
Proof.
  split.
  - intros a. apply Z.ltb_irrefl.
  - intros a b c. rewrite !Z.ltb_lt. lia.
  - intros a b. rewrite !Z.ltb_ge. lia.
Qed.

Lemma Z_gtb_order : strict_total_order (fun a b : Z => Z.ltb b a).
Proof.
  split.
  - intros a. apply Z.ltb_irrefl.
  - intros a b c. rewrite !Z.ltb_lt. lia.
  - intros a b. rewrite !Z.ltb_ge. lia.
Qed.

Section OrderFacts.
Context {E : Type} (ltb : E -> E -> bool).
Hypothesis Hord : strict_total_order ltb.
Implicit Types (a b c x y : E) (l A B : list E).

Local Abbreviation le := (leb_of ltb).

Lemma flip_order : strict_total_order (fun a b => ltb b a).
Proof.
  destruct Hord as [Hi Ht Htot]. split; simpl; eauto.
Qed.

Lemma ltb_asym a b : ltb a b = true -> ltb b a = false.
Proof.
  intros Hab. destruct (ltb b a) eqn:Hba; [| reflexivity].
  pose proof (sto_trans ltb Hord _ _ _ Hab Hba) as Haa.
  rewrite (sto_irrefl ltb Hord) in Haa. discriminate.
Qed.

Lemma le_refl a : le a a.
Proof. apply (sto_irrefl ltb Hord). Qed.

Lemma lt_le a b : ltb a b = true -> le a b.
Proof. apply ltb_asym. Qed.

Lemma le_cases a b : le a b -> ltb a b = true \/ a = b.
Proof.
  unfold leb_of. intros Hle. destruct (ltb a b) eqn:Hab; [now left |].
  right. now apply (sto_total ltb Hord).
Qed.

Lemma lt_le_trans a b c : ltb a b = true -> le b c -> ltb a c = true.
Proof.
  intros Hab [Hbc | ->]%le_cases; [| assumption].
  eapply (sto_trans ltb Hord); eassumption.
Qed.

Lemma le_lt_trans a b c : le a b -> ltb b c = true -> ltb a c = true.
Proof.
  intros [Hab | ->]%le_cases Hbc; [| assumption].
  eapply (sto_trans ltb Hord); eassumption.
Qed.

Lemma le_trans a b c : le a b -> le b c -> le a c.
Proof.
  intros Hab Hbc. unfold leb_of. destruct (ltb c a) eqn:Hca; [| reflexivity].
  pose proof (lt_le_trans _ _ _ Hca Hab) as Hcb.
  unfold leb_of in Hbc. congruence.
Qed.

Lemma le_antisym a b : le a b -> le b a -> a = b.
Proof. intros Hab Hba. now apply (sto_total ltb Hord). Qed.

Lemma le_total a b : le a b \/ le b a.
Proof.
  unfold leb_of. destruct (ltb b a) eqn:Hba; [| now left].
  right. now apply ltb_asym.
Qed.

Lemma not_lt_le a b : ltb a b = false -> le b a.
Proof. trivial. Qed.

Lemma sorted_unique l1 l2 :
  sorted ltb l1 -> sorted ltb l2 -> l1 ≡ₚ l2 -> l1 = l2.
Proof.
  apply StronglySorted_unique_strong.
  intros x1 x2 _ _. apply le_antisym.
Qed.

(** *** The full sort *)

Lemma sort_insert_perm x l : sort_insert ltb x l ≡ₚ x :: l.
Proof.
  induction l as [| y l IH]; simpl; [reflexivity |].
  destruct (ltb y x); [| reflexivity].
  rewrite IH. apply Permutation_swap.
Qed.

Lemma sort_list_perm l : sort_list ltb l ≡ₚ l.
Proof.
  induction l as [| x l IH]; simpl; [reflexivity |].
  now rewrite sort_insert_perm, IH.
Qed.

Lemma sort_list_length l : length (sort_list ltb l) = length l.
Proof. apply Permutation_length, sort_list_perm. Qed.

Lemma sort_insert_sorted x l : sorted ltb l -> sorted ltb (sort_insert ltb x l).
Proof.
  unfold sorted. induction l as [| y l IH]; simpl; intros Hs.
  - repeat constructor.
  - apply StronglySorted_cons in Hs as [Hy Hl].
    destruct (ltb y x) eqn:Hyx.
    + apply StronglySorted_cons. split; [| auto].
      rewrite sort_insert_perm. constructor; [now apply lt_le | assumption].
    + apply StronglySorted_cons. split.
      * constructor; [exact Hyx |].
        eapply Forall_impl; [exact Hy |]. intros z Hz.
        eapply le_trans; [exact Hyx | exact Hz].
      * apply StronglySorted_cons. auto.
Qed.

Lemma sort_list_sorted l : sorted ltb (sort_list ltb l).
Proof.
  induction l as [| x l IH]; simpl; [constructor |].
  now apply sort_insert_sorted.
Qed.

(** The full sort returns the one sorted arrangement of its input. *)
Lemma sort_list_unique l l' :
  sorted ltb l' -> l' ≡ₚ l -> sort_list ltb l = l'.
Proof.
  intros Hs Hp. apply sorted_unique; [apply sort_list_sorted | assumption |].
  now rewrite sort_list_perm.
Qed.

Lemma sort_list_sorted_id l : sorted ltb l -> sort_list ltb l = l.
Proof. intros Hs. now apply sort_list_unique. Qed.

End OrderFacts.

(** ** Rotation, reversal and [copy] *)

Section ListFacts.
Context {E : Type}.
Implicit Types (w A B : list E) (n : Z).

Lemma rotate_length n w : length (rotate n w) = length w.
Proof.
  unfold rotate. destruct (len w =? 0); [reflexivity |].
  rewrite length_app, length_drop, length_take. lia.
Qed.

Lemma rotate_perm n w : rotate n w ≡ₚ w.
Proof.
  unfold rotate. destruct (len w =? 0); [reflexivity |].
  rewrite Permutation_app_comm. now rewrite take_drop.
Qed.

(** Rotating [A ++ B] by the length of [B] (modulo the whole length) brings
    [B] to the front. *)
Lemma rotate_app n A B :
  (n - len B) mod (len A + len B) = 0 ->
  rotate n (A ++ B) = B ++ A.
Proof.
  intros Hmod. unfold rotate. rewrite len_app.
  pose proof (len_nonneg A) as HA. pose proof (len_nonneg B) as HB.
  destruct (Z.eqb_spec (len A + len B) 0) as [H0 | Hpos].
  - assert (A = []) as -> by (apply length_zero_iff_nil; unfold len in *; lia).
    assert (B = []) as -> by (apply length_zero_iff_nil; unfold len in *; lia).
    reflexivity.
  - assert (Hcases : n mod (len A + len B) = len B \/
                     (len A = 0 /\ n mod (len A + len B) = 0)).
    { apply Z.mod_divide in Hmod; [| assumption].
      destruct Hmod as [q Hq].
      assert (Hn : n = len B + q * (len A + len B)) by lia.
      rewrite Hn, Z.mod_add by assumption.
      destruct (Z.eq_dec (len A) 0) as [HA0 | HA0].
      - right. split; [assumption |]. rewrite HA0. apply Z.mod_same. lia.
      - left. apply Z.mod_small. lia. }
    destruct Hcases as [Hr | [HA0 Hr]]; rewrite Hr.
    + replace (Z.to_nat (len A + len B - len B)) with (length A)
        by (unfold len; lia).
      now rewrite drop_app_length, take_app_length.
    + assert (A = []) as -> by (apply length_zero_iff_nil; unfold len in *; lia).
      simpl. rewrite len_nil, Z.add_0_l, Z.sub_0_r, len_to_nat.
      rewrite drop_ge, take_ge by lia. now rewrite app_nil_r.
Qed.

Lemma copy_into_length (dst src : list E) :
  length (copy_into dst src) = length dst.
Proof.
  unfold copy_into. rewrite length_app, length_take, length_drop. lia.
Qed.

Lemma copy_into_same_length (dst src : list E) :
  length dst = length src -> copy_into dst src = src.
Proof.
  intros H. unfold copy_into. rewrite H, take_ge, drop_ge by lia.
  apply app_nil_r.
Qed.

End ListFacts.

(** ** Binary search *)

Section SearchFacts.
Context {St : Type}.

(** Whatever the predicate, the search ends within [i, j], just after a
    position where the predicate fails and at a position where it holds
    (when there are such positions). *)
Lemma search_loop_spec (f : Z -> M St bool) (g : Z -> bool) (st : St) :
  forall (fuel : nat) (i j : Z),
    0 <= i <= j -> (Z.to_nat (j - i) <= fuel)%nat ->
    (forall h, i <= h < j -> f h st = Ok (g h) st) ->
    exists r, search_loop fuel f i j st = Ok r st /\ i <= r <= j /\
              (r = i \/ g (r - 1) = false) /\ (r = j \/ g r = true).
Proof.
  induction fuel as [| fuel IH]; intros i j Hij Hfuel Hf; simpl.
  - assert (i = j) as -> by lia. rewrite Z.ltb_irrefl.
    exists j. unfold ret. repeat split; auto; lia.
  - destruct (Z.ltb_spec i j) as [Hlt | Hge].
    2:{ exists i. unfold ret. repeat split; auto; lia. }
    rewrite Z.shiftr_div_pow2 by lia. change (2 ^ 1) with 2.
    set (h := (i + j) / 2).
    assert (Hh : i <= h < j) by (subst h; Z.div_mod_to_equations; lia).
    unfold bind. rewrite (Hf h Hh).
    destruct (g h) eqn:Hgh; simpl.
    + destruct (IH i h) as (r & Hr & Hrange & Hlo & Hhi);
        [lia | lia | intros; apply Hf; lia |].
      exists r. split; [exact Hr |]. split; [lia |]. split; [exact Hlo |].
      right. destruct Hhi as [-> | Hhi]; assumption.
    + destruct (IH (h + 1) j) as (r & Hr & Hrange & Hlo & Hhi);
        [lia | lia | intros; apply Hf; lia |].
      exists r. split; [exact Hr |]. split; [lia |]. split; [| exact Hhi].
      destruct Hlo as [-> | Hlo]; [| now right].
      right. now replace (h + 1 - 1) with h by lia.
Qed.

Lemma sort_Search_spec (f : Z -> M St bool) (g : Z -> bool) (st : St) (n : Z) :
  0 <= n ->
  (forall h, 0 <= h < n -> f h st = Ok (g h) st) ->
  exists r, sort_Search n f st = Ok r st /\ 0 <= r <= n /\
            (r = 0 \/ g (r - 1) = false) /\ (r = n \/ g r = true).
Proof.
  intros Hn Hf. apply search_loop_spec; [lia | lia | assumption].
Qed.

End SearchFacts.

Section LessFacts.
Context {E : Type} (ltb : E -> E -> bool).
Implicit Types (s A B C : list E) (i j : Z).

Lemma Less_in_range s i j :
  0 <= i < len s -> 0 <= j < len s ->
  Less ltb i j s = Ok (less_at ltb s i j) s.
Proof.
  intros [a Ha]%lookupZ_in_range [b Hb]%lookupZ_in_range.
  unfold Less, bind, less_at.
  rewrite (Load_eq _ _ _ Ha), (Load_eq _ _ _ Hb), Ha, Hb. reflexivity.
Qed.

Lemma Less_eq s i j a b :
  lookupZ s i = Some a -> lookupZ s j = Some b ->
  Less ltb i j s = Ok (ltb a b) s.
Proof.
  intros Ha Hb. unfold Less, bind.
  now rewrite (Load_eq _ _ _ Ha), (Load_eq _ _ _ Hb).
Qed.

(** The search of the engines: the candidate sits at [at_], the search runs
    over the positions before it. *)
Lemma Search_Less_total s n at_ :
  0 <= n <= at_ -> at_ < len s ->
  exists r, sort_Search n (fun i => Less ltb at_ i) s = Ok r s /\
            0 <= r <= n /\
            (r = 0 \/ less_at ltb s at_ (r - 1) = false) /\
            (r = n \/ less_at ltb s at_ r = true).
Proof.
  intros Hn Hat. apply sort_Search_spec; [lia |].
  intros h Hh. apply Less_in_range; lia.
Qed.

End LessFacts.

(** ** Index safety of the two engines of [appended.go] *)

Lemma bind_ok {St A B} (m : M St A) (k : A -> M St B) (st st' : St) (a : A) :
  m st = Ok a st' -> bind m k st = k a st'.
Proof. unfold bind. now intros ->. Qed.

Section Safety.
Context {E : Type} (ltb : E -> E -> bool).
Implicit Types (s buf : list E) (c : nat).

Lemma len_eq_of_length s s' : length s' = length s -> len s' = len s.
Proof. unfold len. now intros ->. Qed.

Lemma Window_Rotate_total s lo hi n :
  0 <= lo -> lo <= hi -> hi <= len s ->
  exists s', Window lo hi (slices_Rotate n) s = Ok tt s' /\
             length s' = length s.
Proof.
  intros H1 H2 H3. apply Window_modify_total.
  - intros w. apply rotate_length.
  - now apply in_bounds_true.
Qed.

(** Whatever the contents of the slice, the loop of the in-place engine
    stays within the slice: it ends normally and keeps the length. *)
Lemma inplace_loop_safe c :
  forall (usi uend : Z) s,
    0 <= usi -> usi + Z.of_nat c <= len s -> uend = usi + Z.of_nat c ->
    exists s', inplace_loop ltb c usi uend s = Ok tt s' /\
               length s' = length s.
Proof.
  induction c as [| c IH]; intros usi uend s Husi Hlen Hend.
  { exists s. split; reflexivity. }
  cbn [inplace_loop].
  destruct (Search_Less_total ltb s usi usi) as (r & Hr & Hrange & _);
    [lia | lia |].
  rewrite (bind_ok _ _ _ _ _ Hr).
  destruct (Z.eqb_spec r usi) as [-> | Hne].
  - destruct (Z.eqb_spec usi 0) as [-> | Hpos].
    + apply Window_modify_total; [apply length_reverse |].
      apply in_bounds_true; lia.
    + destruct (Z.ltb_spec 0 usi) as [_ | Hbad]; [| lia].
      rewrite (bind_ok _ _ _ _ _ (Less_in_range ltb s usi (usi - 1)
                                    ltac:(lia) ltac:(lia))).
      destruct (less_at ltb s usi (usi - 1)).
      * destruct (Window_Rotate_total s (usi - 1)
                    (usi - 1 + Z.of_nat (S c) + 1) (-2))
          as (s1 & Hs1 & Hl1); [lia | lia | lia |].
        rewrite (bind_ok _ _ _ _ _ Hs1).
        destruct (IH (usi - 1) (usi - 1 + Z.of_nat (S c) - 1) s1)
          as (s2 & Hs2 & Hl2);
          [lia | rewrite (len_eq_of_length _ _ Hl1); lia | lia |].
        exists s2. split; [exact Hs2 | congruence].
      * replace (usi - 1 + 1) with usi by lia.
        destruct (Window_Rotate_total s usi (usi - 1 + Z.of_nat (S c) + 1) (-1))
          as (s1 & Hs1 & Hl1); [lia | lia | lia |].
        rewrite (bind_ok _ _ _ _ _ Hs1).
        destruct (IH usi (usi + Z.of_nat (S c) - 1) s1)
          as (s2 & Hs2 & Hl2);
          [lia | rewrite (len_eq_of_length _ _ Hl1); lia | lia |].
        exists s2. split; [exact Hs2 | congruence].
  - destruct (Window_Rotate_total s (r + 1) uend (uend - usi))
      as (s1 & Hs1 & Hl1); [lia | lia | lia |].
    rewrite (bind_ok _ _ _ _ _ Hs1).
    pose proof (len_eq_of_length _ _ Hl1) as Hlen1.
    destruct (Swap_total s1 r (r + 1)) as (s2 & Hs2 & Hl2); [lia | lia |].
    rewrite (bind_ok _ _ _ _ _ Hs2).
    pose proof (len_eq_of_length _ _ Hl2) as Hlen2.
    destruct (Window_Rotate_total s2 r (r + Z.of_nat (S c) + 1) (-2))
      as (s3 & Hs3 & Hl3); [lia | lia | lia |].
    rewrite (bind_ok _ _ _ _ _ Hs3).
    pose proof (len_eq_of_length _ _ Hl3) as Hlen3.
    destruct (IH r (r + Z.of_nat (S c) - 1) s3) as (s4 & Hs4 & Hl4);
      [lia | lia | lia |].
    exists s4. split; [exact Hs4 | congruence].
Qed.

Lemma LoadFrom_total buf s (i : Z) :
  0 <= i < len buf -> exists x, LoadFrom buf i s = Ok x s.
Proof.
  intros [x Hx]%lookupZ_in_range. exists x. unfold LoadFrom. now rewrite Hx.
Qed.

Lemma Slice_total s (lo hi : Z) :
  0 <= lo -> lo <= hi -> hi <= len s ->
  Slice lo hi s = Ok (take (Z.to_nat (hi - lo)) (drop (Z.to_nat lo) s)) s.
Proof.
  intros H1 H2 H3. unfold Slice. now rewrite in_bounds_true.
Qed.

Lemma CopyWithin_total s (to hi from : Z) :
  0 <= to -> to <= hi -> hi <= len s -> 0 <= from <= len s ->
  exists s', CopyWithin to hi from s = Ok tt s' /\ length s' = length s.
Proof.
  intros H1 H2 H3 H4. unfold CopyWithin.
  rewrite (bind_ok _ _ _ _ _ (Slice_total s to hi H1 H2 H3)).
  rewrite (bind_ok _ _ _ _ _ (Slice_total s from (len s)
                                ltac:(lia) ltac:(lia) ltac:(lia))).
  apply Window_modify_total.
  - intros w. apply copy_into_length.
  - now apply in_bounds_true.
Qed.

(** The same for the loop of the buffered engine, whose reads of the buffer
    stay within the buffer. *)
Lemma buffered_loop_safe buf c :
  forall (usi uend : Z) s,
    Z.of_nat c <= len buf ->
    0 <= usi -> usi + Z.of_nat c <= len s -> uend = usi + Z.of_nat c ->
    exists s', buffered_loop ltb buf c usi uend s = Ok tt s' /\
               length s' = length s.
Proof.
  induction c as [| c IH]; intros usi uend s Hbuf Husi Hlen Hend.
  { exists s. split; reflexivity. }
  cbn [buffered_loop].
  destruct (LoadFrom_total buf s (Z.of_nat (S c) - 1)) as (x & Hx); [lia |].
  rewrite (bind_ok _ _ _ _ _ Hx).
  rewrite (bind_ok _ _ _ _ _ (Store_total s usi x ltac:(lia))).
  set (s1 := <[Z.to_nat usi := x]> s).
  assert (Hl1 : len s1 = len s)
    by (apply len_eq_of_length; apply length_insert).
  destruct (Search_Less_total ltb s1 usi usi) as (r & Hr & Hrange & _);
    [lia | lia |].
  rewrite (bind_ok _ _ _ _ _ Hr).
  destruct (CopyWithin_total s1 (r + Z.of_nat (S c)) uend r)
    as (s2 & Hs2 & Hl2); [lia | lia | lia | lia |].
  rewrite (bind_ok _ _ _ _ _ Hs2).
  pose proof (len_eq_of_length _ _ Hl2) as Hlen2.
  destruct (LoadFrom_total buf s2 (Z.of_nat (S c) - 1)) as (y & Hy); [lia |].
  rewrite (bind_ok _ _ _ _ _ Hy).
  rewrite (bind_ok _ _ _ _ _ (Store_total s2 (r + Z.of_nat (S c) - 1) y
                                ltac:(lia))).
  destruct (IH r (r + Z.of_nat (S c) - 1)
              (<[Z.to_nat (r + Z.of_nat (S c) - 1) := y]> s2))
    as (s4 & Hs4 & Hl4);
    [lia | lia | unfold len in *; rewrite length_insert; lia | lia |].
  exists s4. split; [exact Hs4 |].
  rewrite Hl4, length_insert, Hl2. apply length_insert.
Qed.

Lemma Window_sort_total (less : E -> E -> bool) s (lo hi : Z) :
  0 <= lo -> lo <= hi -> hi <= len s ->
  exists s', Window lo hi (modify (sort_list less)) s = Ok tt s' /\
             length s' = length s.
Proof.
  intros H1 H2 H3. apply Window_modify_total.
  - intros w. apply sort_list_length.
  - now apply in_bounds_true.
Qed.

Lemma groupInsertAppendSort_safe s (k : Z) :
  0 < k <= len s -> len s < 2 ^ 63 ->
  exists s', groupInsertAppendSort ltb k s = Ok tt s' /\
             length s' = length s.
Proof.
  intros Hk Hs. unfold groupInsertAppendSort.
  rewrite to_int_small by lia.
  destruct (Z.gtb_spec k (len s)) as [Hbad | _]; [lia |].
  rewrite wrap_small by (unfold uint_size; lia).
  destruct (Z.eqb_spec (len s - k) 0) as [H0 | Hsplit].
  { eexists. split; [reflexivity |]. apply sort_list_length. }
  destruct (Window_sort_total (fun x y => ltb y x) s (len s - k) (len s))
    as (s1 & Hs1 & Hl1); [lia | lia | lia |].
  unfold sort_Slice. rewrite (bind_ok _ _ _ _ _ Hs1).
  destruct (inplace_loop_safe (Z.to_nat k) (len s - k) (len s) s1)
    as (s2 & Hs2 & Hl2);
    [lia | rewrite (len_eq_of_length _ _ Hl1); lia | lia |].
  exists s2. split; [exact Hs2 | congruence].
Qed.

Lemma groupInsertAppendSortWithBuf_safe s buf :
  0 < len buf <= len s ->
  exists s' buf', groupInsertAppendSortWithBuf ltb buf s = Ok buf' s' /\
                  length s' = length s /\ length buf' = length buf.
Proof.
  intros Hk. unfold groupInsertAppendSortWithBuf.
  destruct (Z.gtb_spec (len buf) (len s)) as [Hbad | _]; [lia |].
  destruct (Z.eqb_spec (len s - len buf) 0) as [H0 | Hsplit].
  { eexists _, buf. split; [reflexivity |]. split; [| reflexivity].
    apply sort_list_length. }
  destruct (Window_sort_total ltb s (len s - len buf) (len s))
    as (s1 & Hs1 & Hl1); [lia | lia | lia |].
  unfold sort_Sort. rewrite (bind_ok _ _ _ _ _ Hs1).
  pose proof (len_eq_of_length _ _ Hl1) as Hlen1.
  rewrite (bind_ok _ _ _ _ _ (Slice_total s1 (len s - len buf) (len s)
                                ltac:(lia) ltac:(lia) ltac:(lia))).
  set (buf' := copy_into buf _).
  assert (Hb : length buf' = length buf) by apply copy_into_length.
  destruct (buffered_loop_safe buf' (Z.to_nat (len buf))
              (len s - len buf) (len s) s1) as (s2 & Hs2 & Hl2);
    [unfold len in *; lia | lia | lia | lia |].
  rewrite (bind_ok _ _ _ _ _ Hs2).
  exists s2, buf'. split; [reflexivity |]. split; [congruence | exact Hb].
Qed.

End Safety.

(** C10: for every slice [s] (sorted prefix or not) of a length that a Go
    slice can have, and every [0 < k <= len s], [groupInsertAppendSort s k]
    and [groupInsertAppendSortWithBuf s buf] with [len buf = k] end normally:
    the out-of-range branch of every read, write, swap, comparison,
    rotation and copy, on the slice and on the buffer, is never taken. *)
Theorem engines_index_safe {E} (ltb : E -> E -> bool) (s buf : list E) (k : Z) :
  0 < k <= len s -> len s < 2 ^ 63 -> len buf = k ->
  (exists s', groupInsertAppendSort ltb k s = Ok tt s' /\
              length s' = length s) /\
  (exists s' buf', groupInsertAppendSortWithBuf ltb buf s = Ok buf' s' /\
                   length s' = length s /\ length buf' = length buf).
Proof.
  intros Hk Hs Hbuf. split.
  - now apply groupInsertAppendSort_safe.
  - apply groupInsertAppendSortWithBuf_safe. lia.
Qed.

Lemma engines_index_safe_witness :
  (exists s', groupInsertAppendSort Z.ltb 3 [5; 1; 7; 2; 9; 0] = Ok tt s' /\
              length s' = 6%nat) /\
  (exists s' buf',
      groupInsertAppendSortWithBuf Z.ltb [0; 0; 0] [5; 1; 7; 2; 9; 0]
      = Ok buf' s' /\ length s' = 6%nat /\ length buf' = 3%nat).
Proof.
  apply (engines_index_safe Z.ltb [5; 1; 7; 2; 9; 0] [0; 0; 0] 3);
    vm_compute; intuition congruence.
Defined.

(** ** Contract violation: the tail is longer than the slice *)

Section TailTooLong.
Context {E : Type} (ltb : E -> E -> bool).
Implicit Types (s buf : list E) (k : Z).

Lemma Appended_panics s k :
  0 <= k < uint_size -> len s < 2 ^ 63 -> len s < k ->
  exists p, Appended ltb k s = Panic p s.
Proof.
  intros Hk Hs Hlt. pose proof (len_nonneg s) as H0. unfold Appended.
  destruct (Z.eqb_spec k 0) as [-> | _]; [lia |].
  destruct (shouldUseAppended (len s) k); simpl.
  2:{ destruct (Z.gtb_spec k (len s)); [eauto | lia]. }
  unfold groupInsertAppendSort.
  destruct (Z.gtb_spec (to_int k) (len s)) as [_ | Hint]; [eauto |].
  assert (Hbig : 2 ^ 63 <= k).
  { unfold to_int in Hint. destruct (Z.ltb_spec k (2 ^ 63)); lia. }
  assert (Hsplit : wrap (len s - k) = len s - k + uint_size).
  { unfold wrap. symmetry. apply (Z.mod_unique _ _ (-1)).
    - left. unfold uint_size in *. lia.
    - lia. }
  rewrite Hsplit.
  destruct (Z.eqb_spec (len s - k + uint_size) 0) as [Hz | _];
    [unfold uint_size in *; lia |].
  exists OutOfRange. unfold bind, Window, in_bounds.
  destruct (Z.leb_spec (len s - k + uint_size) (len s)) as [Hle | _];
    [unfold uint_size in *; lia |].
  now rewrite andb_false_r.
Qed.

Lemma AppendedWithBuf_panics s buf :
  len s < len buf -> exists p, AppendedWithBuf ltb buf s = Panic p s.
Proof.
  intros Hlt. pose proof (len_nonneg s) as H0. unfold AppendedWithBuf.
  destruct (Z.eqb_spec (len buf) 0) as [Hz | _]; [lia |].
  destruct (shouldUseAppendedWithBuf (len s) (len buf)); simpl.
  2:{ destruct (Z.gtb_spec (len buf) (len s)); [eauto | lia]. }
  unfold groupInsertAppendSortWithBuf.
  destruct (Z.gtb_spec (len buf) (len s)); [eauto | lia].
Qed.

Lemma Appended_returns s k :
  0 <= k <= len s -> len s < 2 ^ 63 ->
  exists s', Appended ltb k s = Ok tt s' /\ length s' = length s.
Proof.
  intros Hk Hs. unfold Appended.
  destruct (Z.eqb_spec k 0) as [-> | Hk0]; [eauto |].
  destruct (shouldUseAppended (len s) k); simpl.
  2:{ destruct (Z.gtb_spec k (len s)); [lia |].
      eexists. split; [reflexivity |]. apply sort_list_length. }
  apply groupInsertAppendSort_safe; lia.
Qed.

Lemma AppendedWithBuf_returns s buf :
  len buf <= len s ->
  exists s' buf', AppendedWithBuf ltb buf s = Ok buf' s' /\
                  length s' = length s.
Proof.
  intros Hk. pose proof (len_nonneg buf) as H0. unfold AppendedWithBuf.
  destruct (Z.eqb_spec (len buf) 0) as [Hz | Hk0]; [eauto |].
  destruct (shouldUseAppendedWithBuf (len s) (len buf)); simpl.
  2:{ destruct (Z.gtb_spec (len buf) (len s)); [lia |].
      eexists _, _. split; [reflexivity |]. apply sort_list_length. }
  destruct (groupInsertAppendSortWithBuf_safe ltb s buf)
    as (s' & buf' & Heq & Hl & _); [lia | eauto].
Qed.

End TailTooLong.

(** C3: when [tailLength] (for the buffered form, [len buf]) exceeds
    [len s], [Appended] and [AppendedWithBuf] panic and the slice is, at
    that moment, exactly the slice that was passed in; when it does not
    exceed [len s], they return normally. *)
Theorem tail_longer_than_slice {E} (ltb : E -> E -> bool)
  (s buf : list E) (k : Z) :
  0 <= k < uint_size -> len s < 2 ^ 63 ->
  (len s < k -> exists p, Appended ltb k s = Panic p s) /\
  (len s < len buf -> exists p, AppendedWithBuf ltb buf s = Panic p s) /\
  (k <= len s -> exists s', Appended ltb k s = Ok tt s') /\
  (len buf <= len s -> exists s' buf', AppendedWithBuf ltb buf s = Ok buf' s').
Proof.
  intros Hk Hs. repeat split.
  - now apply Appended_panics.
  - apply AppendedWithBuf_panics.
  - intros Hle. destruct (Appended_returns ltb s k) as (s' & Hs' & _);
      [lia | assumption | eauto].
  - intros Hle. destruct (AppendedWithBuf_returns ltb s buf Hle)
      as (s' & buf' & Hs' & _). eauto.
Qed.

Lemma tail_longer_than_slice_witness :
  (exists p, Appended Z.ltb 5 [1; 3; 2] = Panic p [1; 3; 2]) /\
  (exists p, AppendedWithBuf Z.ltb [0; 0; 0; 0] [1; 3; 2] = Panic p [1; 3; 2]) /\
  (exists s', Appended Z.ltb 1 [1; 3; 2] = Ok tt s') /\
  (exists s' buf', AppendedWithBuf Z.ltb [0] [1; 3; 2] = Ok buf' s').
Proof.
  destruct (tail_longer_than_slice Z.ltb [1; 3; 2] [0; 0; 0; 0] 5)
    as (H1 & H2 & _); [vm_compute; intuition congruence | reflexivity |].
  destruct (tail_longer_than_slice Z.ltb [1; 3; 2] [0] 1)
    as (_ & _ & H3 & H4); [vm_compute; intuition congruence | reflexivity |].
  repeat split.
  - apply H1. reflexivity.
  - apply H2. reflexivity.
  - apply H3. vm_compute. discriminate.
  - apply H4. vm_compute. discriminate.
Defined.

(** ** The boundary cases [k = 0] and [k = n] *)

(** C7: [Appended s 0] and [AppendedWithBuf s buf] with an empty [buf] leave
    [s] as it is; [Appended s (len s)] and [AppendedWithBuf s buf] with
    [len buf = len s] do to [s] exactly what the full sort [sort.Sort]
    does. *)
Theorem fallback_boundary {E} (ltb : E -> E -> bool) (s buf : list E) :
  len s < 2 ^ 63 ->
  Appended ltb 0 s = Ok tt s /\
  (len buf = 0 -> AppendedWithBuf ltb buf s = Ok buf s) /\
  Appended ltb (len s) s = sort_Sort ltb s /\
  (len buf = len s ->
   slice_outcome (AppendedWithBuf ltb buf s) = sort_Sort ltb s).
Proof.
  intros Hs. pose proof (len_nonneg s) as H0. repeat split.
  - intros Hb. unfold AppendedWithBuf. now rewrite Hb.
  - unfold Appended.
    destruct (Z.eqb_spec (len s) 0) as [Hz | Hnz].
    { assert (s = []) as -> by (apply length_zero_iff_nil; unfold len in Hz; lia).
      reflexivity. }
    destruct (shouldUseAppended (len s) (len s)); simpl.
    + unfold groupInsertAppendSort. rewrite to_int_small by lia.
      destruct (Z.gtb_spec (len s) (len s)); [lia |].
      now rewrite Z.sub_diag.
    + destruct (Z.gtb_spec (len s) (len s)); [lia | reflexivity].
  - intros Hb. unfold AppendedWithBuf. rewrite Hb.
    destruct (Z.eqb_spec (len s) 0) as [Hz | Hnz].
    { assert (s = []) as -> by (apply length_zero_iff_nil; unfold len in Hz; lia).
      reflexivity. }
    destruct (shouldUseAppendedWithBuf (len s) (len s)); simpl.
    + unfold groupInsertAppendSortWithBuf. rewrite Hb.
      destruct (Z.gtb_spec (len s) (len s)); [lia |].
      now rewrite Z.sub_diag.
    + destruct (Z.gtb_spec (len s) (len s)); [lia | reflexivity].
Qed.

Lemma fallback_boundary_witness :
  Appended Z.ltb 0 [4; 1; 3] = Ok tt [4; 1; 3] /\
  Appended Z.ltb 3 [4; 1; 3] = Ok tt [1; 3; 4] /\
  slice_outcome (AppendedWithBuf Z.ltb [0; 0; 0] [4; 1; 3]) = Ok tt [1; 3; 4].
Proof.
  destruct (fallback_boundary Z.ltb [4; 1; 3] [0; 0; 0])
    as (H1 & _ & H3 & H4); [reflexivity |].
  split; [exact H1 |]. split; [exact H3 |]. apply H4. reflexivity.
Defined.

(** ** The buffer only matters through its length *)

(** C8: two runs of [AppendedWithBuf] on the same slice with buffers of the
    same length do the same to the slice, whatever the buffers hold. *)
Theorem buffer_contents_irrelevant {E} (ltb : E -> E -> bool)
  (s b1 b2 : list E) :
  length b1 = length b2 ->
  slice_outcome (AppendedWithBuf ltb b1 s) =
  slice_outcome (AppendedWithBuf ltb b2 s).
Proof.
  intros Hb. assert (Hlen : len b1 = len b2) by (unfold len; now rewrite Hb).
  pose proof (len_nonneg s) as H0. pose proof (len_nonneg b2) as Hb0.
  unfold AppendedWithBuf. rewrite Hlen.
  destruct (len b2 =? 0); [reflexivity |].
  destruct (negb _).
  { destruct (len b2 >? len s); reflexivity. }
  unfold groupInsertAppendSortWithBuf. rewrite Hlen.
  destruct (Z.gtb_spec (len b2) (len s)) as [_ | Hle]; [reflexivity |].
  destruct (len s - len b2 =? 0); [reflexivity |].
  destruct (Window_sort_total ltb s (len s - len b2) (len s))
    as (s1 & Hs1 & Hl1); [lia | lia | lia |].
  unfold sort_Sort. rewrite !(bind_ok _ _ _ _ _ Hs1).
  pose proof (len_eq_of_length _ _ Hl1) as Hlen1.
  rewrite !(bind_ok _ _ _ _ _ (Slice_total s1 (len s - len b2) (len s)
                                 ltac:(lia) ltac:(lia) ltac:(lia))).
  set (rightPart := take _ _).
  assert (Hr : length rightPart = length b2).
  { subst rightPart. rewrite length_take, length_drop. unfold len in *. lia. }
  rewrite !copy_into_same_length by congruence.
  unfold bind. destruct (buffered_loop _ _ _ _ _ _); reflexivity.
Qed.

Lemma buffer_contents_irrelevant_witness :
  slice_outcome (AppendedWithBuf Z.ltb [7; 7] [1; 4; 9; 5; 2]) =
  slice_outcome (AppendedWithBuf Z.ltb [0; 3] [1; 4; 9; 5; 2]).
Proof.
  apply (buffer_contents_irrelevant Z.ltb [1; 4; 9; 5; 2] [7; 7] [0; 3]).
  reflexivity.
Defined.

(** ** Correctness of the in-place and of the buffered engine *)

Section Correctness.
Context {E : Type} (ltb : E -> E -> bool).
Hypothesis Hord : strict_total_order ltb.
Implicit Types (a b u x y : E) (s P U T R G : list E).

Local Abbreviation le := (leb_of ltb).
Local Abbreviation gtb := (fun x y => ltb y x).

Lemma sorted_lookup_le P (i j : nat) a b :
  sorted ltb P -> P !! i = Some a -> P !! j = Some b -> (i <= j)%nat ->
  le a b.
Proof.
  unfold sorted. intros Hs. revert i j.
  induction Hs as [| x l Hl IH Hx]; intros i j Hi Hj Hij.
  - discriminate.
  - destruct i as [| i], j as [| j]; simpl in *; try lia.
    + injection Hi as <-. injection Hj as <-. now apply le_refl.
    + injection Hi as <-. rewrite Forall_forall in Hx.
      apply Hx. eapply list_elem_of_lookup_2; eassumption.
    + eapply IH; [eassumption | eassumption | lia].
Qed.

Lemma sorted_app_inv A B :
  sorted ltb (A ++ B) ->
  sorted ltb A /\ sorted ltb B /\ (forall x y, x ∈ A -> y ∈ B -> le x y).
Proof.
  unfold sorted. rewrite StronglySorted_app. tauto.
Qed.

Lemma sorted_app A B :
  sorted ltb A -> sorted ltb B -> (forall x y, x ∈ A -> y ∈ B -> le x y) ->
  sorted ltb (A ++ B).
Proof.
  unfold sorted. rewrite StronglySorted_app. tauto.
Qed.

Lemma sorted_cons x A :
  sorted ltb (x :: A) <-> (forall y, y ∈ A -> le x y) /\ sorted ltb A.
Proof.
  unfold sorted. now rewrite StronglySorted_cons, Forall_forall.
Qed.

Lemma sorted_nil : sorted ltb [].
Proof. constructor. Qed.

(** A descending slice, reversed, is ascending. *)
Lemma sorted_reverse U : sorted gtb U -> sorted ltb (reverse U).
Proof.
  unfold sorted. induction 1 as [| x l Hl IH Hx].
  - constructor.
  - rewrite reverse_cons. apply StronglySorted_app_2; [| assumption |].
    + intros a b Ha Hb. apply list_elem_of_singleton in Hb as ->.
      rewrite Forall_forall in Hx. rewrite elem_of_reverse in Ha.
      exact (Hx a Ha).
    + repeat constructor.
Qed.

Lemma less_at_candidate P u R (h : Z) p :
  0 <= h -> P !! Z.to_nat h = Some p ->
  less_at ltb (P ++ u :: R) (len P) h = ltb u p.
Proof.
  intros Hh Hp. unfold less_at.
  rewrite lookupZ_middle by reflexivity.
  assert (Hlt : h < len P).
  { apply lookup_lt_Some in Hp. unfold len. lia. }
  rewrite lookupZ_app_l by lia.
  unfold lookupZ. destruct (Z.ltb_spec h 0); [lia |]. now rewrite Hp.
Qed.

(** On a sorted prefix the search splits the prefix into the elements that
    are not after the candidate and those that are after it. *)
Lemma search_sorted_split P u R :
  sorted ltb P ->
  exists P1 P2,
    P = P1 ++ P2 /\
    sort_Search (len P) (fun i => Less ltb (len P) i) (P ++ u :: R)
    = Ok (len P1) (P ++ u :: R) /\
    Forall (fun p => ltb u p = false) P1 /\
    Forall (fun p => ltb u p = true) P2.
Proof.
  intros Hs. pose proof (len_nonneg P) as HP0.
  destruct (Search_Less_total ltb (P ++ u :: R) (len P) (len P))
    as (r & Hr & Hrange & Hlo & Hhi).
  { lia. }
  { rewrite len_app, len_cons. pose proof (len_nonneg R). lia. }
  exists (take (Z.to_nat r) P), (drop (Z.to_nat r) P).
  assert (Hlen1 : len (take (Z.to_nat r) P) = r).
  { unfold len in *. rewrite length_take. lia. }
  split; [now rewrite take_drop |]. split; [now rewrite Hlen1 |]. split.
  - apply Forall_lookup_2. intros i x [Hx Hi]%lookup_take_Some.
    destruct Hlo as [-> | Hlo]; [lia |].
    destruct (lookup_lt_is_Some_2 P (Z.to_nat (r - 1))) as [q Hq].
    { unfold len in *. lia. }
    rewrite (less_at_candidate P u R (r - 1) q) in Hlo by (lia || assumption).
    destruct (ltb u x) eqn:Hux; [| reflexivity].
    assert (Hxq : le x q).
    { eapply sorted_lookup_le; [exact Hs | exact Hx | exact Hq | lia]. }
    pose proof (lt_le_trans ltb Hord _ _ _ Hux Hxq). congruence.
  - apply Forall_lookup_2. intros i x Hx. rewrite lookup_drop in Hx.
    pose proof (lookup_lt_Some _ _ _ Hx) as Hlt.
    destruct Hhi as [-> | Hhi]; [unfold len in *; lia |].
    destruct (lookup_lt_is_Some_2 P (Z.to_nat r)) as [q Hq]; [lia |].
    rewrite (less_at_candidate P u R r q) in Hhi by (lia || assumption).
    eapply lt_le_trans; [exact Hord | exact Hhi |].
    eapply sorted_lookup_le; [exact Hs | exact Hq | exact Hx | lia].
Qed.

End Correctness.

Section RotateCases.
Context {E : Type}.
Implicit Types (a b : E) (W A B : list E).

Lemma rotate_left_1 a W : rotate (-1) (a :: W) = W ++ [a].
Proof.
  apply (rotate_app (-1) [a] W).
  pose proof (len_nonneg W). rewrite len_cons, len_nil.
  replace (-1 - len W) with ((-1) * (0 + 1 + len W)) by lia.
  apply Z.mod_mul. lia.
Qed.

Lemma rotate_left_2 a b W : rotate (-2) (a :: b :: W) = W ++ [a; b].
Proof.
  apply (rotate_app (-2) [a; b] W).
  pose proof (len_nonneg W). rewrite !len_cons, len_nil.
  replace (-2 - len W) with ((-1) * (0 + 1 + 1 + len W)) by lia.
  apply Z.mod_mul. lia.
Qed.

Lemma rotate_right_block A B : rotate (len B) (A ++ B) = B ++ A.
Proof.
  apply rotate_app. rewrite Z.sub_diag. apply Zmod_0_l.
Qed.

End RotateCases.

Section InPlaceCorrect.
Context {E : Type} (ltb : E -> E -> bool).
Hypothesis Hord : strict_total_order ltb.
Implicit Types (a b u x y : E) (s P U T R G : list E).

Local Abbreviation le := (leb_of ltb).
Local Abbreviation gtb := (fun x y => ltb y x).

(** The invariant of the loop: the slice is a sorted prefix [P], the block
    [U] of the tail elements still to place, in descending order, and the
    settled elements [T], which are sorted and after everything else. *)
Lemma inplace_loop_correct (c : nat) :
  forall P U T,
    length U = c -> sorted ltb P -> sorted gtb U -> sorted ltb T ->
    (forall x y, x ∈ P ++ U -> y ∈ T -> le x y) ->
    exists s',
      inplace_loop ltb c (len P) (len P + Z.of_nat c) (P ++ U ++ T)
      = Ok tt s' /\ sorted ltb s' /\ s' ≡ₚ P ++ U ++ T.
Proof.
  induction c as [| c IH]; intros P U T HU HP HUs HT Hle.
  { destruct U; [| discriminate]. exists (P ++ T).
    split; [reflexivity |]. split; [| reflexivity].
    apply sorted_app; auto. intros x y Hx Hy. apply Hle; [| exact Hy].
    now rewrite app_nil_r. }
  destruct U as [| u U']; [discriminate |]. injection HU as HU.
  assert (HU'u : forall y, y ∈ U' -> le y u).
  { apply sorted_cons in HUs as [HUu _]. exact HUu. }
  assert (HU's : sorted gtb U').
  { now apply sorted_cons in HUs as [_ HUs]. }
  assert (HuT : forall y, y ∈ T -> le u y).
  { intros y Hy. apply Hle; [| exact Hy]. rewrite elem_of_app, elem_of_cons.
    auto. }
  cbn [inplace_loop]. unfold slices_Rotate, slices_Reverse.
  destruct (search_sorted_split ltb Hord P u (U' ++ T) HP)
    as (P1 & P2 & -> & Hsearch & HP1 & HP2).
  change ((P1 ++ P2) ++ (u :: U') ++ T) with ((P1 ++ P2) ++ u :: U' ++ T).
  rewrite (bind_ok _ _ _ _ _ Hsearch).
  rewrite Forall_forall in HP1, HP2.
  apply sorted_app_inv in HP as (HP1s & HP2s & HP12).
  pose proof (len_nonneg P1) as HP1len.
  assert (Hcnt : Z.of_nat (S c) = len U' + 1) by (unfold len; lia).
  destruct P2 as [| x P2'].
  - (* the candidate is not before any element of the prefix *)
    rewrite app_nil_r in *. rewrite Z.eqb_refl.
    destruct (Z.eqb_spec (len P1) 0) as [Hz | Hnz].
    + assert (P1 = []) as ->
        by (apply length_zero_iff_nil; unfold len in Hz; lia).
      change ([] ++ u :: U' ++ T) with ([] ++ (u :: U') ++ T).
      rewrite (Window_modify_app [] (u :: U') T 0 _ reverse)
        by (rewrite ?len_cons, ?len_nil; lia).
      eexists. split; [reflexivity |]. simpl. split.
      * apply sorted_app; [now apply sorted_reverse | assumption |].
        intros a b Ha Hb. rewrite elem_of_reverse in Ha.
        apply Hle; [exact Ha | exact Hb].
      * now rewrite reverse_Permutation.
    + destruct (Z.ltb_spec 0 (len P1)) as [_ | Hbad]; [| lia].
      destruct (lookup_lt_is_Some_2 P1 (Z.to_nat (len P1 - 1))) as [q Hq].
      { unfold len in *. lia. }
      rewrite (bind_ok _ _ _ _ _
                 (Less_eq ltb (P1 ++ u :: U' ++ T) (len P1) (len P1 - 1) u q
                    ltac:(now apply lookupZ_middle)
                    ltac:(rewrite lookupZ_app_l by lia; unfold lookupZ;
                          destruct (Z.ltb_spec (len P1 - 1) 0); [lia |];
                          exact Hq))).
      rewrite (HP1 q) by (eapply list_elem_of_lookup_2; exact Hq).
      replace (len P1 - 1 + 1) with (len P1) by lia.
      change (P1 ++ u :: U' ++ T) with (P1 ++ (u :: U') ++ T).
      erewrite bind_ok
        by (apply Window_modify_app; [reflexivity | rewrite len_cons; lia]).
      rewrite rotate_left_1, <- app_assoc. simpl.
      replace (len P1 + Z.of_nat (S c) - 1) with (len P1 + Z.of_nat c) by lia.
      destruct (IH P1 U' (u :: T)) as (s' & Hs' & Hsorted & Hperm); auto.
      { apply sorted_cons. auto. }
      { intros a b Ha Hb. apply elem_of_cons in Hb as [-> | Hb].
        - apply elem_of_app in Ha as [Ha | Ha]; [exact (HP1 a Ha) | auto].
        - apply Hle; [| exact Hb]. rewrite elem_of_app, elem_of_cons in *.
          tauto. }
      exists s'. split; [exact Hs' |]. split; [exact Hsorted |].
      rewrite Hperm. apply Permutation_app_head.
      now rewrite <- Permutation_middle, Permutation_middle.
  - (* the candidate goes before [x], the first element after it *)
    assert (Hne : len P1 <> len (P1 ++ x :: P2')).
    { rewrite len_app, len_cons. pose proof (len_nonneg P2'). lia. }
    destruct (Z.eqb_spec (len P1) (len (P1 ++ x :: P2'))) as [Heq | _];
      [contradiction |].
    assert (Hux : ltb u x = true) by (apply HP2; left).
    (* first rotation: the block moves next to [x] *)
    replace ((P1 ++ x :: P2') ++ u :: U' ++ T)
      with ((P1 ++ [x]) ++ (P2' ++ u :: U') ++ T)
      by (now rewrite <- !app_assoc).
    erewrite bind_ok
      by (apply Window_modify_app;
          [rewrite !len_app, !len_cons, len_nil; lia
          | rewrite !len_app, !len_cons; lia]).
    replace (len (P1 ++ x :: P2') + Z.of_nat (S c) - len (P1 ++ x :: P2'))
      with (len (u :: U')) by (rewrite len_cons; lia).
    rewrite rotate_right_block.
    replace ((P1 ++ [x]) ++ ((u :: U') ++ P2') ++ T)
      with (P1 ++ x :: u :: (U' ++ P2' ++ T))
      by (now rewrite <- !app_assoc).
    rewrite (bind_ok _ _ _ _ _ (Swap_adjacent P1 _ x u _ eq_refl)).
    replace (P1 ++ u :: x :: U' ++ P2' ++ T)
      with (P1 ++ (u :: x :: U') ++ (P2' ++ T)) by reflexivity.
    erewrite bind_ok
      by (apply Window_modify_app; [reflexivity | rewrite !len_cons; lia]).
    rewrite rotate_left_2, <- app_assoc. simpl.
    replace (len P1 + Z.of_nat (S c) - 1) with (len P1 + Z.of_nat c) by lia.
    destruct (IH P1 U' (u :: x :: P2' ++ T)) as (s' & Hs' & Hsorted & Hperm);
      auto.
    { (* the settled part stays sorted *)
      apply sorted_cons. split.
      - intros y Hy. apply elem_of_cons in Hy as [-> | Hy];
          [now apply lt_le |].
        apply elem_of_app in Hy as [Hy | Hy]; [| auto].
        apply lt_le; [exact Hord |]. apply HP2. now right.
      - change (x :: P2' ++ T) with ((x :: P2') ++ T).
        apply sorted_app; auto. intros a b Ha Hb. apply Hle; [| exact Hb].
        rewrite !elem_of_app. auto. }
    { (* everything left of it is not after it *)
      intros a b Ha Hb.
      assert (Hau : le a u).
      { apply elem_of_app in Ha as [Ha | Ha]; [exact (HP1 a Ha) | auto]. }
      apply elem_of_cons in Hb as [-> | Hb]; [exact Hau |].
      change (x :: P2' ++ T) with ((x :: P2') ++ T) in Hb.
      apply elem_of_app in Hb as [Hb | Hb].
      - apply lt_le; [exact Hord |].
        eapply le_lt_trans; [exact Hord | exact Hau | exact (HP2 b Hb)].
      - apply Hle; [| exact Hb].
        apply elem_of_app in Ha as [Ha | Ha].
        + rewrite !elem_of_app. auto.
        + rewrite elem_of_app, elem_of_cons. auto. }
    exists s'. split; [exact Hs' |]. split; [exact Hsorted |].
    rewrite Hperm, <- !app_assoc. apply Permutation_app_head.
    simpl. rewrite <- !Permutation_middle.
    rewrite Permutation_swap. do 2 apply perm_skip.
    rewrite !app_assoc. apply Permutation_app_tail, Permutation_app_comm.
Qed.

End InPlaceCorrect.

Section BufferedCorrect.
Context {E : Type} (ltb : E -> E -> bool).
Hypothesis Hord : strict_total_order ltb.
Implicit Types (a b u x y : E) (s P U T R G M A C Q buf : list E).

Local Abbreviation le := (leb_of ltb).

Lemma LoadFrom_eq buf s (i : Z) x :
  lookupZ buf i = Some x -> LoadFrom buf i s = Ok x s.
Proof. unfold LoadFrom. now intros ->. Qed.

(** [copy(s[from+d : hi], s[from:])] moves the block that starts at [from]
    by [d] positions toward the end; the first [d] positions of the block
    keep what they held. *)
Lemma CopyWithin_block A M C (to hi from d : Z) :
  from = len A -> to = from + d -> hi = from + len M -> 0 <= d <= len M ->
  CopyWithin to hi from (A ++ M ++ C)
  = Ok tt (A ++ take (Z.to_nat d) M ++ take (Z.to_nat (len M - d)) M ++ C).
Proof.
  intros -> -> -> Hd. unfold CopyWithin.
  pose proof (len_nonneg A) as HA. pose proof (len_nonneg C) as HC.
  assert (Hlen : len (A ++ M ++ C) = len A + len M + len C)
    by (rewrite !len_app; lia).
  rewrite (bind_ok _ _ _ _ _
             (Slice_total (A ++ M ++ C) (len A + d) (len A + len M)
                ltac:(lia) ltac:(lia) ltac:(lia))).
  rewrite (bind_ok _ _ _ _ _
             (Slice_total (A ++ M ++ C) (len A) (len (A ++ M ++ C))
                ltac:(lia) ltac:(lia) ltac:(lia))).
  assert (Hsrc : take (Z.to_nat (len (A ++ M ++ C) - len A))
                   (drop (Z.to_nat (len A)) (A ++ M ++ C)) = M ++ C).
  { rewrite len_to_nat, drop_app_length. apply take_ge.
    rewrite length_app. unfold len in *. lia. }
  rewrite Hsrc.
  assert (Hs : A ++ M ++ C
               = (A ++ take (Z.to_nat d) M) ++ drop (Z.to_nat d) M ++ C).
  { now rewrite <- app_assoc, (app_assoc (take _ M)), take_drop. }
  rewrite Hs, Window_modify_app.
  - f_equal. rewrite <- !app_assoc. do 2 f_equal.
    unfold copy_into. rewrite length_drop.
    rewrite (drop_ge (drop _ M)) by (rewrite length_drop, length_app; lia).
    rewrite app_nil_r, take_app_le by (unfold len in *; lia).
    unfold len in *.
    now replace (Z.to_nat (Z.of_nat (length M) - d))
      with (length M - Z.to_nat d)%nat by lia.
  - rewrite len_app. unfold len in *. rewrite length_take. lia.
  - unfold len in *. rewrite length_drop. lia.
Qed.

Lemma snoc_of_length Q (n : nat) :
  length Q = S n -> exists Q' q, Q = Q' ++ [q] /\ length Q' = n.
Proof.
  intros HQ. destruct Q as [| q0 Q0] using rev_ind; [discriminate |].
  exists Q0, q0. split; [reflexivity |].
  rewrite length_app in HQ. simpl in HQ. lia.
Qed.

(** The invariant of the loop: a sorted prefix [P], a gap [G] of as many
    positions as there are buffered values left, and the settled elements
    [T]; the values left are the first [c] of the sorted buffer. *)
Lemma buffered_loop_correct buf (c : nat) :
  forall P G T,
    length G = c -> (c <= length buf)%nat ->
    sorted ltb buf -> sorted ltb P -> sorted ltb T ->
    (forall x y, x ∈ P ++ take c buf -> y ∈ T -> le x y) ->
    exists s',
      buffered_loop ltb buf c (len P) (len P + Z.of_nat c) (P ++ G ++ T)
      = Ok tt s' /\ sorted ltb s' /\ s' ≡ₚ P ++ take c buf ++ T.
Proof.
  induction c as [| c IH]; intros P G T HG Hc Hbuf HP HT Hle.
  { destruct G; [| discriminate]. exists (P ++ T).
    split; [reflexivity |]. split; [| reflexivity].
    apply sorted_app; auto. intros x y Hx Hy. apply Hle; [| exact Hy].
    rewrite take_0, app_nil_r. exact Hx. }
  destruct G as [| g G']; [discriminate |]. injection HG as HG.
  destruct (lookup_lt_is_Some_2 buf c) as [x Hx]; [lia |].
  assert (Hload : forall s, LoadFrom buf (Z.of_nat (S c) - 1) s = Ok x s).
  { intros s. apply LoadFrom_eq. unfold lookupZ.
    destruct (Z.ltb_spec (Z.of_nat (S c) - 1) 0); [lia |].
    now replace (Z.to_nat (Z.of_nat (S c) - 1)) with c by lia. }
  assert (Htake : take (S c) buf = take c buf ++ [x]) by now apply take_S_r.
  assert (HxT : forall y, y ∈ T -> le x y).
  { intros y Hy. apply Hle; [| exact Hy].
    rewrite Htake, !elem_of_app, list_elem_of_singleton. auto. }
  assert (Hbx : forall a, a ∈ take c buf -> le a x).
  { intros a (i & Ha & Hi)%elem_of_take.
    eapply sorted_lookup_le; [exact Hord | exact Hbuf | exact Ha | exact Hx | lia]. }
  cbn [buffered_loop].
  rewrite (bind_ok _ _ _ _ _ (Hload _)).
  change (P ++ (g :: G') ++ T) with (P ++ g :: G' ++ T).
  rewrite (bind_ok _ _ _ _ _ (Store_middle P _ x g _ eq_refl)).
  destruct (search_sorted_split ltb Hord P x (G' ++ T) HP)
    as (P1 & P2 & -> & Hsearch & HP1 & HP2).
  rewrite (bind_ok _ _ _ _ _ Hsearch).
  rewrite Forall_forall in HP1, HP2.
  apply sorted_app_inv in HP as (HP1s & HP2s & HP12).
  pose proof (len_nonneg P1) as HP1len. pose proof (len_nonneg P2) as HP2len.
  (* the block P2 moves to the right by the number of values left *)
  replace ((P1 ++ P2) ++ x :: G' ++ T) with (P1 ++ (P2 ++ x :: G') ++ T)
    by (now rewrite <- !app_assoc).
  erewrite bind_ok.
  2:{ apply (CopyWithin_block P1 (P2 ++ x :: G') T _ _ _ (Z.of_nat (S c)));
      rewrite ?len_app, ?len_cons; unfold len in *; lia. }
  replace (Z.to_nat (len (P2 ++ x :: G') - Z.of_nat (S c))) with (length P2)
    by (rewrite len_app, len_cons; unfold len; lia).
  rewrite (take_app_length P2).
  destruct (snoc_of_length (take (Z.to_nat (Z.of_nat (S c))) (P2 ++ x :: G')) c)
    as (Q' & q & -> & HQ').
  { rewrite length_take, length_app. simpl. lia. }
  rewrite (bind_ok _ _ _ _ _ (Hload _)).
  replace (P1 ++ (Q' ++ [q]) ++ P2 ++ T) with ((P1 ++ Q') ++ q :: P2 ++ T)
    by (now rewrite <- !app_assoc).
  erewrite bind_ok
    by (apply Store_middle; rewrite len_app; unfold len; lia).
  rewrite <- app_assoc.
  replace (len P1 + Z.of_nat (S c) - 1) with (len P1 + Z.of_nat c) by lia.
  destruct (IH P1 Q' (x :: P2 ++ T)) as (s' & Hs' & Hsorted & Hperm);
    auto; [lia | | |].
  { apply sorted_cons. split.
    - intros y [Hy | Hy]%elem_of_app; [| auto].
      apply lt_le; [exact Hord | exact (HP2 y Hy)].
    - apply sorted_app; auto. intros a b Ha Hb. apply Hle; [| exact Hb].
      rewrite !elem_of_app. auto. }
  { intros a b Ha Hb.
    assert (Hax : le a x).
    { apply elem_of_app in Ha as [Ha | Ha]; [exact (HP1 a Ha) | auto]. }
    apply elem_of_cons in Hb as [-> | Hb]; [exact Hax |].
    apply elem_of_app in Hb as [Hb | Hb].
    - apply lt_le; [exact Hord |].
      eapply le_lt_trans; [exact Hord | exact Hax | exact (HP2 b Hb)].
    - apply Hle; [| exact Hb]. rewrite Htake, !elem_of_app in *. tauto. }
  exists s'. split; [exact Hs' |]. split; [exact Hsorted |].
  rewrite Hperm, Htake, <- !app_assoc. apply Permutation_app_head.
  simpl. rewrite <- !Permutation_middle. apply perm_skip.
  rewrite !app_assoc. apply Permutation_app_tail, Permutation_app_comm.
Qed.

End BufferedCorrect.

Section EngineCorrect.
Context {E : Type} (ltb : E -> E -> bool).
Hypothesis Hord : strict_total_order ltb.
Implicit Types (s P R buf : list E) (k : Z).

Lemma prefix_split s k :
  0 <= k <= len s ->
  exists P R, s = P ++ R /\ len P = len s - k /\ len R = k /\
              P = take (Z.to_nat (len s - k)) s.
Proof.
  intros Hk.
  exists (take (Z.to_nat (len s - k)) s), (drop (Z.to_nat (len s - k)) s).
  rewrite take_drop. unfold len in *. rewrite length_take, length_drop.
  repeat split; lia.
Qed.

Lemma sort_Sort_eq (less : E -> E -> bool) s :
  sort_Sort less s = Ok tt (sort_list less s).
Proof. reflexivity. Qed.

(** Under its precondition the in-place engine leaves the sorted
    arrangement of the slice. *)
Lemma groupInsertAppendSort_correct s k :
  0 < k <= len s -> len s < 2 ^ 63 -> prefix_sorted ltb k s ->
  groupInsertAppendSort ltb k s = Ok tt (sort_list ltb s).
Proof.
  intros Hk Hs Hpre. unfold groupInsertAppendSort.
  rewrite to_int_small by lia.
  destruct (Z.gtb_spec k (len s)) as [Hbad | _]; [lia |].
  rewrite wrap_small by (unfold uint_size; lia).
  destruct (Z.eqb_spec (len s - k) 0) as [H0 | Hsplit]; [reflexivity |].
  destruct (prefix_split s k) as (P & R & Heq & HP & HR & HPtake); [lia |].
  unfold prefix_sorted in Hpre. rewrite <- HPtake in Hpre.
  rewrite <- HP. unfold sort_Slice.
  assert (Hs0 : s = P ++ R ++ []) by now rewrite app_nil_r.
  rewrite Hs0 at 2 3.
  erewrite bind_ok
    by (apply Window_modify_app; [reflexivity | rewrite HP; lia]).
  destruct (inplace_loop_correct ltb Hord (Z.to_nat k) P
              (sort_list (fun x y => ltb y x) R) [])
    as (s' & Hs' & Hsorted & Hperm).
  - rewrite sort_list_length. unfold len in HR. lia.
  - exact Hpre.
  - apply sort_list_sorted, flip_order, Hord.
  - constructor.
  - intros x y _ Hy. now apply elem_of_nil in Hy.
  - replace (len s) with (len P + Z.of_nat (Z.to_nat k)) by lia.
    rewrite Hs'. f_equal. symmetry. apply sort_list_unique; auto.
    rewrite Hperm. apply Permutation_app_head.
    rewrite !app_nil_r. apply sort_list_perm.
Qed.

(** So does the buffered engine, whatever the buffer held. *)
Lemma groupInsertAppendSortWithBuf_correct s buf :
  0 < len buf <= len s -> prefix_sorted ltb (len buf) s ->
  exists buf',
    groupInsertAppendSortWithBuf ltb buf s = Ok buf' (sort_list ltb s).
Proof.
  intros Hk Hpre. unfold groupInsertAppendSortWithBuf.
  destruct (Z.gtb_spec (len buf) (len s)) as [Hbad | _]; [lia |].
  destruct (Z.eqb_spec (len s - len buf) 0) as [H0 | Hsplit].
  { exists buf. reflexivity. }
  destruct (prefix_split s (len buf)) as (P & R & Heq & HP & HR & HPtake);
    [lia |].
  unfold prefix_sorted in Hpre. rewrite <- HPtake in Hpre.
  rewrite <- HP. unfold sort_Sort.
  assert (Hs0 : s = P ++ R ++ []) by now rewrite app_nil_r.
  remember (len s) as n eqn:Hn. rewrite Hs0.
  erewrite bind_ok
    by (apply Window_modify_app; [reflexivity | rewrite HP; lia]).
  set (B := sort_list ltb R).
  assert (HB : length B = length R) by apply sort_list_length.
  assert (HlenB : len B = len buf) by (unfold len in *; lia).
  assert (Hslice : Slice (len P) n (P ++ B ++ []) = Ok B (P ++ B ++ [])).
  { rewrite Slice_total.
    - destruct (window_split P B [] (len P) n)
        as (_ & -> & _); [reflexivity | lia | reflexivity].
    - unfold len. lia.
    - lia.
    - rewrite !len_app, len_nil. lia. }
  rewrite (bind_ok _ _ _ _ _ Hslice).
  rewrite copy_into_same_length by (unfold len in *; lia).
  destruct (buffered_loop_correct ltb Hord B (Z.to_nat (len buf)) P B [])
    as (s' & Hs' & Hsorted & Hperm).
  - unfold len in *. lia.
  - unfold len in *. lia.
  - apply sort_list_sorted, Hord.
  - exact Hpre.
  - constructor.
  - intros x y _ Hy. now apply elem_of_nil in Hy.
  - replace n with (len P + Z.of_nat (Z.to_nat (len buf))) by lia.
    rewrite (bind_ok _ _ _ _ _ Hs').
    exists B. unfold ret. f_equal. symmetry. apply sort_list_unique; auto.
    rewrite Hperm, take_ge by (unfold len in *; lia).
    apply Permutation_app_head. rewrite !app_nil_r. apply sort_list_perm.
Qed.

Lemma prefix_sorted_0 s : prefix_sorted ltb 0 s -> sorted ltb s.
Proof.
  unfold prefix_sorted. rewrite Z.sub_0_r, len_to_nat, take_ge by lia. trivial.
Qed.

Lemma Appended_correct s k :
  0 <= k <= len s -> len s < 2 ^ 63 -> prefix_sorted ltb k s ->
  Appended ltb k s = Ok tt (sort_list ltb s).
Proof.
  intros Hk Hs Hpre. unfold Appended.
  destruct (Z.eqb_spec k 0) as [-> | Hk0].
  { rewrite sort_list_sorted_id; [reflexivity | exact Hord |].
    now apply prefix_sorted_0. }
  destruct (shouldUseAppended (len s) k); simpl.
  - apply groupInsertAppendSort_correct; [lia | assumption | assumption].
  - destruct (Z.gtb_spec k (len s)); [lia | reflexivity].
Qed.

Lemma AppendedWithBuf_correct s buf :
  len buf <= len s -> prefix_sorted ltb (len buf) s ->
  exists buf', AppendedWithBuf ltb buf s = Ok buf' (sort_list ltb s).
Proof.
  intros Hk Hpre. pose proof (len_nonneg buf) as H0. unfold AppendedWithBuf.
  destruct (Z.eqb_spec (len buf) 0) as [Hz | Hk0].
  { exists buf. rewrite sort_list_sorted_id; [reflexivity | exact Hord |].
    rewrite Hz in Hpre. now apply prefix_sorted_0. }
  destruct (shouldUseAppendedWithBuf (len s) (len buf)); simpl.
  - apply groupInsertAppendSortWithBuf_correct; [lia | assumption].
  - destruct (Z.gtb_spec (len buf) (len s)); [lia |]. exists buf. reflexivity.
Qed.

End EngineCorrect.

(** C1: when the first [n - k] elements of [s] are sorted ascending,
    [Appended s k] and [AppendedWithBuf s buf] with [len buf = k] return
    normally and leave [s] sorted ascending with the same elements, each as
    many times as before. *)
Theorem resort_sorts_and_permutes {E} (ltb : E -> E -> bool)
  (s buf : list E) (k : Z) :
  strict_total_order ltb ->
  0 <= k <= len s -> len s < 2 ^ 63 -> len buf = k ->
  prefix_sorted ltb k s ->
  (exists s', Appended ltb k s = Ok tt s' /\ sorted ltb s' /\ s' ≡ₚ s) /\
  (exists s' buf', AppendedWithBuf ltb buf s = Ok buf' s' /\
                   sorted ltb s' /\ s' ≡ₚ s).
Proof.
  intros Hord Hk Hs Hbuf Hpre. split.
  - exists (sort_list ltb s). split; [now apply Appended_correct |].
    split; [now apply sort_list_sorted | apply sort_list_perm].
  - destruct (AppendedWithBuf_correct ltb Hord s buf) as [buf' Hb];
      [lia | now rewrite Hbuf |].
    exists (sort_list ltb s), buf'. split; [exact Hb |].
    split; [now apply sort_list_sorted | apply sort_list_perm].
Qed.

Lemma resort_sorts_and_permutes_witness :
  (exists s', Appended Z.ltb 2 [-4; -2; 1; 3; 4; 5; 9; 2; -3] = Ok tt s' /\
              sorted Z.ltb s' /\ s' ≡ₚ [-4; -2; 1; 3; 4; 5; 9; 2; -3]) /\
  (exists s' buf',
      AppendedWithBuf Z.ltb [2; -3] [-4; -2; 1; 3; 4; 5; 9; 2; -3]
      = Ok buf' s' /\
      sorted Z.ltb s' /\ s' ≡ₚ [-4; -2; 1; 3; 4; 5; 9; 2; -3]).
Proof.
  apply (resort_sorts_and_permutes Z.ltb
           [-4; -2; 1; 3; 4; 5; 9; 2; -3] [2; -3] 2).
  - exact Z_ltb_order.
  - vm_compute. intuition congruence.
  - reflexivity.
  - reflexivity.
  - unfold prefix_sorted, sorted. simpl.
    repeat (constructor; [| repeat (constructor; try reflexivity)]).
    constructor.
Defined.

(** ** Termination of the heap-merge engine *)

Section Termination.
Context {E : Type} (ltb : E -> E -> bool).
Implicit Types (s : list E) (i j n lo hi : Z).

Lemma bind_not_out {St A B} (m : M St A) (k : A -> M St B) (st : St) :
  m st <> OutOfFuel ->
  (forall a st', m st = Ok a st' -> k a st' <> OutOfFuel) ->
  bind m k st <> OutOfFuel.
Proof.
  unfold bind. intros Hm Hk. destruct (m st) as [a st' | p st' |] eqn:Heq.
  - now apply Hk.
  - discriminate.
  - contradiction.
Qed.

Lemma terminates_bind {St A B} (m : M St A) (k : A -> M St B) :
  terminates m -> (forall a, terminates (k a)) -> terminates (bind m k).
Proof.
  intros Hm Hk st. apply bind_not_out; [apply Hm |].
  intros a st' _. apply Hk.
Qed.

Lemma terminates_ret {St A} (a : A) : terminates (@ret St A a).
Proof. intros st. discriminate. Qed.

Lemma terminates_raise {St A} (p : panic) : terminates (@raise St A p).
Proof. intros st. discriminate. Qed.

Lemma terminates_Load i : terminates (@Load E i).
Proof. intros st. unfold Load. destruct (lookupZ st i); discriminate. Qed.

Lemma terminates_Store i (x : E) : terminates (Store i x).
Proof. intros st. unfold Store. destruct (_ && _); discriminate. Qed.

Lemma terminates_modify (f : list E -> list E) : terminates (modify f).
Proof. intros st. discriminate. Qed.

Lemma terminates_Less i j : terminates (Less ltb i j).
Proof.
  unfold Less. repeat (apply terminates_bind; [apply terminates_Load | intros ?]).
  apply terminates_ret.
Qed.

Lemma terminates_Swap i j : terminates (@Swap E i j).
Proof.
  unfold Swap. repeat (apply terminates_bind; [apply terminates_Load | intros ?]).
  apply terminates_bind; [apply terminates_Store | intros ?].
  apply terminates_Store.
Qed.

Lemma Window_not_out {A} lo hi (m : M (list E) A) s :
  (forall mid, length mid = Z.to_nat (hi - lo) -> m mid <> OutOfFuel) ->
  Window lo hi m s <> OutOfFuel.
Proof.
  intros Hm. unfold Window.
  destruct (in_bounds lo hi s) eqn:Hb; [| discriminate].
  apply in_bounds_spec in Hb.
  destruct (m _) eqn:Heq; try discriminate.
  exfalso. eapply Hm; [| exact Heq].
  rewrite length_take, length_drop. unfold len in Hb. lia.
Qed.

Lemma terminates_Window {A} lo hi (m : M (list E) A) :
  terminates m -> terminates (Window lo hi m).
Proof. intros Hm s. apply Window_not_out. intros mid _. apply Hm. Qed.

Lemma Less_negative i j s : i < 0 -> Less ltb i j s = Panic OutOfRange s.
Proof.
  intros Hi. unfold Less, bind, Load, lookupZ.
  destruct (Z.ltb_spec i 0); [reflexivity | lia].
Qed.

Lemma search_loop_terminates (f : Z -> M (list E) bool) (fuel : nat) :
  (forall h, terminates (f h)) ->
  forall i j, (Z.to_nat (j - i) <= fuel)%nat -> terminates (search_loop fuel f i j).
Proof.
  intros Hf. induction fuel as [| fuel IH]; intros i j Hfuel st; simpl.
  - destruct (Z.ltb_spec i j); [lia | discriminate].
  - destruct (Z.ltb_spec i j) as [Hlt | Hge]; [| discriminate].
    rewrite Z.shiftr_div_pow2 by lia. change (2 ^ 1) with 2.
    apply terminates_bind; [apply Hf |]. intros b.
    destruct b; simpl; apply IH; Z.div_mod_to_equations; lia.
Qed.

Lemma terminates_Search (f : Z -> M (list E) bool) n :
  (forall h, terminates (f h)) -> terminates (sort_Search n f).
Proof.
  intros Hf. apply search_loop_terminates; [assumption | lia].
Qed.

Lemma heap_up_terminates (fuel : nat) :
  forall j, (Z.to_nat j < fuel)%nat -> terminates (heap_up ltb fuel j).
Proof.
  induction fuel as [| fuel IH]; intros j Hfuel st; [lia |]. simpl.
  destruct (Z.eqb_spec (Z.quot (j - 1) 2) j) as [_ | Hne]; [discriminate |].
  destruct (Z.ltb_spec j 0) as [Hneg | Hpos].
  { unfold bind at 1. rewrite Less_negative by assumption. discriminate. }
  assert (Hparent : 0 <= Z.quot (j - 1) 2 < j).
  { destruct (Z.eq_dec j 0) as [-> | Hj]; [now contradict Hne |].
    rewrite Z.quot_div_nonneg by lia. Z.div_mod_to_equations. lia. }
  apply terminates_bind; [apply terminates_Less |]. intros lt.
  destruct lt; simpl; [| apply terminates_ret].
  apply terminates_bind; [apply terminates_Swap |]. intros _.
  apply IH. lia.
Qed.

Lemma heap_down_terminates (fuel : nat) :
  forall i n, (Z.to_nat (n - i) < fuel)%nat -> terminates (heap_down ltb fuel i n).
Proof.
  induction fuel as [| fuel IH]; intros i n Hfuel st; [lia |]. simpl.
  destruct (Z.geb_spec (2 * i + 1) n) as [Hge | Hlt]; [discriminate |].
  destruct (Z.ltb_spec (2 * i + 1) 0) as [Hneg | Hpos]; [discriminate |].
  simpl. apply bind_not_out.
  - destruct (2 * i + 1 + 1 <? n); [| discriminate].
    apply terminates_bind; [apply terminates_Less |]. intros lt.
    apply terminates_ret.
  - intros j st' Hj.
    assert (Hjrange : i < j < n).
    { destruct (Z.ltb_spec (2 * i + 1 + 1) n).
      - unfold bind in Hj.
        destruct (Less _ _ _ _) as [lt st1 | |]; try discriminate.
        injection Hj as <- _. destruct lt; lia.
      - injection Hj as <- _. lia. }
    apply terminates_bind; [apply terminates_Less |]. intros lt.
    destruct lt; simpl; [| apply terminates_ret].
    apply terminates_bind; [apply terminates_Swap |]. intros _.
    apply IH. lia.
Qed.

Lemma terminates_heap_Push base hlen (x : E) :
  terminates (heap_Push ltb base hlen x).
Proof.
  unfold heap_Push.
  apply terminates_bind; [apply terminates_Store | intros _].
  apply terminates_bind; [| intros _; apply terminates_ret].
  apply terminates_Window, heap_up_terminates. lia.
Qed.

Lemma terminates_heap_Pop base hlen : terminates (heap_Pop ltb base hlen).
Proof.
  unfold heap_Pop. apply terminates_Window.
  apply terminates_bind; [apply terminates_Swap | intros _].
  apply terminates_bind; [apply heap_down_terminates; lia | intros _].
  apply terminates_bind; [apply terminates_Load | intros ?].
  apply terminates_ret.
Qed.

End Termination.

Ltac terminates_step :=
  first
    [ apply terminates_ret | apply terminates_raise | apply terminates_Less
    | apply terminates_Load | apply terminates_Store | apply terminates_Swap
    | apply terminates_modify
    | apply terminates_heap_Pop | apply terminates_heap_Push
    | apply terminates_bind; [| intros ?]
    | match goal with
      | |- terminates (if ?b then _ else _) => destruct b
      | |- terminates (match ?p with pair _ _ => _ end) => destruct p
      end ].

Section HeapTermination.
Context {E : Type} (ltb : E -> E -> bool).
Implicit Types (s : list E).

Lemma terminates_heap_loop (iters : nat) :
  forall splitIdx length idx hlen rightIdx hasRight hasHeap,
    terminates (heap_loop ltb iters splitIdx length idx
                  hlen rightIdx hasRight hasHeap).
Proof.
  induction iters as [| iters IH]; intros; cbn [heap_loop].
  - apply terminates_ret.
  - repeat (terminates_step || apply IH).
Qed.

Lemma heapAppendSort_not_out (fuel : nat) :
  forall (k : Z) s, (length s < fuel)%nat ->
                    heapAppendSort ltb fuel k s <> OutOfFuel.
Proof.
  induction fuel as [| fuel IH]; intros k s Hfuel; [lia |].
  cbn [heapAppendSort].
  destruct (k =? 0); [discriminate |].
  destruct (Z.eqb_spec (len s - to_int k) 0) as [_ | Hsplit].
  { unfold bind, sort_Sort, modify, ret. discriminate. }
  unfold bind at 1.
  destruct (Window _ _ _ s) as [[] s1 | p s1 |] eqn:Hw; [| discriminate |].
  2:{ exfalso. revert Hw. apply terminates_Window, terminates_modify. }
  assert (Hsplit0 : 0 < len s - to_int k <= len s).
  { unfold Window in Hw. destruct (in_bounds _ _ s) eqn:Hb; [| discriminate].
    apply in_bounds_spec in Hb. lia. }
  revert s1 Hw. generalize (len s - to_int k) Hsplit0 Hsplit.
  intros splitIdx Hpos _ s1 _.
  apply terminates_bind; [apply terminates_Less | intros lt].
  destruct lt; simpl; [| apply terminates_ret].
  apply terminates_bind.
  { apply terminates_Search. intros h. apply terminates_Less. }
  intros modifyStart. destruct (modifyStart >=? splitIdx);
    [apply terminates_raise |].
  apply terminates_bind; [apply terminates_heap_loop | intros [hlen rightIdx]].
  destruct (hlen =? 0); [apply terminates_ret |].
  apply terminates_bind.
  { destruct (hlen =? 1); [apply terminates_Less | apply terminates_ret]. }
  intros sorted. destruct sorted; [apply terminates_ret |].
  destruct (negb _).
  { apply terminates_bind; [| intros _; apply terminates_ret].
    apply terminates_Window, terminates_modify. }
  apply terminates_bind.
  { apply terminates_Window, terminates_modify. }
  intros _. apply terminates_bind; [| intros log; apply terminates_ret].
  intros st. apply Window_not_out. intros mid Hmid. apply IH.
  unfold len in *. lia.
Qed.

End HeapTermination.

(** C9: [heapAppendSort] terminates on every input, in particular whenever
    [0 <= tailLength <= len s]: the recursive call runs on the window
    [s[splitIdx:]] with [splitIdx > 0], which is strictly shorter than [s],
    so a recursion depth of [len s + 1] is never exhausted, and neither is
    the iteration budget of any loop. *)
Theorem heapAppendSort_terminates {E} (ltb : E -> E -> bool)
  (fuel : nat) (tailLength : Z) (s : list E) :
  0 <= tailLength <= len s -> (length s < fuel)%nat ->
  exists r, heapAppendSort ltb fuel tailLength s = r /\ r <> OutOfFuel.
Proof.
  intros _ Hfuel. eexists. split; [reflexivity |].
  now apply heapAppendSort_not_out.
Qed.

Lemma heapAppendSort_terminates_witness :
  exists r,
    heapAppendSort Z.ltb 11 9 [7; 8; 6; 4; 0; 2; 3; 0; 3; 7] = r /\
    r <> OutOfFuel.
Proof.
  apply (heapAppendSort_terminates Z.ltb 11 9 [7; 8; 6; 4; 0; 2; 3; 0; 3; 7]).
  - vm_compute. intuition congruence.
  - simpl. lia.
Defined.

(** ** The residual decision of the heap-merge engine *)







(** ** The heap inside the slice *)

Section SwapFacts.
Context {E : Type}.
Implicit Types (H X : list E) (i j c : Z).

Lemma lookupZ_insert H i (x : E) c :
  0 <= i < len H ->
  lookupZ (<[Z.to_nat i := x]> H) c = if c =? i then Some x else lookupZ H c.
Proof.
  intros Hi. unfold lookupZ.
  destruct (Z.ltb_spec c 0) as [Hneg | Hpos].
  { destruct (Z.eqb_spec c i); [lia | reflexivity]. }
  destruct (Z.eqb_spec c i) as [-> | Hne].
  - apply list_lookup_insert_eq. unfold len in Hi. lia.
  - apply list_lookup_insert_ne. lia.
Qed.

Lemma len_insert H (n : nat) (x : E) : len (<[n := x]> H) = len H.
Proof. unfold len. now rewrite length_insert. Qed.

Lemma len_swap_at H i j : len (swap_at H i j) = len H.
Proof.
  unfold swap_at. destruct (lookupZ H i), (lookupZ H j); try reflexivity.
  now rewrite !len_insert.
Qed.

Lemma lookupZ_swap_at H i j c :
  0 <= i < len H -> 0 <= j < len H ->
  lookupZ (swap_at H i j) c
  = lookupZ H (if c =? i then j else if c =? j then i else c).
Proof.
  intros Hi Hj. unfold swap_at.
  destruct (lookupZ_in_range H i Hi) as [a Ha].
  destruct (lookupZ_in_range H j Hj) as [b Hb].
  rewrite Ha, Hb.
  rewrite lookupZ_insert by (rewrite len_insert; lia).
  rewrite lookupZ_insert by lia.
  destruct (Z.eqb_spec c j) as [-> | Hcj].
  - destruct (Z.eqb_spec j i) as [-> | _]; congruence.
  - destruct (Z.eqb_spec c i) as [-> | _]; congruence.
Qed.

Lemma lookupZ_nat H (n : nat) : lookupZ H (Z.of_nat n) = H !! n.
Proof.
  unfold lookupZ. destruct (Z.ltb_spec (Z.of_nat n) 0); [lia |].
  now rewrite Nat2Z.id.
Qed.

Lemma swap_at_perm H i j : swap_at H i j ≡ₚ H.
Proof.
  destruct (lookupZ H i) as [a |] eqn:Ha.
  2:{ unfold swap_at. now rewrite Ha. }
  destruct (lookupZ H j) as [b |] eqn:Hb.
  2:{ unfold swap_at. now rewrite Ha, Hb. }
  pose proof (lookupZ_Some _ _ _ Ha) as Hi.
  pose proof (lookupZ_Some _ _ _ Hb) as Hj.
  apply Permutation_inj. split.
  { pose proof (len_swap_at H i j) as Hl. unfold len in Hl. lia. }
  exists (fun n => if decide (n = Z.to_nat i) then Z.to_nat j
                   else if decide (n = Z.to_nat j) then Z.to_nat i else n).
  split.
  - intros n m. repeat case_decide; lia.
  - intros n. rewrite <- !lookupZ_nat, lookupZ_swap_at by assumption.
    f_equal.
    destruct (Z.eqb_spec (Z.of_nat n) i), (Z.eqb_spec (Z.of_nat n) j);
      repeat case_decide; lia.
Qed.

Lemma Swap_swap_at H X i j :
  0 <= i < len H -> 0 <= j < len H ->
  Swap i j (H ++ X) = Ok tt (swap_at H i j ++ X).
Proof.
  intros Hi Hj. unfold Swap, bind, swap_at.
  destruct (lookupZ_in_range H i Hi) as [a Ha].
  destruct (lookupZ_in_range H j Hj) as [b Hb].
  rewrite (Load_eq (H ++ X) j b) by (rewrite lookupZ_app_l; assumption).
  rewrite (Load_eq (H ++ X) i a) by (rewrite lookupZ_app_l; assumption).
  rewrite Ha, Hb.
  rewrite Store_total by (rewrite len_app; pose proof (len_nonneg X); lia).
  rewrite Store_total
    by (rewrite len_insert, len_app; pose proof (len_nonneg X); lia).
  f_equal. unfold len in *.
  rewrite insert_app_l by lia.
  rewrite insert_app_l by (rewrite length_insert; lia). reflexivity.
Qed.

End SwapFacts.

Lemma bind_assoc {St A B C} (m : M St A) (f : A -> M St B) (g : B -> M St C) st :
  bind (bind m f) g st = bind m (fun x => bind (f x) g) st.
Proof. unfold bind. destruct (m st); reflexivity. Qed.

Lemma bind_ret_l {St A B} (a : A) (k : A -> M St B) st :
  bind (ret a) k st = k a st.
Proof. reflexivity. Qed.

Section HeapFacts.
Context {E : Type} (ltb : E -> E -> bool).
Hypothesis Hord : strict_total_order ltb.
Implicit Types (H X : list E) (i j c n : Z).

Local Abbreviation le := (leb_of ltb).

Lemma Less_app_l H X i j a b :
  lookupZ H i = Some a -> lookupZ H j = Some b ->
  Less ltb i j (H ++ X) = Ok (ltb a b) (H ++ X).
Proof.
  intros Ha Hb. apply Less_eq.
  - rewrite lookupZ_app_l; [assumption | eapply lookupZ_Some; eassumption].
  - rewrite lookupZ_app_l; [assumption | eapply lookupZ_Some; eassumption].
Qed.

(** In a heap the root is not after any element. *)
Lemma heap_root_least H h0 :
  heap_ordered ltb H -> lookupZ H 0 = Some h0 ->
  forall c x, 0 <= c -> lookupZ H c = Some x -> le h0 x.
Proof.
  intros Hheap H0 c x Hc. revert x.
  pattern c. apply Zlt_0_ind; [| assumption].
  clear c Hc. intros c IH Hpos x Hx.
  destruct (Z.eq_dec c 0) as [-> | Hne].
  { rewrite H0 in Hx. injection Hx as <-. apply le_refl, Hord. }
  assert (Hp : 0 <= (c - 1) / 2 < c) by (Z.div_mod_to_equations; lia).
  pose proof (lookupZ_Some _ _ _ Hx) as Hrange.
  destruct (lookupZ_in_range H ((c - 1) / 2)) as [y Hy]; [lia |].
  eapply le_trans; [exact Hord | apply (IH ((c - 1) / 2)); [lia | exact Hy] |].
  apply (Hheap c); [lia | exact Hy | exact Hx].
Qed.

End HeapFacts.

Section SwapLookup.
Context {E : Type}.
Implicit Types (H : list E) (i j c : Z).

Lemma lookup_swap_fst H i j :
  0 <= i < len H -> 0 <= j < len H ->
  lookupZ (swap_at H i j) i = lookupZ H j.
Proof.
  intros Hi Hj. rewrite lookupZ_swap_at by assumption.
  now rewrite Z.eqb_refl.
Qed.

Lemma lookup_swap_snd H i j :
  0 <= i < len H -> 0 <= j < len H ->
  lookupZ (swap_at H i j) j = lookupZ H i.
Proof.
  intros Hi Hj. rewrite lookupZ_swap_at by assumption.
  rewrite Z.eqb_refl. destruct (Z.eqb_spec j i) as [-> | _]; reflexivity.
Qed.

Lemma lookup_swap_other H i j c :
  0 <= i < len H -> 0 <= j < len H -> c <> i -> c <> j ->
  lookupZ (swap_at H i j) c = lookupZ H c.
Proof.
  intros Hi Hj Hci Hcj. rewrite lookupZ_swap_at by assumption.
  destruct (Z.eqb_spec c i); [contradiction |].
  destruct (Z.eqb_spec c j); [contradiction | reflexivity].
Qed.

End SwapLookup.

Section HeapUp.
Context {E : Type} (ltb : E -> E -> bool).
Hypothesis Hord : strict_total_order ltb.
Implicit Types (H X : list E) (i j c n : Z).

Local Abbreviation le := (leb_of ltb).

(** [up] restores the heap order when only the element at [j] may be before
    its parent. *)
Lemma heap_up_spec (fuel : nat) :
  forall j H X,
    0 <= j < len H -> (Z.to_nat j < fuel)%nat -> up_inv ltb H j ->
    exists H',
      heap_up ltb fuel j (H ++ X) = Ok tt (H' ++ X) /\
      H' ≡ₚ H /\ heap_ordered ltb H'.
Proof.
  induction fuel as [| fuel IH]; intros j H X Hj Hfuel [Hinv1 Hinv2]; [lia |].
  cbn [heap_up].
  destruct (Z.eq_dec j 0) as [-> | Hj0].
  { exists H. split; [reflexivity |]. split; [reflexivity |].
    intros c Hc. apply Hinv1; lia. }
  rewrite Z.quot_div_nonneg by lia.
  assert (Hi : 0 <= (j - 1) / 2 < j) by (Z.div_mod_to_equations; lia).
  set (i := (j - 1) / 2) in *.
  destruct (Z.eqb_spec i j) as [Heq | _]; [lia |].
  destruct (lookupZ_in_range H j) as [hj Hhj]; [lia |].
  destruct (lookupZ_in_range H i) as [hi Hhi]; [lia |].
  rewrite (bind_ok _ _ _ _ _ (Less_app_l ltb H X j i hj hi Hhj Hhi)).
  destruct (ltb hj hi) eqn:Hlt; simpl.
  2:{ exists H. split; [reflexivity |]. split; [reflexivity |].
      intros c Hc. destruct (Z.eq_dec c j) as [-> | Hne]; [| apply Hinv1; lia].
      intros a b Ha Hb. fold i in Ha. rewrite Hhi in Ha. rewrite Hhj in Hb.
      injection Ha as <-. injection Hb as <-. exact Hlt. }
  assert (Hri : 0 <= i < len H) by lia.
  rewrite (bind_ok _ _ _ _ _ (Swap_swap_at H X i j Hri Hj)).
  destruct (IH i (swap_at H i j) X) as (H' & Hrun & Hperm & Hheap).
  - rewrite len_swap_at. lia.
  - lia.
  - split.
    + intros c Hc Hci a b Ha Hb.
      destruct (Z.eq_dec c j) as [-> | Hcj].
      { fold i in Ha. rewrite lookup_swap_fst in Ha by assumption.
        rewrite lookup_swap_snd in Hb by assumption.
        rewrite Hhj in Ha. rewrite Hhi in Hb.
        injection Ha as <-. injection Hb as <-. now apply lt_le. }
      rewrite lookup_swap_other in Hb by assumption.
      destruct (Z.eq_dec ((c - 1) / 2) i) as [Hpi | Hpi].
      { rewrite Hpi, lookup_swap_fst in Ha by assumption.
        rewrite Hhj in Ha. injection Ha as <-.
        apply lt_le; [exact Hord |].
        eapply lt_le_trans; [exact Hord | exact Hlt |].
        apply (Hinv1 c Hc Hcj); [now rewrite Hpi | exact Hb]. }
      destruct (Z.eq_dec ((c - 1) / 2) j) as [Hpj | Hpj].
      { rewrite Hpj, lookup_swap_snd in Ha by assumption.
        rewrite Hhi in Ha. injection Ha as <-.
        apply (Hinv2 c hi b); [lia | exact Hc | exact Hpj | exact Hhi | exact Hb]. }
      rewrite lookup_swap_other in Ha by assumption.
      exact (Hinv1 c Hc Hcj a b Ha Hb).
    + intros c a b Hi1 Hc Hpc Ha Hb.
      assert (Hgp : 0 <= (i - 1) / 2 < i) by (Z.div_mod_to_equations; lia).
      rewrite lookup_swap_other in Ha by lia.
      assert (Hgi : le a hi).
      { apply (Hinv1 i Hi1 ltac:(lia)); assumption. }
      destruct (Z.eq_dec c j) as [-> | Hcj].
      { rewrite lookup_swap_snd in Hb by assumption.
        rewrite Hhi in Hb. now injection Hb as <-. }
      rewrite lookup_swap_other in Hb
        by (assumption || (Z.div_mod_to_equations; lia)).
      eapply le_trans; [exact Hord | exact Hgi |].
      apply (Hinv1 c Hc Hcj); [now rewrite Hpc | exact Hb].
  - exists H'. split; [exact Hrun |]. split; [| exact Hheap].
    rewrite Hperm. apply swap_at_perm.
Qed.

End HeapUp.

Section HeapDown.
Context {E : Type} (ltb : E -> E -> bool).
Hypothesis Hord : strict_total_order ltb.
Implicit Types (H X : list E) (i j c n : Z).

Local Abbreviation le := (leb_of ltb).

Lemma child_cases i c : 1 <= c -> (c - 1) / 2 = i -> c = 2 * i + 1 \/ c = 2 * i + 2.
Proof. intros Hc Hp. Z.div_mod_to_equations. lia. Qed.

(** [down] restores the heap order when only the element at [i] may be
    after its children. *)
Lemma heap_down_spec (fuel : nat) :
  forall i n H X,
    n = len H -> 0 <= i -> (Z.to_nat (n - i) < fuel)%nat ->
    down_inv ltb H i ->
    exists H',
      heap_down ltb fuel i n (H ++ X) = Ok tt (H' ++ X) /\
      H' ≡ₚ H /\ heap_ordered ltb H'.
Proof.
  induction fuel as [| fuel IH]; intros i n H X Hn Hi Hfuel [Hinv1 Hinv2];
    [lia |].
  cbn [heap_down].
  destruct (Z.geb_spec (2 * i + 1) n) as [Hge | Hlt1]; simpl.
  { exists H. split; [reflexivity |]. split; [reflexivity |].
    intros c Hc. destruct (Z.eq_dec ((c - 1) / 2) i) as [Hp | Hp];
      [| now apply Hinv1].
    intros a b _ Hb. apply lookupZ_Some in Hb.
    destruct (child_cases i c Hc Hp); lia. }
  destruct (Z.ltb_spec (2 * i + 1) 0) as [Hneg | _]; [lia |].
  destruct (lookupZ_in_range H i) as [hi Hhi]; [lia |].
  destruct (lookupZ_in_range H (2 * i + 1)) as [h1 Hh1]; [lia |].
  (* what happens once the lesser child [j] is chosen *)
  assert (Hstep : forall j hj,
             i < j < n -> (j - 1) / 2 = i -> lookupZ H j = Some hj ->
             (forall c b, 1 <= c -> (c - 1) / 2 = i ->
                          lookupZ H c = Some b -> le hj b) ->
             exists H',
               (let! lt := Less ltb j i in
                if negb lt then ret tt
                else Swap i j ;; heap_down ltb fuel j n) (H ++ X)
               = Ok tt (H' ++ X) /\ H' ≡ₚ H /\ heap_ordered ltb H').
  { intros j hj Hj Hpj Hhj Hleast.
    rewrite (bind_ok _ _ _ _ _ (Less_app_l ltb H X j i hj hi Hhj Hhi)).
    destruct (ltb hj hi) eqn:Hlt; simpl.
    2:{ exists H. split; [reflexivity |]. split; [reflexivity |].
        intros c Hc. destruct (Z.eq_dec ((c - 1) / 2) i) as [Hp | Hp];
          [| now apply Hinv1].
        intros a b Ha Hb. rewrite Hp, Hhi in Ha. injection Ha as <-.
        eapply le_trans; [exact Hord | exact Hlt |].
        now apply (Hleast c b). }
    assert (Hri : 0 <= i < len H) by lia.
    assert (Hrj : 0 <= j < len H) by lia.
    rewrite (bind_ok _ _ _ _ _ (Swap_swap_at H X i j Hri Hrj)).
    destruct (IH j n (swap_at H i j) X) as (H' & Hrun & Hperm & Hheap).
    - now rewrite len_swap_at.
    - lia.
    - lia.
    - split.
      + intros c Hc Hpc a b Ha Hb.
        destruct (Z.eq_dec c j) as [-> | Hcj].
        { rewrite Hpj, lookup_swap_fst in Ha by assumption.
          rewrite lookup_swap_snd in Hb by assumption.
          rewrite Hhj in Ha. rewrite Hhi in Hb.
          injection Ha as <-. injection Hb as <-. now apply lt_le. }
        destruct (Z.eq_dec c i) as [-> | Hci].
        { assert (Hgp : 0 <= (i - 1) / 2 < i)
            by (Z.div_mod_to_equations; lia).
          rewrite lookup_swap_other in Ha by lia.
          rewrite lookup_swap_fst in Hb by assumption.
          rewrite Hhj in Hb. injection Hb as <-.
          apply (Hinv2 j a hj); (assumption || lia). }
        rewrite lookup_swap_other in Hb by assumption.
        destruct (Z.eq_dec ((c - 1) / 2) i) as [Hpi | Hpi].
        { rewrite Hpi, lookup_swap_fst in Ha by assumption.
          rewrite Hhj in Ha. injection Ha as <-.
          now apply (Hleast c b). }
        rewrite lookup_swap_other in Ha by assumption.
        exact (Hinv1 c Hc Hpi a b Ha Hb).
      + intros c a b Hj1 Hc Hpc Ha Hb.
        rewrite Hpj, lookup_swap_fst in Ha by assumption.
        rewrite Hhj in Ha. injection Ha as <-.
        assert (Hcj : j < c) by (Z.div_mod_to_equations; lia).
        rewrite lookup_swap_other in Hb by lia.
        apply (Hinv1 c Hc ltac:(lia)); [now rewrite Hpc | exact Hb].
    - exists H'. split; [exact Hrun |]. split; [| exact Hheap].
      rewrite Hperm. apply swap_at_perm. }
  assert (Hp1 : (2 * i + 1 - 1) / 2 = i) by (Z.div_mod_to_equations; lia).
  assert (Hp2 : (2 * i + 1 + 1 - 1) / 2 = i) by (Z.div_mod_to_equations; lia).
  destruct (Z.ltb_spec (2 * i + 1 + 1) n) as [Hlt2 | Hge2].
  - destruct (lookupZ_in_range H (2 * i + 1 + 1)) as [h2 Hh2]; [lia |].
    rewrite bind_assoc.
    rewrite (bind_ok _ _ _ _ _ (Less_app_l ltb H X _ _ h2 h1 Hh2 Hh1)).
    rewrite bind_ret_l.
    destruct (ltb h2 h1) eqn:H21.
    + apply (Hstep (2 * i + 1 + 1) h2); [lia | exact Hp2 | exact Hh2 |].
      intros c b Hc Hp Hb.
      destruct (child_cases i c Hc Hp) as [-> | ->].
      * rewrite Hh1 in Hb. injection Hb as <-. now apply lt_le.
      * replace (2 * i + 2) with (2 * i + 1 + 1) in Hb by lia.
        rewrite Hh2 in Hb. injection Hb as <-. apply le_refl, Hord.
    + apply (Hstep (2 * i + 1) h1); [lia | exact Hp1 | exact Hh1 |].
      intros c b Hc Hp Hb.
      destruct (child_cases i c Hc Hp) as [-> | ->].
      * rewrite Hh1 in Hb. injection Hb as <-. apply le_refl, Hord.
      * replace (2 * i + 2) with (2 * i + 1 + 1) in Hb by lia.
        rewrite Hh2 in Hb. injection Hb as <-. exact H21.
  - rewrite bind_ret_l.
    apply (Hstep (2 * i + 1) h1); [lia | exact Hp1 | exact Hh1 |].
    intros c b Hc Hp Hb.
    destruct (child_cases i c Hc Hp) as [-> | ->].
    * rewrite Hh1 in Hb. injection Hb as <-. apply le_refl, Hord.
    * apply lookupZ_Some in Hb. lia.
Qed.

End HeapDown.

Section HeapPushPop.
Context {E : Type} (ltb : E -> E -> bool).
Hypothesis Hord : strict_total_order ltb.
Implicit Types (H X A C L : list E) (i j c n : Z).

Local Abbreviation le := (leb_of ltb).

Lemma lookupZ_take L n c :
  0 <= n -> c < n -> lookupZ (take (Z.to_nat n) L) c = lookupZ L c.
Proof.
  intros Hn Hc. unfold lookupZ. destruct (Z.ltb_spec c 0); [reflexivity |].
  apply lookup_take_lt. lia.
Qed.

Lemma snoc_lookup L n (x : E) :
  len L = n + 1 -> lookupZ L n = Some x -> L = take (Z.to_nat n) L ++ [x].
Proof.
  intros Hlen Hx. pose proof (lookupZ_Some _ _ _ Hx) as Hn.
  unfold lookupZ in Hx. destruct (Z.ltb_spec n 0); [lia |].
  rewrite <- (take_S_r _ _ _ Hx). symmetry. apply take_ge.
  unfold len in Hlen. lia.
Qed.

Lemma heap_ordered_nil : heap_ordered ltb [].
Proof.
  intros c Hc a b Ha. apply lookupZ_Some in Ha.
  unfold len in Ha. simpl in Ha. lia.
Qed.

(** [heap.Pop] on a non-empty heap [H] held in the slice between [A] and
    [C]: the value is the least element, which stays in the slot the heap
    gives up. *)
Lemma heap_Pop_spec A H C base hlen :
  base = len A -> hlen = len H -> 1 <= hlen -> heap_ordered ltb H ->
  exists h0 H',
    heap_Pop ltb base hlen (A ++ H ++ C)
    = Ok (h0, hlen - 1) (A ++ (H' ++ [h0]) ++ C) /\
    lookupZ H 0 = Some h0 /\ H' ++ [h0] ≡ₚ H /\ heap_ordered ltb H' /\
    len H' = hlen - 1.
Proof.
  intros -> -> Hlen Hheap. unfold heap_Pop.
  destruct (lookupZ_in_range H 0) as [h0 Hh0]; [lia |].
  set (n := len H - 1).
  assert (Hn : 0 <= n < len H) by lia.
  set (H1 := swap_at H 0 n).
  assert (HlenH1 : len H1 = n + 1) by (subst H1; rewrite len_swap_at; lia).
  assert (Hlast : lookupZ H1 n = Some h0).
  { subst H1. rewrite lookup_swap_snd by lia. exact Hh0. }
  set (Hn' := take (Z.to_nat n) H1).
  assert (Hsplit : H1 = Hn' ++ [h0]) by now apply snoc_lookup.
  assert (HlenHn : len Hn' = n).
  { subst Hn'. unfold len in *. rewrite length_take. lia. }
  destruct (heap_down_spec ltb Hord (Z.to_nat (len H) + 1) 0 n Hn' [h0])
    as (H' & Hrun & Hperm & Hheap'); [now rewrite HlenHn | lia | lia | |].
  { split; [| intros; lia].
    intros c Hc Hpc a b Ha Hb.
    pose proof (lookupZ_Some _ _ _ Hb) as Hcn. rewrite HlenHn in Hcn.
    assert (Hp : 0 < (c - 1) / 2 < c) by (Z.div_mod_to_equations; lia).
    subst Hn' H1.
    rewrite lookupZ_take, lookup_swap_other in Ha, Hb by lia.
    exact (Hheap c Hc a b Ha Hb). }
  assert (HlenH' : len H' = n).
  { unfold len in *. rewrite (Permutation_length Hperm). lia. }
  exists h0, H'.
  rewrite Window_app by (reflexivity || lia).
  replace (Swap 0 n ;; _) with
    (fun s => (Swap 0 n ;;
               heap_down ltb (Z.to_nat (len H) + 1) 0 n ;;
               let! x := Load n in ret (x, n)) s) by reflexivity.
  cbv beta.
  rewrite <- (app_nil_r H) at 1.
  rewrite (bind_ok _ _ _ _ _ (Swap_swap_at H [] 0 n ltac:(lia) Hn)).
  rewrite app_nil_r. fold H1. rewrite Hsplit.
  rewrite (bind_ok _ _ _ _ _ Hrun).
  rewrite (bind_ok _ _ _ _ _ (Load_eq (H' ++ [h0]) n h0
                                ltac:(now apply lookupZ_middle))).
  unfold ret. split; [reflexivity |]. split; [exact Hh0 |].
  split; [| split; [exact Hheap' | exact HlenH']].
  rewrite Hperm, <- Hsplit. apply swap_at_perm.
Qed.

(** [heap.Push] into the slot [g] right after the heap. *)
Lemma heap_Push_spec A H C (g x : E) base hlen :
  base = len A -> hlen = len H -> heap_ordered ltb H ->
  exists H',
    heap_Push ltb base hlen x (A ++ H ++ g :: C)
    = Ok (hlen + 1) (A ++ H' ++ C) /\
    H' ≡ₚ x :: H /\ heap_ordered ltb H' /\ len H' = hlen + 1.
Proof.
  intros -> -> Hheap. unfold heap_Push.
  pose proof (len_nonneg H) as HlenH.
  rewrite app_assoc.
  rewrite (bind_ok _ _ _ _ _ (Store_middle (A ++ H) C x g _
                                ltac:(now rewrite len_app))).
  destruct (heap_up_spec ltb Hord (Z.to_nat (len H) + 1) (len H) (H ++ [x]) [])
    as (H' & Hrun & Hperm & Hheap').
  { unfold len. rewrite length_app. simpl. lia. }
  { lia. }
  { split.
    - intros c Hc Hne a b Ha Hb.
      pose proof (lookupZ_Some _ _ _ Hb) as Hcn.
      unfold len in Hcn. rewrite length_app in Hcn. simpl in Hcn.
      assert (Hp : 0 <= (c - 1) / 2 < c) by (Z.div_mod_to_equations; lia).
      rewrite lookupZ_app_l in Ha, Hb by (unfold len in *; lia).
      exact (Hheap c Hc a b Ha Hb).
    - intros c a b Hj Hc Hpc Ha Hb.
      pose proof (lookupZ_Some _ _ _ Hb) as Hcn.
      unfold len in Hcn. rewrite length_app in Hcn. simpl in Hcn.
      unfold len in *. Z.div_mod_to_equations. lia. }
  rewrite !app_nil_r in Hrun.
  replace ((A ++ H) ++ x :: C) with (A ++ (H ++ [x]) ++ C)
    by (now rewrite <- !app_assoc).
  erewrite bind_ok.
  2:{ rewrite Window_app
        by (reflexivity || (unfold len; rewrite length_app; simpl; lia)).
      rewrite Hrun. reflexivity. }
  exists H'. unfold ret. split; [reflexivity |].
  split; [| split; [exact Hheap' |]].
  - rewrite Hperm. symmetry. apply Permutation_cons_append.
  - unfold len in *. rewrite (Permutation_length Hperm), length_app. simpl. lia.
Qed.

End HeapPushPop.

Ltac list_norm := repeat (rewrite <- ?app_assoc; cbn [app]).

Ltac solve_len :=
  unfold len in *;
  repeat first [progress rewrite length_app in * | progress simpl length in *];
  lia.

(** ** Correctness of the heap-merge engine *)

Section HeapLoop.
Context {E : Type} (ltb : E -> E -> bool).
Hypothesis Hord : strict_total_order ltb.
Implicit Types (s D L H Rt A C : list E).

Local Abbreviation le := (leb_of ltb).

Lemma heap_elements_after_root H h0 :
  heap_ordered ltb H -> lookupZ H 0 = Some h0 -> forall y, y ∈ H -> le h0 y.
Proof.
  intros Hheap Hh0 y (n & Hn)%list_elem_of_lookup_1.
  apply (heap_root_least ltb Hord H h0 Hheap Hh0 (Z.of_nat n)); [lia |].
  now rewrite lookupZ_nat.
Qed.

(** The invariant of the main pass: the slice is [D ++ L ++ H ++ Rt] with
    [D] the settled, sorted beginning, not after anything else; [L] the rest
    of the sorted prefix; [H] the heap; [Rt] the sorted remainder of the
    tail, which is never empty when a turn of the loop starts. *)
Lemma heap_loop_correct (iters : nat) :
  forall D L H Rt (splitIdx n idx hlen rightIdx : Z) (hasHeap : bool),
    List.length L = iters -> Rt <> [] ->
    splitIdx = len D + len L -> n = len (D ++ L ++ H ++ Rt) ->
    idx = len D -> hlen = len H -> rightIdx = splitIdx + len H ->
    hasHeap = (0 <? len H) ->
    sorted ltb D -> sorted ltb L -> sorted ltb Rt -> heap_ordered ltb H ->
    (forall x y, x ∈ D -> y ∈ L ++ H ++ Rt -> le x y) ->
    exists D' H' Rt',
      heap_loop ltb iters splitIdx n idx hlen rightIdx true hasHeap
        (D ++ L ++ H ++ Rt)
      = Ok (len H', splitIdx + len H') (D' ++ H' ++ Rt') /\
      len D' = splitIdx /\ sorted ltb D' /\ sorted ltb Rt' /\ Rt' <> [] /\
      (forall x y, x ∈ D' -> y ∈ H' ++ Rt' -> le x y) /\
      D' ++ H' ++ Rt' ≡ₚ D ++ L ++ H ++ Rt.
Proof.
  induction iters as [| iters IH];
    intros D L H Rt splitIdx n idx hlen rightIdx hasHeap
      HL HRt Hsplit Hlength -> -> -> -> HD HLs HRs Hheap Hle.
  { destruct L; [| discriminate]. exists D, H, Rt. cbn [heap_loop]. unfold ret.
    simpl in *. repeat split; auto. solve_len. }
  destruct L as [| l0 L']; [discriminate |]. injection HL as HL.
  destruct Rt as [| r0 Rt0]; [contradiction |].
  cbn [heap_loop]. cbn [negb andb].
  set (s := D ++ (l0 :: L') ++ H ++ r0 :: Rt0).
  assert (Hidx : lookupZ s (len D) = Some l0).
  { subst s. now apply lookupZ_middle. }
  assert (Hright : lookupZ s (splitIdx + len H) = Some r0).
  { subst s. rewrite !app_assoc. apply lookupZ_middle. solve_len. }
  assert (Hl0L : forall y, y ∈ L' -> le l0 y).
  { now apply sorted_cons in HLs as [HLs _]. }
  assert (HL's : sorted ltb L').
  { now apply sorted_cons in HLs as [_ HLs]. }
  assert (Hr0R : forall y, y ∈ Rt0 -> le r0 y).
  { now apply sorted_cons in HRs as [HRs _]. }
  assert (HR0s : sorted ltb Rt0).
  { now apply sorted_cons in HRs as [_ HRs]. }
  (* calling the next turn of the loop, with [d] settled at [idx] *)
  assert (Hadv : forall d H2 Rt2 hlen rightIdx hasRight hasHeap,
             hlen = len H2 -> rightIdx = splitIdx + len H2 ->
             hasRight = true -> hasHeap = (0 <? len H2) ->
             Rt2 <> [] -> sorted ltb Rt2 -> heap_ordered ltb H2 ->
             d :: L' ++ H2 ++ Rt2 ≡ₚ (l0 :: L') ++ H ++ r0 :: Rt0 ->
             (forall y, y ∈ (l0 :: L') ++ H ++ r0 :: Rt0 -> le d y) ->
             exists D' H' Rt',
               heap_loop ltb iters splitIdx n (len D + 1) hlen
                 rightIdx hasRight hasHeap
                 (D ++ d :: L' ++ H2 ++ Rt2)
               = Ok (len H', splitIdx + len H') (D' ++ H' ++ Rt') /\
               len D' = splitIdx /\ sorted ltb D' /\ sorted ltb Rt' /\
               Rt' <> [] /\
               (forall x y, x ∈ D' -> y ∈ H' ++ Rt' -> le x y) /\
               D' ++ H' ++ Rt' ≡ₚ D ++ (l0 :: L') ++ H ++ r0 :: Rt0).
  { intros d H2 Rt2 ? ? ? ? -> -> -> -> HRt2 HRt2s Hheap2 Hperm Hleast.
    assert (Hin : forall y, y ∈ L' ++ H2 ++ Rt2 ->
                            y ∈ (l0 :: L') ++ H ++ r0 :: Rt0).
    { intros y Hy. rewrite <- Hperm. now right. }
    assert (Hd : d ∈ (l0 :: L') ++ H ++ r0 :: Rt0).
    { rewrite <- Hperm. now left. }
    assert (Hn' : n = len ((D ++ [d]) ++ L' ++ H2 ++ Rt2)).
    { rewrite Hlength. unfold len.
      rewrite <- app_assoc. cbn [app].
      change (D ++ d :: L' ++ H2 ++ Rt2) with (D ++ (d :: L' ++ H2 ++ Rt2)).
      rewrite (length_app D), (length_app D).
      now rewrite (Permutation_length Hperm). }
    assert (HDd : sorted ltb (D ++ [d])).
    { apply sorted_app; auto; [repeat constructor |].
      intros x y Hx ->%list_elem_of_singleton. now apply Hle. }
    assert (Hle2 : forall x y, x ∈ D ++ [d] -> y ∈ L' ++ H2 ++ Rt2 -> le x y).
    { intros x y [Hx | ->%list_elem_of_singleton]%elem_of_app Hy.
      - apply Hle; auto.
      - apply Hleast. auto. }
    destruct (IH (D ++ [d]) L' H2 Rt2 splitIdx n (len D + 1) (len H2)
                (splitIdx + len H2) (0 <? len H2)
                HL HRt2 ltac:(solve_len) Hn' ltac:(solve_len) eq_refl eq_refl
                eq_refl HDd HL's HRt2s Hheap2 Hle2)
      as (D' & H' & Rt' & Hrun & HlenD' & HD's & HRt's & HRt'ne & Hle' & Hperm').
    exists D', H', Rt'.
    rewrite <- app_assoc in Hrun. simpl in Hrun.
    split; [exact Hrun |]. repeat (split; [assumption |]).
    rewrite Hperm', <- app_assoc. simpl.
    apply Permutation_app_head. exact Hperm. }
  clear IH. pose proof (len_nonneg H) as HlenH0.
  assert (Hsplit' : splitIdx = len (D ++ l0 :: L')) by solve_len.
  (* is the heap's least element before [l0]? *)
  assert (HaH : exists aH,
             (if 0 <? len H then Less ltb splitIdx (len D) else ret false) s
             = Ok aH s /\
             (aH = true -> exists h0, lookupZ H 0 = Some h0 /\ 1 <= len H /\
                                      lookupZ s splitIdx = Some h0 /\
                                      ltb h0 l0 = true) /\
             (aH = false -> forall y, y ∈ H -> le l0 y)).
  { destruct (Z.ltb_spec 0 (len H)) as [Hne | Hempty].
    - destruct (lookupZ_in_range H 0) as [h0 Hh0]; [lia |].
      assert (Hs0 : lookupZ s splitIdx = Some h0).
      { subst s. rewrite app_assoc, lookupZ_app_r by lia.
        rewrite Hsplit', Z.sub_diag, lookupZ_app_l by lia. exact Hh0. }
      exists (ltb h0 l0). split; [now apply Less_eq |]. split.
      + intros Hlt. exists h0. repeat split; auto. lia.
      + intros Hlt y Hy. eapply le_trans; [exact Hord | exact Hlt |].
        now apply (heap_elements_after_root H h0).
    - assert (H = []) as -> by (apply length_zero_iff_nil; solve_len).
      exists false. split; [reflexivity |]. split; [discriminate |].
      intros _ y Hy. now apply elem_of_nil in Hy. }
  destruct HaH as (aH & HaHrun & HaHt & HaHf).
  rewrite (bind_ok _ _ _ _ _ HaHrun).
  rewrite (bind_ok _ _ _ _ _ (Less_eq ltb s _ _ r0 l0 Hright Hidx)).
  destruct (negb (ltb r0 l0) && negb aH) eqn:Hnone.
  { (* nothing to pull: [l0] stays *)
    apply andb_true_iff in Hnone as [HaR HaH%negb_true_iff].
    apply negb_true_iff in HaR.
    apply (Hadv l0 H (r0 :: Rt0)); auto.
    intros y [Hy | [Hy | Hy]%elem_of_app]%elem_of_app.
    - apply elem_of_cons in Hy as [-> | Hy]; [apply le_refl, Hord | auto].
    - auto.
    - apply elem_of_cons in Hy as [-> | Hy]; [exact HaR |].
      eapply le_trans; [exact Hord | exact HaR | auto]. }
  rewrite (bind_ok _ _ _ _ _ (Load_eq s (len D) l0 Hidx)).
  (* which source gives the next element? *)
  assert (HfH : exists fH,
             (if aH
              then if negb (ltb r0 l0) then ret true
                   else Less ltb splitIdx (splitIdx + len H)
              else ret false) s = Ok fH s /\
             (fH = true -> exists h0, lookupZ H 0 = Some h0 /\ 1 <= len H /\
                                      ltb h0 l0 = true /\
                                      (ltb r0 l0 = false \/ ltb h0 r0 = true)) /\
             (fH = false -> ltb r0 l0 = true /\ forall y, y ∈ H -> le r0 y)).
  { destruct aH.
    - destruct (HaHt eq_refl) as (h0 & Hh0 & Hlen1 & Hs0 & Hlt).
      destruct (ltb r0 l0) eqn:HaR; cbn [negb].
      + exists (ltb h0 r0). split; [now apply Less_eq |]. split.
        * intros Hhr. exists h0. auto.
        * intros Hhr. split; [reflexivity |]. intros y Hy.
          eapply le_trans; [exact Hord | exact Hhr |].
          now apply (heap_elements_after_root H h0).
      + exists true. split; [reflexivity |]. split; [| discriminate].
        intros _. exists h0. auto.
    - exists false. split; [reflexivity |]. split; [discriminate |].
      intros _. rewrite andb_true_r in Hnone.
      apply negb_false_iff in Hnone. split; [exact Hnone |].
      intros y Hy. apply lt_le; [exact Hord |].
      eapply lt_le_trans; [exact Hord | exact Hnone | now apply HaHf]. }
  destruct HfH as (fH & HfHrun & HfHt & HfHf).
  rewrite (bind_ok _ _ _ _ _ HfHrun).
  destruct fH.
  - (* the next element comes from the heap *)
    destruct (HfHt eq_refl) as (h0 & Hh0 & Hlen1 & Hlt & Hcase).
    clear HfHt HfHf HaHt HaHf HfHrun HaHrun.
    assert (Hh0H : forall y, y ∈ H -> le h0 y)
      by now apply heap_elements_after_root.
    destruct (heap_Pop_spec ltb Hord (D ++ l0 :: L') H (r0 :: Rt0)
                splitIdx (len H) Hsplit' eq_refl Hlen1 Hheap)
      as (h0' & H1 & Hpop & Hh0' & Hperm1 & Hheap1 & HlenH1).
    rewrite Hh0 in Hh0'. injection Hh0' as <-.
    rewrite bind_assoc.
    subst s. rewrite app_assoc.
    rewrite (bind_ok _ _ _ _ _ Hpop). cbv beta iota. rewrite bind_assoc.
    rewrite <- !app_assoc.
    change ((l0 :: L') ++ H1 ++ [h0] ++ r0 :: Rt0)
      with (l0 :: L' ++ H1 ++ [h0] ++ r0 :: Rt0).
    rewrite (bind_ok _ _ _ _ _ (Store_middle D _ h0 l0 _ eq_refl)).
    rewrite bind_ret_l. cbv beta iota.
    assert (Hleast : forall y, y ∈ (l0 :: L') ++ H ++ r0 :: Rt0 -> le h0 y).
    { assert (Hh0r0 : le h0 r0).
      { destruct Hcase as [HaR | Hhr]; [| now apply lt_le].
        apply lt_le; [exact Hord |].
        eapply lt_le_trans; [exact Hord | exact Hlt | exact HaR]. }
      intros y [Hy | [Hy | Hy]%elem_of_app]%elem_of_app.
      - apply lt_le; [exact Hord |].
        eapply lt_le_trans; [exact Hord | exact Hlt |].
        apply elem_of_cons in Hy as [-> | Hy]; [apply le_refl, Hord | auto].
      - auto.
      - apply elem_of_cons in Hy as [-> | Hy]; [exact Hh0r0 |].
        eapply le_trans; [exact Hord | exact Hh0r0 | auto]. }
    destruct (ltb r0 l0) eqn:HaR; cbn [negb].
    + (* [l0] goes to the heap *)
      destruct (heap_Push_spec ltb Hord (D ++ h0 :: L') H1 (r0 :: Rt0) h0 l0
                  splitIdx (len H - 1))
        as (H2 & Hpush & Hperm2 & Hheap2 & HlenH2);
        [solve_len | lia | exact Hheap1 |].
      replace (D ++ h0 :: L' ++ H1 ++ [h0] ++ r0 :: Rt0)
        with ((D ++ h0 :: L') ++ H1 ++ h0 :: r0 :: Rt0)
        by (now rewrite <- !app_assoc).
      rewrite (bind_ok _ _ _ _ _ Hpush).
      rewrite <- app_assoc. cbn [app].
      apply (Hadv h0 H2 (r0 :: Rt0)); auto; try lia;
        try (symmetry; apply Z.ltb_lt; lia).
      rewrite Hperm2, <- Hperm1. solve_Permutation.
    + (* [l0] goes in front of the sorted remainder *)
      replace (D ++ h0 :: L' ++ H1 ++ [h0] ++ r0 :: Rt0)
        with ((D ++ h0 :: L' ++ H1) ++ h0 :: r0 :: Rt0)
        by (list_norm; reflexivity).
      erewrite bind_ok by (apply Store_middle; solve_len).
      list_norm.
      apply (Hadv h0 H1 (l0 :: r0 :: Rt0)); auto; try lia;
        try (now rewrite HlenH1).
      * apply sorted_cons. split; [| assumption].
        intros y [-> | Hy]%elem_of_cons; [exact HaR |].
        eapply le_trans; [exact Hord | exact HaR | auto].
      * rewrite <- Hperm1. solve_Permutation.
  - (* the next element comes from the sorted remainder *)
    destruct (HfHf eq_refl) as (HaR & Hr0H).
    clear HfHt HfHf HaHt HaHf HfHrun HaHrun.
    assert (Hleast : forall y, y ∈ (l0 :: L') ++ H ++ r0 :: Rt0 -> le r0 y).
    { intros y [Hy | [Hy | Hy]%elem_of_app]%elem_of_app.
      - apply lt_le; [exact Hord |].
        eapply lt_le_trans; [exact Hord | exact HaR |].
        apply elem_of_cons in Hy as [-> | Hy]; [apply le_refl, Hord | auto].
      - auto.
      - apply elem_of_cons in Hy as [-> | Hy]; [apply le_refl, Hord | auto]. }
    (* is the element after [r0] before [l0] too? *)
    assert (HaR' : exists aR',
               (if splitIdx + len H + 1 <? n
                then Less ltb (splitIdx + len H + 1) (len D)
                else ret false) s = Ok aR' s /\
               (aR' = true -> exists r1 Rt1, Rt0 = r1 :: Rt1 /\
                                             (splitIdx + len H + 1 <? n) = true) /\
               (aR' = false -> forall y, y ∈ Rt0 -> le l0 y)).
    { destruct Rt0 as [| r1 Rt1].
      - destruct (Z.ltb_spec (splitIdx + len H + 1) n) as [Hlt | _];
          [solve_len |].
        exists false. split; [reflexivity |]. split; [discriminate |].
        intros _ y Hy. now apply elem_of_nil in Hy.
      - destruct (Z.ltb_spec (splitIdx + len H + 1) n) as [_ | Hge];
          [| solve_len].
        assert (Hr1 : lookupZ s (splitIdx + len H + 1) = Some r1).
        { subst s.
          replace (D ++ (l0 :: L') ++ H ++ r0 :: r1 :: Rt1)
            with ((D ++ (l0 :: L') ++ H ++ [r0]) ++ r1 :: Rt1)
            by (list_norm; reflexivity).
          apply lookupZ_middle. solve_len. }
        exists (ltb r1 l0). split; [now apply Less_eq |]. split.
        + intros _. eauto.
        + intros Hlt y [-> | Hy]%elem_of_cons; [exact Hlt |].
          eapply le_trans; [exact Hord | exact Hlt |].
          apply sorted_cons in HR0s as [HR0s _]. auto. }
    destruct HaR' as (aR' & HaR'run & HaR't & HaR'f).
    rewrite bind_assoc. rewrite (bind_ok _ _ _ _ _ HaR'run).
    rewrite bind_assoc.
    rewrite (bind_ok _ _ _ _ _ (Load_eq s _ r0 Hright)).
    rewrite bind_assoc. subst s.
    change (D ++ (l0 :: L') ++ H ++ r0 :: Rt0)
      with (D ++ l0 :: L' ++ H ++ r0 :: Rt0).
    rewrite (bind_ok _ _ _ _ _ (Store_middle D _ r0 l0 _ eq_refl)).
    rewrite bind_ret_l. cbv beta iota.
    destruct aR'; cbn [negb].
    + (* [l0] goes to the heap *)
      destruct (HaR't eq_refl) as (r1 & Rt1 & -> & Hmore).
      destruct (heap_Push_spec ltb Hord (D ++ r0 :: L') H (r1 :: Rt1) r0 l0
                  splitIdx (len H))
        as (H2 & Hpush & Hperm2 & Hheap2 & HlenH2);
        [solve_len | reflexivity | exact Hheap |].
      replace (D ++ r0 :: L' ++ H ++ r0 :: r1 :: Rt1)
        with ((D ++ r0 :: L') ++ H ++ r0 :: r1 :: Rt1)
        by (list_norm; reflexivity).
      rewrite (bind_ok _ _ _ _ _ Hpush). list_norm.
      apply (Hadv r0 H2 (r1 :: Rt1)); auto; try lia;
        try (symmetry; apply Z.ltb_lt; lia).
      rewrite Hperm2. solve_Permutation.
    + (* [l0] takes the place of [r0] *)
      replace (D ++ r0 :: L' ++ H ++ r0 :: Rt0)
        with ((D ++ r0 :: L' ++ H) ++ r0 :: Rt0)
        by (list_norm; reflexivity).
      erewrite bind_ok by (apply Store_middle; solve_len).
      list_norm.
      apply (Hadv r0 H (l0 :: Rt0)); auto; try lia.
      * apply sorted_cons. auto.
      * solve_Permutation.
Qed.

Lemma sorted_last_greatest P (i : nat) x pl :
  sorted ltb P -> P !! i = Some x -> P !! (List.length P - 1)%nat = Some pl ->
  le x pl.
Proof.
  intros Hs Hx Hpl. eapply sorted_lookup_le; eauto.
  apply lookup_lt_Some in Hx. lia.
Qed.

(** Under its precondition the heap-merge engine leaves the sorted
    arrangement of the slice. *)
Lemma heapAppendSort_correct (fuel : nat) :
  forall (k : Z) s,
    (List.length s < fuel)%nat -> 0 <= k <= len s -> len s < 2 ^ 63 ->
    prefix_sorted ltb k s ->
    exists log, heapAppendSort ltb fuel k s = Ok log (sort_list ltb s).
Proof.
  induction fuel as [| fuel IH]; intros k s Hfuel Hk Hs Hpre; [lia |].
  cbn [heapAppendSort].
  destruct (Z.eqb_spec k 0) as [-> | Hk0].
  { exists []. rewrite sort_list_sorted_id; [reflexivity | exact Hord |].
    now apply prefix_sorted_0. }
  rewrite to_int_small by lia.
  destruct (Z.eqb_spec (len s - k) 0) as [H0 | Hsplit].
  { exists []. reflexivity. }
  destruct (prefix_split s k) as (P & R & Heq & HP & HR & HPtake); [lia |].
  unfold prefix_sorted in Hpre. rewrite <- HPtake in Hpre.
  set (B := sort_list ltb R).
  assert (HBs : sorted ltb B) by apply sort_list_sorted, Hord.
  assert (HBp : B ≡ₚ R) by apply sort_list_perm.
  assert (HlenB : len B = k).
  { unfold len in *. rewrite (Permutation_length HBp). lia. }
  assert (Hperm0 : P ++ B ≡ₚ s) by (rewrite Heq; now apply Permutation_app_head).
  (* every outcome below is a sorted arrangement of [s] *)
  assert (Hdone : forall s', sorted ltb s' -> s' ≡ₚ P ++ B ->
                             s' = sort_list ltb s).
  { intros s' Hs' Hp. symmetry. apply sort_list_unique; auto.
    now rewrite Hp. }
  set (splitIdx := len s - k) in *.
  set (n := len s) in *.
  assert (Hwin : Window splitIdx n (sort_Sort ltb) s = Ok tt (P ++ B)).
  { rewrite Heq. rewrite <- (app_nil_r R) at 1.
    unfold sort_Sort. rewrite Window_modify_app by lia.
    now rewrite app_nil_r. }
  rewrite (bind_ok _ _ _ _ _ Hwin).
  destruct B as [| b0 B'] eqn:HB; [unfold len in HlenB; simpl in HlenB; lia |].
  assert (Hb0B : forall y, y ∈ B' -> le b0 y).
  { now apply sorted_cons in HBs as [HBs _]. }
  assert (HPne : 0 < len P) by (pose proof (len_nonneg P); lia).
  destruct (lookup_lt_is_Some_2 P (List.length P - 1)) as [pl Hpl];
    [unfold len in HPne; lia |].
  assert (Hpl' : lookupZ (P ++ b0 :: B') (splitIdx - 1) = Some pl).
  { rewrite lookupZ_app_l by lia. unfold lookupZ.
    destruct (Z.ltb_spec (splitIdx - 1) 0); [lia |].
    rewrite <- Hpl. f_equal. unfold len in HP. lia. }
  assert (Hb0' : lookupZ (P ++ b0 :: B') splitIdx = Some b0).
  { now apply lookupZ_middle. }
  rewrite (bind_ok _ _ _ _ _ (Less_eq ltb _ _ _ b0 pl Hb0' Hpl')).
  destruct (ltb b0 pl) eqn:Hlt; cbn [negb].
  2:{ (* the sorted tail already follows the prefix *)
      exists []. unfold ret. f_equal. apply Hdone; [| reflexivity].
      apply sorted_app; auto. intros x y (i & Hx)%list_elem_of_lookup_1 Hy.
      eapply le_trans; [exact Hord | |].
      - exact (sorted_last_greatest P i x pl Hpre Hx Hpl).
      - eapply le_trans; [exact Hord | exact Hlt |].
        apply elem_of_cons in Hy as [-> | Hy]; [apply le_refl, Hord | auto]. }
  destruct (search_sorted_split ltb Hord P b0 B' Hpre)
    as (P1 & P2 & HP12 & Hsearch & HP1 & HP2).
  rewrite HP in Hsearch. rewrite (bind_ok _ _ _ _ _ Hsearch).
  rewrite Forall_forall in HP1, HP2.
  assert (HP2ne : P2 <> []).
  { intros ->. rewrite app_nil_r in HP12. subst P1.
    rewrite (HP1 pl) in Hlt; [discriminate |].
    eapply list_elem_of_lookup_2; exact Hpl. }
  assert (HlenP12 : splitIdx = len P1 + len P2) by (rewrite <- HP, HP12; apply len_app).
  assert (HlenP2 : 0 < len P2).
  { destruct P2; [contradiction |]. rewrite len_cons. pose proof (len_nonneg P2). lia. }
  destruct (Z.geb_spec (len P1) splitIdx) as [Hbad | _]; [lia |].
  rewrite HP12 in Hpre. apply sorted_app_inv in Hpre as (HP1s & HP2s & HP1P2).
  assert (Hn : n = len (P1 ++ P2 ++ [] ++ b0 :: B')).
  { subst n. unfold len. rewrite <- (Permutation_length Hperm0), HP12.
    cbn [app]. now rewrite <- !app_assoc. }
  assert (Hle0 : forall x y, x ∈ P1 -> y ∈ P2 ++ [] ++ b0 :: B' -> le x y).
  { intros x y Hx [Hy | Hy]%elem_of_app; [auto |]. cbn [app] in Hy.
    eapply le_trans; [exact Hord | exact (HP1 x Hx) |].
    apply elem_of_cons in Hy as [-> | Hy]; [apply le_refl, Hord | auto]. }
  destruct (heap_loop_correct (Z.to_nat (splitIdx - len P1)) P1 P2 [] (b0 :: B')
              splitIdx n (len P1) 0 splitIdx false
              ltac:(unfold len in *; lia) ltac:(discriminate) HlenP12 Hn
              eq_refl eq_refl ltac:(unfold len; simpl; lia) eq_refl
              HP1s HP2s HBs (heap_ordered_nil ltb) Hle0)
    as (D' & H' & Rt' & Hrun & HlenD' & HD's & HRt's & HRt'ne & Hle' & Hperm').
  cbn [app] in Hrun. rewrite HP12, <- app_assoc. rewrite (bind_ok _ _ _ _ _ Hrun).
  cbv beta iota.
  assert (Hperm1 : D' ++ H' ++ Rt' ≡ₚ P ++ b0 :: B').
  { rewrite Hperm', HP12. cbn [app]. now rewrite <- app_assoc. }
  clear Hrun Hsearch.
  assert (Hlens : len H' + len Rt' = k).
  { pose proof (Permutation_length Hperm1) as Hl.
    rewrite !length_app in Hl. unfold len in *. lia. }
  pose proof (len_nonneg H') as HlenH'. pose proof (len_nonneg Rt') as HlenRt'.
  assert (Hfinish : forall T, sorted ltb T -> T ≡ₚ H' ++ Rt' ->
                              D' ++ T = sort_list ltb s).
  { intros T HT HTp. apply Hdone.
    - apply sorted_app; auto. intros x y Hx Hy. apply Hle'; auto.
      now rewrite <- HTp.
    - now rewrite HTp. }
  destruct (Z.eqb_spec (len H') 0) as [Hz | Hnz].
  { exists []. unfold ret. f_equal.
    assert (H' = []) as -> by (apply length_zero_iff_nil; unfold len in Hz; lia).
    now apply Hfinish. }
  destruct Rt' as [| r0 Rt0]; [contradiction |].
  assert (Hsorted : exists b,
             (if len H' =? 1 then Less ltb splitIdx (splitIdx + len H')
              else ret false) (D' ++ H' ++ r0 :: Rt0)
             = Ok b (D' ++ H' ++ r0 :: Rt0) /\
             (b = true -> sorted ltb (H' ++ r0 :: Rt0))).
  { destruct (Z.eqb_spec (len H') 1) as [H1 | _].
    - destruct H' as [| h [| ? ?]]; try (unfold len in H1; simpl in H1; lia).
      exists (ltb h r0). split.
      + apply Less_eq.
        * now apply lookupZ_middle.
        * rewrite app_assoc. apply lookupZ_middle. solve_len.
      + intros Hhr. cbn [app]. apply sorted_cons. split; [| assumption].
        assert (Hle_hr : le h r0) by now apply lt_le.
        intros y [-> | Hy]%elem_of_cons; [exact Hle_hr |].
        eapply le_trans; [exact Hord | exact Hle_hr |].
        apply sorted_cons in HRt's as [HRt's _]. auto.
    - exists false. split; [reflexivity | discriminate]. }
  destruct Hsorted as (b & Hbrun & Hb).
  rewrite (bind_ok _ _ _ _ _ Hbrun).
  destruct b.
  { exists []. unfold ret. f_equal.
    apply Hfinish; [now apply Hb | reflexivity]. }
  assert (Hwindow : forall (f : list E -> list E),
             Window splitIdx n (modify f) (D' ++ H' ++ r0 :: Rt0)
             = Ok tt (D' ++ f (H' ++ r0 :: Rt0))).
  { intros f. rewrite <- (app_nil_r (H' ++ r0 :: Rt0)) at 1.
    rewrite Window_modify_app.
    - now rewrite app_nil_r.
    - now symmetry.
    - rewrite len_app. rewrite Hlens. subst splitIdx. lia. }
  destruct (negb (HeapPkg.shouldUseAppended k (len H'))).
  { (* the full sort of the residual window *)
    exists [FullSort k (len H')]. unfold sort_Sort.
    rewrite (bind_ok _ _ _ _ _ (Hwindow _)). unfold ret. f_equal.
    apply Hfinish; [apply sort_list_sorted, Hord | apply sort_list_perm]. }
  (* the recursive call on the rotated residual window *)
  unfold slices_Rotate. rewrite (bind_ok _ _ _ _ _ (Hwindow _)).
  replace (k - len H') with (len (r0 :: Rt0)) by lia.
  rewrite rotate_right_block.
  destruct (IH (len H') ((r0 :: Rt0) ++ H')) as (log & Hrec).
  - pose proof (Permutation_length Hperm0) as Hl.
    rewrite !length_app in *. unfold len in *. cbn [List.length] in *. lia.
  - rewrite len_app. lia.
  - rewrite len_app. lia.
  - unfold prefix_sorted.
    replace (Z.to_nat (len ((r0 :: Rt0) ++ H') - len H'))
      with (List.length (r0 :: Rt0)) by (rewrite len_app; unfold len; lia).
    now rewrite take_app_length.
  - exists (Recurse k (len H') :: log).
    rewrite <- (app_nil_r ((r0 :: Rt0) ++ H')) at 1.
    erewrite bind_ok.
    2:{ rewrite Window_app.
        - rewrite Hrec. reflexivity.
        - now symmetry.
        - rewrite len_app. subst splitIdx. lia. }
    unfold ret. f_equal. rewrite app_nil_r.
    apply Hfinish; [apply sort_list_sorted, Hord |].
    rewrite sort_list_perm. apply Permutation_app_comm.
Qed.

End HeapLoop.

(** C2: on every input that satisfies the precondition (prefix sorted
    ascending, [0 < k <= n], elements in a strict total order) the in-place
    engine, the buffered engine with [len buf = k] and the heap-merge engine
    all return normally with the same final slice, the sorted arrangement
    of the input. *)
Theorem engines_agree {E} (ltb : E -> E -> bool) (s buf : list E) (k : Z)
  (fuel : nat) :
  strict_total_order ltb ->
  0 < k <= len s -> len s < 2 ^ 63 -> len buf = k ->
  prefix_sorted ltb k s -> (length s < fuel)%nat ->
  exists s' buf' log,
    groupInsertAppendSort ltb k s = Ok tt s' /\
    groupInsertAppendSortWithBuf ltb buf s = Ok buf' s' /\
    heapAppendSort ltb fuel k s = Ok log s' /\
    s' = sort_list ltb s.
Proof.
  intros Hord Hk Hs Hbuf Hpre Hfuel.
  destruct (groupInsertAppendSortWithBuf_correct ltb Hord s buf)
    as [buf' Hb]; [lia | now rewrite Hbuf |].
  destruct (heapAppendSort_correct ltb Hord fuel k s) as [log Hh];
    [assumption | lia | assumption | assumption |].
  exists (sort_list ltb s), buf', log.
  split; [apply groupInsertAppendSort_correct; assumption |].
  split; [exact Hb |]. split; [exact Hh | reflexivity].
Qed.

Lemma engines_agree_witness :
  exists s' buf' log,
    groupInsertAppendSort Z.ltb 4 [1; 3; 5; 7; 11; 13; 12; 6; 4; 8]
    = Ok tt s' /\
    groupInsertAppendSortWithBuf Z.ltb [0; 0; 0; 0]
      [1; 3; 5; 7; 11; 13; 12; 6; 4; 8] = Ok buf' s' /\
    heapAppendSort Z.ltb 11 4 [1; 3; 5; 7; 11; 13; 12; 6; 4; 8]
    = Ok log s' /\
    s' = sort_list Z.ltb [1; 3; 5; 7; 11; 13; 12; 6; 4; 8].
Proof.
  apply (engines_agree Z.ltb [1; 3; 5; 7; 11; 13; 12; 6; 4; 8] [0; 0; 0; 0] 4 11).
  - exact Z_ltb_order.
  - vm_compute. intuition congruence.
  - reflexivity.
  - reflexivity.
  - unfold prefix_sorted, sorted. simpl.
    repeat (constructor; [| repeat (constructor; try reflexivity)]).
    constructor.
  - simpl. lia.
Defined.

(** ** The unit tests of the repository and the scenarios of the
    specification, run on the embedding *)

Example TestAppended_1 :
  Appended Z.ltb 4 [1; 3; 5; 7; 11; 13; 12; 6; 4; 8]
  = Ok tt [1; 3; 4; 5; 6; 7; 8; 11; 12; 13].
Proof. reflexivity. Qed.

Example TestAppended_2 :
  Appended Z.ltb 4 [0; 0; 2; 5; 8; 8; 9; 10; 10; 11; 11; 15; 11; 12; 8; 14]
  = Ok tt [0; 0; 2; 5; 8; 8; 8; 9; 10; 10; 11; 11; 11; 12; 14; 15].
Proof. reflexivity. Qed.

Example TestAppended2_3 :
  groupInsertAppendSort Z.ltb 2 [49; 255; 127] = Ok tt [49; 127; 255].
Proof. reflexivity. Qed.

Example TestAppended2_4 :
  groupInsertAppendSort Z.ltb 5 [65; 76; 173; 37; 67; 145]
  = Ok tt [37; 65; 67; 76; 145; 173].
Proof. reflexivity. Qed.

Example TestAppended3_3 :
  groupInsertAppendSortWithBuf Z.ltb [0; 0] [49; 255; 127]
  = Ok [127; 255] [49; 127; 255].
Proof. reflexivity. Qed.

Example TestAppended3_4 :
  groupInsertAppendSortWithBuf Z.ltb [0; 0; 0; 0; 0] [65; 76; 173; 37; 67; 145]
  = Ok [37; 67; 76; 145; 173] [37; 65; 67; 76; 145; 173].
Proof. reflexivity. Qed.

Example scenario_2_in_place :
  Appended Z.ltb 2 [-4; -2; 1; 3; 4; 5; 9; 2; -3]
  = Ok tt [-4; -3; -2; 1; 2; 3; 4; 5; 9].
Proof. reflexivity. Qed.

Example scenario_2_heap :
  slice_outcome (heapAppendSort Z.ltb 10 2 [-4; -2; 1; 3; 4; 5; 9; 2; -3])
  = Ok tt [-4; -3; -2; 1; 2; 3; 4; 5; 9].
Proof. reflexivity. Qed.

(** With [OrderedDesc] the same engines sort descending. *)
Example descending_order :
  Appended (fun a b : Z => Z.ltb b a) 2 [9; 5; 4; 3; 1; 2; 7]
  = Ok tt [9; 7; 5; 4; 3; 2; 1].
Proof. reflexivity. Qed.

(** A call with [tailLength >= 2^63] that the selector accepts: the explicit
    check of the engine compares [int(tailLength)], which is negative, and
    the panic is the one of the slice expression [s[splitIdx:]]. *)
Example huge_tail_panics :
  Appended Z.ltb (2 ^ 63) [3; 1; 2] = Panic OutOfRange [3; 1; 2].
Proof. reflexivity. Qed.

(** * Further properties: edge cases, arbitrary slices, adapters and
    test drivers *)

(** ** More on the selectors *)

Lemma heap_selector_eighth (n k : Z) :
  0 <= k < n -> HeapPkg.shouldUseAppended n k = true -> 8 * k < n.
Proof.
  intros Hk. unfold HeapPkg.shouldUseAppended.
  destruct (Z.leb_spec n 4); [discriminate |].
  destruct (Z.leb_spec n 128).
  { rewrite wrap_small by (unfold uint_size; lia). intros ?%Z.ltb_lt. lia. }
  destruct (Z.leb_spec n 4096).
  { assert (Hkk : 0 <= k * k < 4096 * 4096) by nia.
    rewrite (wrap_small (k * k)) by (unfold uint_size; lia).
    rewrite wrap_small by (unfold uint_size; lia).
    intros ?%Z.ltb_lt. nia. }
  intros ?%Z.ltb_lt. lia.
Qed.

(** X1: when [shouldUseAppended] accepts a tail, the tail is strictly
    shorter than the slice (for tail sizes whose square does not wrap
    around): the in-place engine is never selected for a tail that is the
    whole slice or longer. *)
Theorem selector_accepts_proper_tail (n k : Z) :
  0 <= k -> k * k < uint_size ->
  shouldUseAppended n k = true -> k < n.
Proof.
  intros Hk Hkk. unfold shouldUseAppended.
  assert (H4 : 0 <= k * 4 < uint_size) by (unfold uint_size in *; nia).
  destruct (Z.ltb_spec n 512).
  - rewrite wrap_small by lia. intros ?%Z.ltb_lt. lia.
  - rewrite wrap_small by lia. intros Hq%Z.ltb_lt.
    destruct (Z.lt_ge_cases k n) as [? | Hge]; [assumption | exfalso].
    assert (64 * n <= k * k) by nia.
    assert (n <= k * k / 64) by (apply Z.div_le_lower_bound; lia).
    lia.
Qed.

Lemma selector_accepts_proper_tail_witness : 100 < 1000.
Proof.
  apply (selector_accepts_proper_tail 1000 100);
    [lia | unfold uint_size; lia | reflexivity].
Defined.

(** X2: when [shouldUseAppendedWithBuf] accepts a tail, the slice has at
    least ten elements and the tail is strictly shorter than the slice (for
    sizes whose products do not wrap around). *)
Theorem buffered_selector_accepts_proper_tail (n k : Z) :
  0 <= k -> 5 * k < uint_size -> 0 <= n -> 3 * n < uint_size ->
  shouldUseAppendedWithBuf n k = true -> 10 <= n /\ k < n.
Proof.
  intros Hk H5 Hn H3. unfold shouldUseAppendedWithBuf.
  destruct (Z.ltb_spec n 10); [discriminate |].
  destruct (Z.ltb_spec n 64).
  { rewrite wrap_small by lia. intros ?%Z.ltb_lt. lia. }
  destruct (Z.ltb_spec n 256).
  { rewrite wrap_small by lia. intros ?%Z.ltb_lt. lia. }
  rewrite !wrap_small by lia. intros ?%Z.ltb_lt. lia.
Qed.

Lemma buffered_selector_accepts_proper_tail_witness : 10 <= 1000 /\ 100 < 1000.
Proof.
  apply (buffered_selector_accepts_proper_tail 1000 100);
    try (unfold uint_size; lia); reflexivity.
Defined.

(** X3: the selector of package [sort] is the stricter one.  Whenever it
    accepts a tail that is shorter than the total, the tail is shorter than
    an eighth of the total and the selector of [appended.go] accepts it
    too. *)
Theorem heap_selector_stricter (n k : Z) :
  0 <= k < n ->
  HeapPkg.shouldUseAppended n k = true ->
  8 * k < n /\ shouldUseAppended n k = true.
Proof.
  intros Hk Hsel. pose proof (heap_selector_eighth n k Hk Hsel) as H8.
  split; [exact H8 |].
  unfold shouldUseAppended.
  destruct (Z.ltb_spec n 512).
  { rewrite wrap_small by (unfold uint_size; lia). apply Z.ltb_lt. lia. }
  assert (Hkk : 0 <= k * k < n /\ k * k < 4096 * 4096).
  { revert Hsel. unfold HeapPkg.shouldUseAppended.
    destruct (Z.leb_spec n 4); [discriminate |].
    destruct (Z.leb_spec n 128); [lia |].
    destruct (Z.leb_spec n 4096).
    - assert (0 <= k * k < 4096 * 4096) by nia.
      rewrite (wrap_small (k * k)) by (unfold uint_size; lia).
      rewrite wrap_small by (unfold uint_size; lia).
      intros ?%Z.ltb_lt. lia.
    - intros ?%Z.ltb_lt. nia. }
  rewrite wrap_small by (unfold uint_size; lia).
  apply Z.ltb_lt. apply Z.div_lt_upper_bound; lia.
Qed.

Lemma heap_selector_stricter_witness :
  8 * 10 < 1000 /\ shouldUseAppended 1000 10 = true.
Proof.
  apply (heap_selector_stricter 1000 10); [lia | reflexivity].
Defined.

(** X4: the selector of package [sort] is monotone in the tail: if it
    accepts a tail shorter than the total, it accepts every shorter tail. *)
Theorem heap_selector_monotone (n k k' : Z) :
  0 <= k <= k' -> k' < n ->
  HeapPkg.shouldUseAppended n k' = true ->
  HeapPkg.shouldUseAppended n k = true.
Proof.
  intros Hk Hk'. unfold HeapPkg.shouldUseAppended.
  destruct (Z.leb_spec n 4); [discriminate |].
  destruct (Z.leb_spec n 128).
  { rewrite !wrap_small by (unfold uint_size; lia).
    intros ?%Z.ltb_lt. apply Z.ltb_lt. lia. }
  destruct (Z.leb_spec n 4096).
  { assert (0 <= k * k <= k' * k') by nia.
    assert (k' * k' < 4096 * 4096) by nia.
    rewrite (wrap_small (k' * k')), (wrap_small (k * k))
      by (unfold uint_size; lia).
    rewrite !wrap_small by (unfold uint_size; lia).
    intros ?%Z.ltb_lt. apply Z.ltb_lt. lia. }
  intros ?%Z.ltb_lt. apply Z.ltb_lt. lia.
Qed.

Lemma heap_selector_monotone_witness :
  HeapPkg.shouldUseAppended 1000 5 = true.
Proof.
  apply (heap_selector_monotone 1000 5 10); [lia | lia | reflexivity].
Defined.
(** ** The engines of [appended.go] on an arbitrary slice

    Without the precondition on the prefix the engines still end normally
    and only move the elements. *)

Section AnyInput.
Context {E : Type} (ltb : E -> E -> bool).
Implicit Types (s buf P G T : list E) (c : nat).

Lemma len_perm s s' : s' ≡ₚ s -> len s' = len s.
Proof. intros Hp. unfold len. now rewrite Hp. Qed.

Lemma Window_modify_perm s lo hi (f : list E -> list E) :
  (forall w, f w ≡ₚ w) -> in_bounds lo hi s = true ->
  exists s', Window lo hi (modify f) s = Ok tt s' /\ s' ≡ₚ s.
Proof.
  intros Hf Hb.
  destruct (window_decompose s lo hi Hb) as (A & B & C & -> & Hlo & Hhi).
  exists (A ++ f B ++ C). split; [now apply Window_modify_app |].
  now rewrite Hf.
Qed.

Lemma Window_Rotate_perm s lo hi n :
  0 <= lo -> lo <= hi -> hi <= len s ->
  exists s', Window lo hi (slices_Rotate n) s = Ok tt s' /\ s' ≡ₚ s.
Proof.
  intros H1 H2 H3. apply Window_modify_perm.
  - intros w. apply rotate_perm.
  - now apply in_bounds_true.
Qed.

Lemma Swap_perm s i j :
  0 <= i < len s -> 0 <= j < len s ->
  exists s', Swap i j s = Ok tt s' /\ s' ≡ₚ s.
Proof.
  intros Hi Hj. exists (swap_at s i j). split; [| apply swap_at_perm].
  pose proof (Swap_swap_at s [] i j Hi Hj) as Hsw.
  now rewrite !app_nil_r in Hsw.
Qed.

(** The loop of the in-place engine only rotates, reverses and swaps: on
    any slice it ends normally and leaves a rearrangement of the slice. *)
Lemma inplace_loop_perm c :
  forall (usi uend : Z) s,
    0 <= usi -> usi + Z.of_nat c <= len s -> uend = usi + Z.of_nat c ->
    exists s', inplace_loop ltb c usi uend s = Ok tt s' /\ s' ≡ₚ s.
Proof.
  induction c as [| c IH]; intros usi uend s Husi Hlen Hend.
  { exists s. split; reflexivity. }
  cbn [inplace_loop].
  destruct (Search_Less_total ltb s usi usi) as (r & Hr & Hrange & _);
    [lia | lia |].
  rewrite (bind_ok _ _ _ _ _ Hr).
  destruct (Z.eqb_spec r usi) as [-> | Hne].
  - destruct (Z.eqb_spec usi 0) as [-> | Hpos].
    + apply Window_modify_perm; [intros w; apply reverse_Permutation |].
      apply in_bounds_true; lia.
    + destruct (Z.ltb_spec 0 usi) as [_ | Hbad]; [| lia].
      rewrite (bind_ok _ _ _ _ _ (Less_in_range ltb s usi (usi - 1)
                                    ltac:(lia) ltac:(lia))).
      destruct (less_at ltb s usi (usi - 1)).
      * destruct (Window_Rotate_perm s (usi - 1)
                    (usi - 1 + Z.of_nat (S c) + 1) (-2))
          as (s1 & Hs1 & Hp1); [lia | lia | lia |].
        rewrite (bind_ok _ _ _ _ _ Hs1).
        destruct (IH (usi - 1) (usi - 1 + Z.of_nat (S c) - 1) s1)
          as (s2 & Hs2 & Hp2);
          [lia | rewrite (len_perm _ _ Hp1); lia | lia |].
        exists s2. split; [exact Hs2 | now rewrite Hp2].
      * replace (usi - 1 + 1) with usi by lia.
        destruct (Window_Rotate_perm s usi (usi - 1 + Z.of_nat (S c) + 1) (-1))
          as (s1 & Hs1 & Hp1); [lia | lia | lia |].
        rewrite (bind_ok _ _ _ _ _ Hs1).
        destruct (IH usi (usi + Z.of_nat (S c) - 1) s1)
          as (s2 & Hs2 & Hp2);
          [lia | rewrite (len_perm _ _ Hp1); lia | lia |].
        exists s2. split; [exact Hs2 | now rewrite Hp2].
  - destruct (Window_Rotate_perm s (r + 1) uend (uend - usi))
      as (s1 & Hs1 & Hp1); [lia | lia | lia |].
    rewrite (bind_ok _ _ _ _ _ Hs1).
    pose proof (len_perm _ _ Hp1) as Hlen1.
    destruct (Swap_perm s1 r (r + 1)) as (s2 & Hs2 & Hp2); [lia | lia |].
    rewrite (bind_ok _ _ _ _ _ Hs2).
    pose proof (len_perm _ _ Hp2) as Hlen2.
    destruct (Window_Rotate_perm s2 r (r + Z.of_nat (S c) + 1) (-2))
      as (s3 & Hs3 & Hp3); [lia | lia | lia |].
    rewrite (bind_ok _ _ _ _ _ Hs3).
    pose proof (len_perm _ _ Hp3) as Hlen3.
    destruct (IH r (r + Z.of_nat (S c) - 1) s3) as (s4 & Hs4 & Hp4);
      [lia | lia | lia |].
    exists s4. split; [exact Hs4 |]. now rewrite Hp4, Hp3, Hp2.
Qed.

Lemma groupInsertAppendSort_perm s (k : Z) :
  0 <= k <= len s -> len s < 2 ^ 63 ->
  exists s', groupInsertAppendSort ltb k s = Ok tt s' /\ s' ≡ₚ s.
Proof.
  intros Hk Hs. unfold groupInsertAppendSort.
  rewrite to_int_small by lia.
  destruct (Z.gtb_spec k (len s)) as [Hbad | _]; [lia |].
  rewrite wrap_small by (unfold uint_size; lia).
  destruct (Z.eqb_spec (len s - k) 0) as [H0 | Hsplit].
  { eexists. split; [reflexivity |]. apply sort_list_perm. }
  destruct (Window_modify_perm s (len s - k) (len s)
              (sort_list (fun x y => ltb y x)))
    as (s1 & Hs1 & Hp1);
    [intros w; apply sort_list_perm | apply in_bounds_true; lia |].
  unfold sort_Slice. rewrite (bind_ok _ _ _ _ _ Hs1).
  destruct (inplace_loop_perm (Z.to_nat k) (len s - k) (len s) s1)
    as (s2 & Hs2 & Hp2);
    [lia | rewrite (len_perm _ _ Hp1); lia | lia |].
  exists s2. split; [exact Hs2 | now rewrite Hp2].
Qed.

(** The loop of the buffered engine: whatever the prefix [P] holds, the gap
    [G] is filled with the first [c] values of the buffer and nothing of [P]
    or [T] is lost. *)
Lemma buffered_loop_perm buf c :
  forall P G T,
    length G = c -> (c <= length buf)%nat ->
    exists s',
      buffered_loop ltb buf c (len P) (len P + Z.of_nat c) (P ++ G ++ T)
      = Ok tt s' /\ s' ≡ₚ P ++ take c buf ++ T.
Proof.
  induction c as [| c IH]; intros P G T HG Hc.
  { destruct G; [| discriminate]. exists (P ++ T).
    split; reflexivity. }
  destruct G as [| g G']; [discriminate |]. injection HG as HG.
  destruct (lookup_lt_is_Some_2 buf c) as [x Hx]; [lia |].
  assert (Hload : forall s, LoadFrom buf (Z.of_nat (S c) - 1) s = Ok x s).
  { intros s. apply LoadFrom_eq. unfold lookupZ.
    destruct (Z.ltb_spec (Z.of_nat (S c) - 1) 0); [lia |].
    now replace (Z.to_nat (Z.of_nat (S c) - 1)) with c by lia. }
  assert (Htake : take (S c) buf = take c buf ++ [x]) by now apply take_S_r.
  cbn [buffered_loop].
  rewrite (bind_ok _ _ _ _ _ (Hload _)).
  change (P ++ (g :: G') ++ T) with (P ++ g :: G' ++ T).
  rewrite (bind_ok _ _ _ _ _ (Store_middle P _ x g _ eq_refl)).
  pose proof (len_nonneg P) as HPlen.
  destruct (Search_Less_total ltb (P ++ x :: G' ++ T) (len P) (len P))
    as (r & Hsearch & Hr & _);
    [lia | rewrite len_app, len_cons; pose proof (len_nonneg (G' ++ T)); lia |].
  rewrite (bind_ok _ _ _ _ _ Hsearch).
  set (P1 := take (Z.to_nat r) P). set (P2 := drop (Z.to_nat r) P).
  assert (HP : P = P1 ++ P2) by (symmetry; apply take_drop).
  assert (HP1 : len P1 = r).
  { unfold P1, len in *. rewrite length_take. lia. }
  clearbody P1 P2. subst P. rewrite <- HP1 in *. clear HP1 r Hr.
  pose proof (len_nonneg P1) as HP1len. pose proof (len_nonneg P2) as HP2len.
  replace ((P1 ++ P2) ++ x :: G' ++ T) with (P1 ++ (P2 ++ x :: G') ++ T)
    by (now rewrite <- !app_assoc).
  erewrite bind_ok.
  2:{ apply (CopyWithin_block P1 (P2 ++ x :: G') T _ _ _ (Z.of_nat (S c)));
      rewrite ?len_app, ?len_cons; unfold len in *; lia. }
  replace (Z.to_nat (len (P2 ++ x :: G') - Z.of_nat (S c))) with (length P2)
    by (rewrite len_app, len_cons; unfold len; lia).
  rewrite (take_app_length P2).
  destruct (snoc_of_length (take (Z.to_nat (Z.of_nat (S c))) (P2 ++ x :: G')) c)
    as (Q' & q & -> & HQ').
  { rewrite length_take, length_app. simpl. lia. }
  rewrite (bind_ok _ _ _ _ _ (Hload _)).
  replace (P1 ++ (Q' ++ [q]) ++ P2 ++ T) with ((P1 ++ Q') ++ q :: P2 ++ T)
    by (now rewrite <- !app_assoc).
  erewrite bind_ok
    by (apply Store_middle; rewrite len_app; unfold len; lia).
  rewrite <- app_assoc.
  replace (len P1 + Z.of_nat (S c) - 1) with (len P1 + Z.of_nat c) by lia.
  destruct (IH P1 Q' (x :: P2 ++ T)) as (s' & Hs' & Hperm); [lia | lia |].
  exists s'. split; [exact Hs' |].
  rewrite Hperm, Htake, <- !app_assoc. apply Permutation_app_head.
  simpl. rewrite <- !Permutation_middle. apply perm_skip.
  rewrite !app_assoc. apply Permutation_app_tail, Permutation_app_comm.
Qed.

(** The buffered engine on any slice: a rearrangement of the slice, and the
    buffer comes back holding the tail, sorted. *)
Lemma groupInsertAppendSortWithBuf_perm s buf :
  0 < len buf < len s ->
  exists s',
    groupInsertAppendSortWithBuf ltb buf s
    = Ok (sort_list ltb (drop (length s - length buf) s)) s' /\ s' ≡ₚ s.
Proof.
  intros Hk. unfold groupInsertAppendSortWithBuf.
  destruct (Z.gtb_spec (len buf) (len s)) as [Hbad | _]; [lia |].
  destruct (Z.eqb_spec (len s - len buf) 0) as [H0 | Hsplit]; [lia |].
  destruct (prefix_split s (len buf)) as (P & R & Heq & HP & HR & HPtake);
    [lia |].
  assert (HRdrop : drop (length s - length buf) s = R).
  { rewrite Heq. replace (length (P ++ R) - length buf)%nat with (length P).
    - apply drop_app_length.
    - rewrite length_app. unfold len in *. lia. }
  rewrite HRdrop. rewrite <- HP. unfold sort_Sort.
  assert (Hs0 : s = P ++ R ++ []) by now rewrite app_nil_r.
  remember (len s) as n eqn:Hn. rewrite Hs0.
  erewrite bind_ok
    by (apply Window_modify_app; [reflexivity | rewrite HP; lia]).
  set (B := sort_list ltb R).
  assert (HB : length B = length R) by apply sort_list_length.
  assert (HlenB : len B = len buf) by (unfold len in *; lia).
  assert (Hslice : Slice (len P) n (P ++ B ++ []) = Ok B (P ++ B ++ [])).
  { rewrite Slice_total.
    - destruct (window_split P B [] (len P) n)
        as (_ & -> & _); [reflexivity | lia | reflexivity].
    - unfold len. lia.
    - lia.
    - rewrite !len_app, len_nil. lia. }
  rewrite (bind_ok _ _ _ _ _ Hslice).
  rewrite copy_into_same_length by (unfold len in *; lia).
  destruct (buffered_loop_perm B (Z.to_nat (len buf)) P B [])
    as (s' & Hs' & Hperm).
  - unfold len in *. lia.
  - unfold len in *. lia.
  - replace n with (len P + Z.of_nat (Z.to_nat (len buf))) by lia.
    rewrite (bind_ok _ _ _ _ _ Hs').
    exists s'. split; [reflexivity |].
    rewrite Hperm, take_ge by (unfold len in *; lia).
    apply Permutation_app_head. rewrite !app_nil_r. apply sort_list_perm.
Qed.

End AnyInput.
(** ** The heap-merge engine on an arbitrary slice *)

Section HeapAnyInput.
Context {E : Type} (ltb : E -> E -> bool).
Implicit Types (s D L H Rt A C X : list E).

Lemma heap_up_any (fuel : nat) :
  forall j H X,
    0 <= j < len H -> (Z.to_nat j < fuel)%nat ->
    exists H', heap_up ltb fuel j (H ++ X) = Ok tt (H' ++ X) /\ H' ≡ₚ H.
Proof.
  induction fuel as [| fuel IH]; intros j H X Hj Hfuel; [lia |].
  cbn [heap_up].
  destruct (Z.eqb_spec (Z.quot (j - 1) 2) j) as [_ | Hne].
  { exists H. split; reflexivity. }
  assert (Hparent : 0 <= Z.quot (j - 1) 2 < j).
  { destruct (Z.eq_dec j 0) as [-> | Hj0]; [now contradict Hne |].
    rewrite Z.quot_div_nonneg by lia. Z.div_mod_to_equations. lia. }
  set (i := Z.quot (j - 1) 2) in *.
  destruct (lookupZ_in_range H j) as [b Hb]; [lia |].
  destruct (lookupZ_in_range H i) as [a Ha]; [lia |].
  rewrite (bind_ok _ _ _ _ _ (Less_app_l ltb H X j i b a Hb Ha)).
  destruct (ltb b a); cbn [negb].
  2:{ exists H. split; reflexivity. }
  rewrite (bind_ok _ _ _ _ _ (Swap_swap_at H X i j ltac:(lia) ltac:(lia))).
  destruct (IH i (swap_at H i j) X) as (H' & Hrun & Hperm);
    [rewrite len_swap_at; lia | lia |].
  exists H'. split; [exact Hrun |]. rewrite Hperm. apply swap_at_perm.
Qed.

Lemma heap_down_any (fuel : nat) :
  forall i n H X,
    n = len H -> 0 <= i -> (Z.to_nat (n - i) < fuel)%nat ->
    exists H', heap_down ltb fuel i n (H ++ X) = Ok tt (H' ++ X) /\ H' ≡ₚ H.
Proof.
  induction fuel as [| fuel IH]; intros i n H X -> Hi Hfuel; [lia |].
  cbn [heap_down].
  destruct (Z.geb_spec (2 * i + 1) (len H)) as [Hge | Hlt].
  { exists H. split; reflexivity. }
  destruct (Z.ltb_spec (2 * i + 1) 0) as [Hneg | _]; [lia |].
  cbn [orb].
  destruct (lookupZ_in_range H i) as [a Ha]; [lia |].
  destruct (lookupZ_in_range H (2 * i + 1)) as [c1 Hc1]; [lia |].
  assert (Hj : exists j c,
             (if 2 * i + 1 + 1 <? len H
              then let! lt := Less ltb (2 * i + 1 + 1) (2 * i + 1) in
                   ret (if lt then 2 * i + 1 + 1 else 2 * i + 1)
              else ret (2 * i + 1)) (H ++ X) = Ok j (H ++ X) /\
             i < j < len H /\ lookupZ H j = Some c).
  { destruct (Z.ltb_spec (2 * i + 1 + 1) (len H)) as [Hlt2 | Hge2].
    - destruct (lookupZ_in_range H (2 * i + 1 + 1)) as [c2 Hc2]; [lia |].
      rewrite (bind_ok _ _ _ _ _ (Less_app_l ltb H X _ _ c2 c1 Hc2 Hc1)).
      destruct (ltb c2 c1).
      + exists (2 * i + 1 + 1), c2. split; [reflexivity |]. split; [lia | auto].
      + exists (2 * i + 1), c1. split; [reflexivity |]. split; [lia | auto].
    - exists (2 * i + 1), c1. split; [reflexivity |]. split; [lia | auto]. }
  destruct Hj as (j & c & Hjrun & Hjrange & Hc).
  rewrite (bind_ok _ _ _ _ _ Hjrun).
  rewrite (bind_ok _ _ _ _ _ (Less_app_l ltb H X j i c a Hc Ha)).
  destruct (ltb c a); cbn [negb].
  2:{ exists H. split; reflexivity. }
  rewrite (bind_ok _ _ _ _ _ (Swap_swap_at H X i j ltac:(lia) ltac:(lia))).
  destruct (IH j (len H) (swap_at H i j) X) as (H' & Hrun & Hperm);
    [now rewrite len_swap_at | lia | lia |].
  exists H'. split; [exact Hrun |]. rewrite Hperm. apply swap_at_perm.
Qed.

Lemma heap_Pop_any A H C base hlen :
  base = len A -> hlen = len H -> 1 <= hlen ->
  exists h0 H',
    heap_Pop ltb base hlen (A ++ H ++ C)
    = Ok (h0, hlen - 1) (A ++ (H' ++ [h0]) ++ C) /\
    H' ++ [h0] ≡ₚ H /\ len H' = hlen - 1.
Proof.
  intros -> -> Hlen. unfold heap_Pop.
  destruct (lookupZ_in_range H 0) as [h0 Hh0]; [lia |].
  set (n := len H - 1).
  assert (Hn : 0 <= n < len H) by lia.
  set (H1 := swap_at H 0 n).
  assert (HlenH1 : len H1 = n + 1) by (subst H1; rewrite len_swap_at; lia).
  assert (Hlast : lookupZ H1 n = Some h0).
  { subst H1. rewrite lookup_swap_snd by lia. exact Hh0. }
  set (Hn' := take (Z.to_nat n) H1).
  assert (Hsplit : H1 = Hn' ++ [h0]) by now apply snoc_lookup.
  assert (HlenHn : len Hn' = n).
  { subst Hn'. unfold len in *. rewrite length_take. lia. }
  destruct (heap_down_any (Z.to_nat (len H) + 1) 0 n Hn' [h0])
    as (H' & Hrun & Hperm); [now rewrite HlenHn | lia | lia |].
  assert (HlenH' : len H' = n).
  { unfold len in *. rewrite (Permutation_length Hperm). lia. }
  exists h0, H'.
  rewrite Window_app by (reflexivity || lia).
  replace (Swap 0 n ;; _) with
    (fun s => (Swap 0 n ;;
               heap_down ltb (Z.to_nat (len H) + 1) 0 n ;;
               let! x := Load n in ret (x, n)) s) by reflexivity.
  cbv beta.
  rewrite <- (app_nil_r H) at 1.
  rewrite (bind_ok _ _ _ _ _ (Swap_swap_at H [] 0 n ltac:(lia) Hn)).
  rewrite app_nil_r. fold H1. rewrite Hsplit.
  rewrite (bind_ok _ _ _ _ _ Hrun).
  rewrite (bind_ok _ _ _ _ _ (Load_eq (H' ++ [h0]) n h0
                                ltac:(now apply lookupZ_middle))).
  unfold ret. split; [reflexivity |]. split; [| exact HlenH'].
  rewrite Hperm, <- Hsplit. apply swap_at_perm.
Qed.

Lemma heap_Push_any A H C (g x : E) base hlen :
  base = len A -> hlen = len H ->
  exists H',
    heap_Push ltb base hlen x (A ++ H ++ g :: C)
    = Ok (hlen + 1) (A ++ H' ++ C) /\
    H' ≡ₚ x :: H /\ len H' = hlen + 1.
Proof.
  intros -> ->. unfold heap_Push.
  pose proof (len_nonneg H) as HlenH.
  rewrite app_assoc.
  rewrite (bind_ok _ _ _ _ _ (Store_middle (A ++ H) C x g _
                                ltac:(now rewrite len_app))).
  destruct (heap_up_any (Z.to_nat (len H) + 1) (len H) (H ++ [x]) [])
    as (H' & Hrun & Hperm).
  { unfold len. rewrite length_app. simpl. lia. }
  { lia. }
  rewrite !app_nil_r in Hrun.
  replace ((A ++ H) ++ x :: C) with (A ++ (H ++ [x]) ++ C)
    by (now rewrite <- !app_assoc).
  erewrite bind_ok.
  2:{ rewrite Window_app
        by (reflexivity || (unfold len; rewrite length_app; simpl; lia)).
      rewrite Hrun. reflexivity. }
  exists H'. unfold ret. split; [reflexivity |]. split.
  - rewrite Hperm. symmetry. apply Permutation_cons_append.
  - unfold len in *. rewrite (Permutation_length Hperm), length_app. simpl. lia.
Qed.

(** The main pass on any slice [D ++ L ++ H ++ Rt]: whatever the comparisons
    answer, every read and write stays inside the slice, the heap window
    stays between the prefix and a non-empty remainder, and the elements are
    only moved. *)
Lemma heap_loop_any (iters : nat) :
  forall D L H Rt (splitIdx n idx hlen rightIdx : Z) (hasHeap : bool),
    List.length L = iters -> Rt <> [] ->
    splitIdx = len D + len L -> n = len (D ++ L ++ H ++ Rt) ->
    idx = len D -> hlen = len H -> rightIdx = splitIdx + len H ->
    hasHeap = (0 <? len H) ->
    exists D' H' Rt',
      heap_loop ltb iters splitIdx n idx hlen rightIdx true hasHeap
        (D ++ L ++ H ++ Rt)
      = Ok (len H', splitIdx + len H') (D' ++ H' ++ Rt') /\
      len D' = splitIdx /\ Rt' <> [] /\
      D' ++ H' ++ Rt' ≡ₚ D ++ L ++ H ++ Rt.
Proof.
  induction iters as [| iters IH];
    intros D L H Rt splitIdx n idx hlen rightIdx hasHeap
      HL HRt Hsplit Hlength -> -> -> ->.
  { destruct L; [| discriminate]. exists D, H, Rt. cbn [heap_loop]. unfold ret.
    simpl in *. repeat split; auto. solve_len. }
  destruct L as [| l0 L']; [discriminate |]. injection HL as HL.
  destruct Rt as [| r0 Rt0]; [contradiction |].
  cbn [heap_loop]. cbn [negb andb].
  set (s := D ++ (l0 :: L') ++ H ++ r0 :: Rt0).
  assert (Hidx : lookupZ s (len D) = Some l0).
  { subst s. now apply lookupZ_middle. }
  assert (Hright : lookupZ s (splitIdx + len H) = Some r0).
  { subst s. rewrite !app_assoc. apply lookupZ_middle. solve_len. }
  assert (Hadv : forall d H2 Rt2 hlen rightIdx hasRight hasHeap,
             hlen = len H2 -> rightIdx = splitIdx + len H2 ->
             hasRight = true -> hasHeap = (0 <? len H2) ->
             Rt2 <> [] ->
             d :: L' ++ H2 ++ Rt2 ≡ₚ (l0 :: L') ++ H ++ r0 :: Rt0 ->
             exists D' H' Rt',
               heap_loop ltb iters splitIdx n (len D + 1) hlen
                 rightIdx hasRight hasHeap
                 (D ++ d :: L' ++ H2 ++ Rt2)
               = Ok (len H', splitIdx + len H') (D' ++ H' ++ Rt') /\
               len D' = splitIdx /\ Rt' <> [] /\
               D' ++ H' ++ Rt' ≡ₚ D ++ (l0 :: L') ++ H ++ r0 :: Rt0).
  { intros d H2 Rt2 ? ? ? ? -> -> -> -> HRt2 Hperm.
    assert (Hn' : n = len ((D ++ [d]) ++ L' ++ H2 ++ Rt2)).
    { rewrite Hlength. unfold len.
      rewrite <- app_assoc. cbn [app].
      change (D ++ d :: L' ++ H2 ++ Rt2) with (D ++ (d :: L' ++ H2 ++ Rt2)).
      rewrite (length_app D), (length_app D).
      now rewrite (Permutation_length Hperm). }
    destruct (IH (D ++ [d]) L' H2 Rt2 splitIdx n (len D + 1) (len H2)
                (splitIdx + len H2) (0 <? len H2)
                HL HRt2 ltac:(solve_len) Hn' ltac:(solve_len) eq_refl eq_refl
                eq_refl)
      as (D' & H' & Rt' & Hrun & HlenD' & HRt'ne & Hperm').
    exists D', H', Rt'.
    rewrite <- app_assoc in Hrun. simpl in Hrun.
    split; [exact Hrun |]. repeat (split; [assumption |]).
    rewrite Hperm', <- app_assoc. simpl.
    apply Permutation_app_head. exact Hperm. }
  clear IH. pose proof (len_nonneg H) as HlenH0.
  assert (Hsplit' : splitIdx = len (D ++ l0 :: L')) by solve_len.
  assert (HaH : exists aH,
             (if 0 <? len H then Less ltb splitIdx (len D) else ret false) s
             = Ok aH s /\ (aH = true -> 1 <= len H)).
  { destruct (Z.ltb_spec 0 (len H)) as [Hne | Hempty].
    - destruct (lookupZ_in_range H 0) as [h0 Hh0]; [lia |].
      assert (Hs0 : lookupZ s splitIdx = Some h0).
      { subst s. rewrite app_assoc, lookupZ_app_r by lia.
        rewrite Hsplit', Z.sub_diag, lookupZ_app_l by lia. exact Hh0. }
      exists (ltb h0 l0). split; [now apply Less_eq | lia].
    - exists false. split; [reflexivity | discriminate]. }
  destruct HaH as (aH & HaHrun & HaHt).
  rewrite (bind_ok _ _ _ _ _ HaHrun).
  rewrite (bind_ok _ _ _ _ _ (Less_eq ltb s _ _ r0 l0 Hright Hidx)).
  destruct (negb (ltb r0 l0) && negb aH) eqn:Hnone.
  { apply (Hadv l0 H (r0 :: Rt0)); auto. }
  rewrite (bind_ok _ _ _ _ _ (Load_eq s (len D) l0 Hidx)).
  assert (HfH : exists fH,
             (if aH
              then if negb (ltb r0 l0) then ret true
                   else Less ltb splitIdx (splitIdx + len H)
              else ret false) s = Ok fH s /\
             (fH = true -> 1 <= len H)).
  { destruct aH.
    - specialize (HaHt eq_refl).
      destruct (ltb r0 l0) eqn:HaR; cbn [negb].
      + destruct (lookupZ_in_range H 0) as [h0 Hh0]; [lia |].
        assert (Hs0 : lookupZ s splitIdx = Some h0).
        { subst s. rewrite app_assoc, lookupZ_app_r by lia.
          rewrite Hsplit', Z.sub_diag, lookupZ_app_l by lia. exact Hh0. }
        exists (ltb h0 r0). split; [now apply Less_eq | auto].
      + exists true. split; [reflexivity | auto].
    - exists false. split; [reflexivity | discriminate]. }
  destruct HfH as (fH & HfHrun & HfHt).
  rewrite (bind_ok _ _ _ _ _ HfHrun).
  destruct fH.
  - (* the next element comes from the heap *)
    specialize (HfHt eq_refl).
    destruct (heap_Pop_any (D ++ l0 :: L') H (r0 :: Rt0)
                splitIdx (len H) Hsplit' eq_refl HfHt)
      as (h0 & H1 & Hpop & Hperm1 & HlenH1).
    rewrite bind_assoc.
    subst s. rewrite app_assoc.
    rewrite (bind_ok _ _ _ _ _ Hpop). cbv beta iota. rewrite bind_assoc.
    rewrite <- !app_assoc.
    change ((l0 :: L') ++ H1 ++ [h0] ++ r0 :: Rt0)
      with (l0 :: L' ++ H1 ++ [h0] ++ r0 :: Rt0).
    rewrite (bind_ok _ _ _ _ _ (Store_middle D _ h0 l0 _ eq_refl)).
    rewrite bind_ret_l. cbv beta iota.
    destruct (ltb r0 l0) eqn:HaR; cbn [negb].
    + destruct (heap_Push_any (D ++ h0 :: L') H1 (r0 :: Rt0) h0 l0
                  splitIdx (len H - 1))
        as (H2 & Hpush & Hperm2 & HlenH2); [solve_len | lia |].
      replace (D ++ h0 :: L' ++ H1 ++ [h0] ++ r0 :: Rt0)
        with ((D ++ h0 :: L') ++ H1 ++ h0 :: r0 :: Rt0)
        by (now rewrite <- !app_assoc).
      rewrite (bind_ok _ _ _ _ _ Hpush).
      rewrite <- app_assoc. cbn [app].
      apply (Hadv h0 H2 (r0 :: Rt0)); auto; try lia;
        try (symmetry; apply Z.ltb_lt; lia).
      rewrite Hperm2, <- Hperm1. solve_Permutation.
    + replace (D ++ h0 :: L' ++ H1 ++ [h0] ++ r0 :: Rt0)
        with ((D ++ h0 :: L' ++ H1) ++ h0 :: r0 :: Rt0)
        by (list_norm; reflexivity).
      erewrite bind_ok by (apply Store_middle; solve_len).
      list_norm.
      apply (Hadv h0 H1 (l0 :: r0 :: Rt0)); auto; try lia;
        try (now rewrite HlenH1).
      rewrite <- Hperm1. solve_Permutation.
  - (* the next element comes from the sorted remainder *)
    assert (HaR' : exists aR',
               (if splitIdx + len H + 1 <? n
                then Less ltb (splitIdx + len H + 1) (len D)
                else ret false) s = Ok aR' s /\
               (aR' = true -> exists r1 Rt1, Rt0 = r1 :: Rt1)).
    { destruct Rt0 as [| r1 Rt1].
      - destruct (Z.ltb_spec (splitIdx + len H + 1) n) as [Hlt | _];
          [solve_len |].
        exists false. split; [reflexivity | discriminate].
      - destruct (Z.ltb_spec (splitIdx + len H + 1) n) as [_ | Hge];
          [| solve_len].
        assert (Hr1 : lookupZ s (splitIdx + len H + 1) = Some r1).
        { subst s.
          replace (D ++ (l0 :: L') ++ H ++ r0 :: r1 :: Rt1)
            with ((D ++ (l0 :: L') ++ H ++ [r0]) ++ r1 :: Rt1)
            by (list_norm; reflexivity).
          apply lookupZ_middle. solve_len. }
        exists (ltb r1 l0). split; [now apply Less_eq | eauto]. }
    destruct HaR' as (aR' & HaR'run & HaR't).
    rewrite bind_assoc. rewrite (bind_ok _ _ _ _ _ HaR'run).
    rewrite bind_assoc.
    rewrite (bind_ok _ _ _ _ _ (Load_eq s _ r0 Hright)).
    rewrite bind_assoc. subst s.
    change (D ++ (l0 :: L') ++ H ++ r0 :: Rt0)
      with (D ++ l0 :: L' ++ H ++ r0 :: Rt0).
    rewrite (bind_ok _ _ _ _ _ (Store_middle D _ r0 l0 _ eq_refl)).
    rewrite bind_ret_l. cbv beta iota.
    destruct aR'; cbn [negb].
    + destruct (HaR't eq_refl) as (r1 & Rt1 & ->).
      assert (Hmore : (splitIdx + len H + 1 <? n) = true).
      { apply Z.ltb_lt. solve_len. }
      destruct (heap_Push_any (D ++ r0 :: L') H (r1 :: Rt1) r0 l0
                  splitIdx (len H))
        as (H2 & Hpush & Hperm2 & HlenH2); [solve_len | reflexivity |].
      replace (D ++ r0 :: L' ++ H ++ r0 :: r1 :: Rt1)
        with ((D ++ r0 :: L') ++ H ++ r0 :: r1 :: Rt1)
        by (list_norm; reflexivity).
      rewrite (bind_ok _ _ _ _ _ Hpush). list_norm.
      apply (Hadv r0 H2 (r1 :: Rt1)); auto; try lia;
        try (symmetry; apply Z.ltb_lt; lia).
      rewrite Hperm2. solve_Permutation.
    + replace (D ++ r0 :: L' ++ H ++ r0 :: Rt0)
        with ((D ++ r0 :: L' ++ H) ++ r0 :: Rt0)
        by (list_norm; reflexivity).
      erewrite bind_ok by (apply Store_middle; solve_len).
      list_norm.
      apply (Hadv r0 H (l0 :: Rt0)); auto; try lia.
      solve_Permutation.
Qed.

End HeapAnyInput.

Section HeapEngineAnyInput.
Context {E : Type} (ltb : E -> E -> bool).
Implicit Types (s : list E).

(** On any slice the engine ends normally: the comparison before the
    binary search rules out the "should not happen" panic, the main pass
    stays inside the slice, and the recursion is well nested. *)
Lemma heapAppendSort_any (fuel : nat) :
  forall (k : Z) s,
    (List.length s < fuel)%nat -> 0 <= k <= len s -> len s < 2 ^ 63 ->
    exists log s',
      heapAppendSort ltb fuel k s = Ok log s' /\ s' ≡ₚ s /\
      well_nested k log.
Proof.
  induction fuel as [| fuel IH]; intros k s Hfuel Hk Hs; [lia |].
  cbn [heapAppendSort].
  destruct (Z.eqb_spec k 0) as [-> | Hk0].
  { exists [], s. repeat split; auto. }
  rewrite to_int_small by lia.
  destruct (Z.eqb_spec (len s - k) 0) as [H0 | Hsplit].
  { exists [], (sort_list ltb s). split; [reflexivity |].
    split; [apply sort_list_perm | exact I]. }
  destruct (prefix_split s k) as (P & R & Heq & HP & HR & HPtake); [lia |].
  set (B := sort_list ltb R).
  assert (HBp : B ≡ₚ R) by apply sort_list_perm.
  assert (HlenB : len B = k).
  { unfold len in *. rewrite (Permutation_length HBp). lia. }
  assert (Hperm0 : P ++ B ≡ₚ s) by (rewrite Heq; now apply Permutation_app_head).
  set (splitIdx := len s - k) in *.
  set (n := len s) in *.
  assert (Hwin : Window splitIdx n (sort_Sort ltb) s = Ok tt (P ++ B)).
  { rewrite Heq. rewrite <- (app_nil_r R) at 1.
    unfold sort_Sort. rewrite Window_modify_app by lia.
    now rewrite app_nil_r. }
  rewrite (bind_ok _ _ _ _ _ Hwin).
  assert (HlenPB : len (P ++ B) = n).
  { unfold n, len. now rewrite (Permutation_length Hperm0). }
  assert (HPne : 0 < len P) by (pose proof (len_nonneg P); lia).
  rewrite (bind_ok _ _ _ _ _ (Less_in_range ltb (P ++ B) splitIdx (splitIdx - 1)
                                ltac:(lia) ltac:(lia))).
  destruct (less_at ltb (P ++ B) splitIdx (splitIdx - 1)) eqn:Hlt; cbn [negb].
  2:{ exists [], (P ++ B). repeat split; auto. }
  destruct (Search_Less_total ltb (P ++ B) splitIdx splitIdx)
    as (r & Hsearch & Hr & Hlow & _); [lia | lia |].
  rewrite (bind_ok _ _ _ _ _ Hsearch).
  destruct (Z.geb_spec r splitIdx) as [Hbad | Hrlt].
  { exfalso. assert (r = splitIdx) as -> by lia.
    destruct Hlow as [? | Hlow]; [lia | congruence]. }
  set (P1 := take (Z.to_nat r) P). set (P2 := drop (Z.to_nat r) P).
  assert (HP12 : P = P1 ++ P2) by (symmetry; apply take_drop).
  assert (HlenP1 : len P1 = r).
  { unfold P1, len in *. rewrite length_take. lia. }
  assert (HlenP2 : len P2 = splitIdx - r).
  { unfold P2, len in *. rewrite length_drop. lia. }
  clearbody P1 P2.
  assert (HBne : B <> []).
  { intros HB. rewrite HB in HlenB. unfold len in HlenB. simpl in HlenB. lia. }
  destruct (heap_loop_any ltb (Z.to_nat (splitIdx - r)) P1 P2 [] B
              splitIdx n r 0 splitIdx false)
    as (D' & H' & Rt' & Hrun & HlenD' & HRt'ne & Hperm');
    [unfold len in *; lia | exact HBne | lia
    | cbn [app]; rewrite app_assoc, <- HP12; now symmetry
    | now symmetry | reflexivity | unfold len; simpl; lia | reflexivity |].
  cbn [app] in Hrun. rewrite HP12, <- app_assoc. rewrite (bind_ok _ _ _ _ _ Hrun).
  cbv beta iota.
  assert (Hperm1 : D' ++ H' ++ Rt' ≡ₚ s).
  { rewrite Hperm', <- Hperm0, HP12. cbn [app]. now rewrite <- app_assoc. }
  clear Hrun Hsearch.
  assert (Hlens : len H' + len Rt' = k).
  { pose proof (Permutation_length Hperm1) as Hl.
    rewrite !length_app in Hl. unfold len in *. lia. }
  pose proof (len_nonneg H') as HlenH'. pose proof (len_nonneg Rt') as HlenRt'.
  destruct (Z.eqb_spec (len H') 0) as [Hz | Hnz].
  { exists [], (D' ++ H' ++ Rt'). repeat split; auto. }
  destruct Rt' as [| r0 Rt0]; [contradiction |].
  assert (HlenRt : 0 < len (r0 :: Rt0)).
  { rewrite len_cons. pose proof (len_nonneg Rt0). lia. }
  assert (Hsorted : exists b,
             (if len H' =? 1 then Less ltb splitIdx (splitIdx + len H')
              else ret false) (D' ++ H' ++ r0 :: Rt0)
             = Ok b (D' ++ H' ++ r0 :: Rt0)).
  { destruct (Z.eqb_spec (len H') 1) as [H1 | _].
    - eexists. apply Less_in_range; rewrite !len_app; lia.
    - exists false. reflexivity. }
  destruct Hsorted as (b & Hbrun).
  rewrite (bind_ok _ _ _ _ _ Hbrun).
  destruct b.
  { exists [], (D' ++ H' ++ r0 :: Rt0). repeat split; auto. }
  assert (Hwindow : forall (f : list E -> list E),
             Window splitIdx n (modify f) (D' ++ H' ++ r0 :: Rt0)
             = Ok tt (D' ++ f (H' ++ r0 :: Rt0))).
  { intros f. rewrite <- (app_nil_r (H' ++ r0 :: Rt0)) at 1.
    rewrite Window_modify_app.
    - now rewrite app_nil_r.
    - now symmetry.
    - rewrite len_app. rewrite Hlens. subst splitIdx. lia. }
  destruct (HeapPkg.shouldUseAppended k (len H')) eqn:Hsel; cbn [negb].
  2:{ (* the full sort of the residual window *)
      exists [FullSort k (len H')], (D' ++ sort_list ltb (H' ++ r0 :: Rt0)).
      unfold sort_Sort.
      rewrite (bind_ok _ _ _ _ _ (Hwindow _)). split; [reflexivity |].
      split; [now rewrite sort_list_perm |].
      cbn. repeat split; lia. }
  (* the recursive call on the rotated residual window *)
  unfold slices_Rotate. rewrite (bind_ok _ _ _ _ _ (Hwindow _)).
  replace (k - len H') with (len (r0 :: Rt0)) by lia.
  rewrite rotate_right_block.
  destruct (IH (len H') ((r0 :: Rt0) ++ H')) as (log & s2 & Hrec & Hp2 & Hnest).
  - pose proof (Permutation_length Hperm0) as Hl.
    pose proof (Permutation_length Hperm1) as Hl1.
    rewrite !length_app in *. unfold len in *. cbn [List.length] in *. lia.
  - rewrite len_app. lia.
  - rewrite len_app. lia.
  - exists (Recurse k (len H') :: log), (D' ++ s2).
    rewrite <- (app_nil_r ((r0 :: Rt0) ++ H')) at 1.
    erewrite bind_ok.
    2:{ rewrite Window_app.
        - rewrite Hrec. reflexivity.
        - now symmetry.
        - rewrite len_app. subst splitIdx. lia. }
    unfold ret. rewrite app_nil_r. split; [reflexivity |]. split.
    + rewrite Hp2, <- Hperm1. apply Permutation_app_head, Permutation_app_comm.
    + cbn. split; [reflexivity |]. split; [lia |]. split; [| exact Hnest].
      apply heap_selector_eighth; [lia | exact Hsel].
Qed.

End HeapEngineAnyInput.

(** A well-nested log is short: every recursive call divides the tail by
    more than eight. *)
Lemma well_nested_depth (k : Z) (log : list residual) :
  0 < k -> well_nested k log -> 8 ^ len log <= 8 * k.
Proof.
  revert k. induction log as [| [t h | t h] rest IH]; intros k Hk Hn.
  - unfold len. simpl. lia.
  - destruct Hn as (-> & Hh & H8 & Hrest).
    specialize (IH h Hh Hrest). rewrite len_cons.
    rewrite Z.pow_add_r by (pose proof (len_nonneg rest); lia). lia.
  - destruct Hn as (-> & Hh & ->). unfold len. simpl. lia.
Qed.
(** ** The entry points on an arbitrary slice, and the edge cases of the
    engines *)

Section AnySliceEntry.
Context {E : Type} (ltb : E -> E -> bool).
Implicit Types (s buf : list E) (k : Z).

Lemma groupInsertAppendSort_empty_tail s :
  len s < 2 ^ 63 -> groupInsertAppendSort ltb 0 s = Ok tt s.
Proof.
  intros Hs. pose proof (len_nonneg s) as H0. unfold groupInsertAppendSort.
  rewrite to_int_small by lia.
  destruct (Z.gtb_spec 0 (len s)) as [Hbad | _]; [lia |].
  rewrite Z.sub_0_r, wrap_small by (unfold uint_size; lia).
  destruct (Z.eqb_spec (len s) 0) as [Hz | Hnz].
  { assert (s = []) as -> by (apply length_zero_iff_nil; unfold len in Hz; lia).
    reflexivity. }
  unfold sort_Slice.
  assert (Hs0 : s = s ++ [] ++ []) by now rewrite !app_nil_r.
  rewrite Hs0 at 3.
  erewrite bind_ok by (apply Window_modify_app; [reflexivity | unfold len; simpl; lia]).
  cbn [sort_list]. rewrite <- Hs0. reflexivity.
Qed.

Lemma groupInsertAppendSortWithBuf_empty_tail s :
  groupInsertAppendSortWithBuf ltb [] s = Ok [] s.
Proof.
  pose proof (len_nonneg s) as H0. unfold groupInsertAppendSortWithBuf.
  change (len (@nil E)) with 0.
  destruct (Z.gtb_spec 0 (len s)) as [Hbad | _]; [lia |].
  rewrite Z.sub_0_r.
  destruct (Z.eqb_spec (len s) 0) as [Hz | Hnz].
  { assert (s = []) as -> by (apply length_zero_iff_nil; unfold len in Hz; lia).
    reflexivity. }
  unfold sort_Sort.
  assert (Hs0 : s = s ++ [] ++ []) by now rewrite !app_nil_r.
  rewrite Hs0 at 3.
  erewrite bind_ok by (apply Window_modify_app; [reflexivity | unfold len; simpl; lia]).
  cbn [sort_list]. rewrite <- Hs0.
  rewrite (bind_ok _ _ _ _ _ (Slice_total s (len s) (len s)
                                ltac:(lia) ltac:(lia) ltac:(lia))).
  rewrite Z.sub_diag. change (Z.to_nat 0) with 0%nat. rewrite take_0.
  reflexivity.
Qed.

Lemma groupInsertAppendSortWithBuf_whole s buf :
  len buf = len s ->
  groupInsertAppendSortWithBuf ltb buf s = Ok buf (sort_list ltb s).
Proof.
  intros Hk. unfold groupInsertAppendSortWithBuf. rewrite Hk.
  destruct (Z.gtb_spec (len s) (len s)) as [Hbad | _]; [lia |].
  now rewrite Z.sub_diag.
Qed.

Lemma Appended_perm s k :
  0 <= k <= len s -> len s < 2 ^ 63 ->
  exists s', Appended ltb k s = Ok tt s' /\ s' ≡ₚ s.
Proof.
  intros Hk Hs. unfold Appended.
  destruct (Z.eqb_spec k 0) as [-> | Hk0]; [eauto |].
  destruct (shouldUseAppended (len s) k); simpl.
  2:{ destruct (Z.gtb_spec k (len s)); [lia |].
      eexists. split; [reflexivity |]. apply sort_list_perm. }
  apply groupInsertAppendSort_perm; lia.
Qed.

Lemma AppendedWithBuf_perm s buf :
  len buf <= len s ->
  exists s',
    AppendedWithBuf ltb buf s
    = Ok (if shouldUseAppendedWithBuf (len s) (len buf) && (len buf <? len s)
          then sort_list ltb (drop (length s - length buf) s)
          else buf) s' /\
    s' ≡ₚ s.
Proof.
  intros Hk. pose proof (len_nonneg buf) as H0. unfold AppendedWithBuf.
  destruct (Z.eqb_spec (len buf) 0) as [Hz | Hk0].
  { exists s. split; [| reflexivity].
    assert (buf = []) as -> by (apply length_zero_iff_nil; unfold len in Hz; lia).
    destruct (_ && _); [| reflexivity].
    cbn [length]. now rewrite Nat.sub_0_r, drop_all. }
  destruct (shouldUseAppendedWithBuf (len s) (len buf)); cbn [negb andb].
  2:{ destruct (Z.gtb_spec (len buf) (len s)); [lia |].
      eexists. split; [reflexivity |]. apply sort_list_perm. }
  destruct (Z.ltb_spec (len buf) (len s)) as [Hlt | Hge].
  - apply groupInsertAppendSortWithBuf_perm. lia.
  - rewrite groupInsertAppendSortWithBuf_whole by lia.
    eexists. split; [reflexivity |]. apply sort_list_perm.
Qed.

Lemma groupInsertAppendSortWithBuf_perm_any s buf :
  len buf <= len s ->
  exists buf' s',
    groupInsertAppendSortWithBuf ltb buf s = Ok buf' s' /\ s' ≡ₚ s.
Proof.
  intros Hk. pose proof (len_nonneg buf) as H0.
  destruct (Z.eq_dec (len buf) 0) as [Hz | Hnz].
  { assert (buf = []) as -> by (apply length_zero_iff_nil; unfold len in Hz; lia).
    exists [], s. split; [apply groupInsertAppendSortWithBuf_empty_tail | reflexivity]. }
  destruct (Z.eq_dec (len buf) (len s)) as [Hw | Hnw].
  { exists buf, (sort_list ltb s).
    split; [now apply groupInsertAppendSortWithBuf_whole | apply sort_list_perm]. }
  destruct (groupInsertAppendSortWithBuf_perm ltb s buf) as (s' & Hrun & Hperm);
    [lia | eauto].
Qed.

Lemma Appended_TailTooLong s k :
  len s < k < 2 ^ 63 ->
  Appended ltb k s = Panic TailTooLong s /\
  groupInsertAppendSort ltb k s = Panic TailTooLong s.
Proof.
  intros Hk. pose proof (len_nonneg s) as H0.
  assert (Hengine : groupInsertAppendSort ltb k s = Panic TailTooLong s).
  { unfold groupInsertAppendSort. rewrite to_int_small by lia.
    destruct (Z.gtb_spec k (len s)); [reflexivity | lia]. }
  split; [| exact Hengine]. unfold Appended.
  destruct (Z.eqb_spec k 0) as [-> | _]; [lia |].
  destruct (shouldUseAppended (len s) k); simpl; [exact Hengine |].
  destruct (Z.gtb_spec k (len s)); [reflexivity | lia].
Qed.

Lemma AppendedWithBuf_TailTooLong s buf :
  len s < len buf ->
  AppendedWithBuf ltb buf s = Panic TailTooLong s /\
  groupInsertAppendSortWithBuf ltb buf s = Panic TailTooLong s.
Proof.
  intros Hk. pose proof (len_nonneg s) as H0.
  assert (Hengine : groupInsertAppendSortWithBuf ltb buf s = Panic TailTooLong s).
  { unfold groupInsertAppendSortWithBuf.
    destruct (Z.gtb_spec (len buf) (len s)); [reflexivity | lia]. }
  split; [| exact Hengine]. unfold AppendedWithBuf.
  destruct (Z.eqb_spec (len buf) 0) as [Hz | _]; [lia |].
  destruct (shouldUseAppendedWithBuf (len s) (len buf)); simpl; [exact Hengine |].
  destruct (Z.gtb_spec (len buf) (len s)); [reflexivity | lia].
Qed.

End AnySliceEntry.

(** X5: on every slice of a length a Go slice can have, with a sorted
    prefix or not, and for every [0 <= tailLength <= len s], [Appended] and
    [groupInsertAppendSort] return normally and leave a rearrangement of the
    elements of the slice: no element is lost or duplicated. *)
Theorem Appended_permutes_any_slice {E} (ltb : E -> E -> bool)
  (s : list E) (k : Z) :
  0 <= k <= len s -> len s < 2 ^ 63 ->
  (exists s', Appended ltb k s = Ok tt s' /\ s' ≡ₚ s) /\
  (exists s', groupInsertAppendSort ltb k s = Ok tt s' /\ s' ≡ₚ s).
Proof.
  intros Hk Hs. split.
  - now apply Appended_perm.
  - now apply groupInsertAppendSort_perm.
Qed.

Lemma Appended_permutes_any_slice_witness :
  (exists s', Appended Z.ltb 3 [9; 1; 7; 2; 8; 0; 5; 5; 3; 4; 6; 1; 0]
              = Ok tt s' /\
              s' ≡ₚ [9; 1; 7; 2; 8; 0; 5; 5; 3; 4; 6; 1; 0]) /\
  (exists s', groupInsertAppendSort Z.ltb 3
                [9; 1; 7; 2; 8; 0; 5; 5; 3; 4; 6; 1; 0] = Ok tt s' /\
              s' ≡ₚ [9; 1; 7; 2; 8; 0; 5; 5; 3; 4; 6; 1; 0]).
Proof.
  apply (Appended_permutes_any_slice Z.ltb
           [9; 1; 7; 2; 8; 0; 5; 5; 3; 4; 6; 1; 0] 3);
    vm_compute; intuition congruence.
Defined.

(** X6: on every slice and for every buffer with [len buf <= len s],
    [AppendedWithBuf] and [groupInsertAppendSortWithBuf] return normally and
    leave a rearrangement of the slice.  The buffer of [AppendedWithBuf]
    comes back holding the tail of the slice as it was passed in, sorted,
    when the selector accepts a tail shorter than the slice, and untouched
    otherwise. *)
Theorem AppendedWithBuf_permutes_any_slice {E} (ltb : E -> E -> bool)
  (s buf : list E) :
  len buf <= len s ->
  (exists s',
     AppendedWithBuf ltb buf s
     = Ok (if shouldUseAppendedWithBuf (len s) (len buf) && (len buf <? len s)
           then sort_list ltb (drop (length s - length buf) s)
           else buf) s' /\
     s' ≡ₚ s) /\
  (exists buf' s',
     groupInsertAppendSortWithBuf ltb buf s = Ok buf' s' /\ s' ≡ₚ s).
Proof.
  intros Hk. split.
  - now apply AppendedWithBuf_perm.
  - now apply groupInsertAppendSortWithBuf_perm_any.
Qed.

Lemma AppendedWithBuf_permutes_any_slice_witness :
  (exists s',
     AppendedWithBuf Z.ltb [0; 0; 0] [9; 1; 7; 2; 8; 0; 5; 5; 3; 4; 6; 1; 0]
     = Ok [0; 1; 6] s' /\
     s' ≡ₚ [9; 1; 7; 2; 8; 0; 5; 5; 3; 4; 6; 1; 0]) /\
  (exists buf' s',
     groupInsertAppendSortWithBuf Z.ltb [0; 0; 0]
       [9; 1; 7; 2; 8; 0; 5; 5; 3; 4; 6; 1; 0] = Ok buf' s' /\
     s' ≡ₚ [9; 1; 7; 2; 8; 0; 5; 5; 3; 4; 6; 1; 0]).
Proof.
  apply (AppendedWithBuf_permutes_any_slice Z.ltb
           [9; 1; 7; 2; 8; 0; 5; 5; 3; 4; 6; 1; 0] [0; 0; 0]).
  vm_compute. intuition congruence.
Defined.

(** X7: on every slice of a length a Go slice can have, with a sorted
    prefix or not, and for every [0 <= tailLength <= len s],
    [heapAppendSort] returns normally and leaves a rearrangement of the
    slice; in particular its "should not happen" panic and every index
    panic are out of reach. *)
Theorem heapAppendSort_permutes_any_slice {E} (ltb : E -> E -> bool)
  (fuel : nat) (s : list E) (k : Z) :
  0 <= k <= len s -> len s < 2 ^ 63 -> (length s < fuel)%nat ->
  exists log s', heapAppendSort ltb fuel k s = Ok log s' /\ s' ≡ₚ s.
Proof.
  intros Hk Hs Hfuel.
  destruct (heapAppendSort_any ltb fuel k s Hfuel Hk Hs)
    as (log & s' & Hrun & Hperm & _).
  eauto.
Qed.

Lemma heapAppendSort_permutes_any_slice_witness :
  exists log s',
    heapAppendSort Z.ltb 14 3 [9; 1; 7; 2; 8; 0; 5; 5; 3; 4; 6; 1; 0]
    = Ok log s' /\
    s' ≡ₚ [9; 1; 7; 2; 8; 0; 5; 5; 3; 4; 6; 1; 0].
Proof.
  apply (heapAppendSort_permutes_any_slice Z.ltb 14
           [9; 1; 7; 2; 8; 0; 5; 5; 3; 4; 6; 1; 0] 3);
    vm_compute; try lia; intuition congruence.
Defined.

(** X8: the recursion of [heapAppendSort] is well nested: each recursive
    call is made for the heap that the call before it left, that heap is
    not empty and holds less than an eighth of the tail of that call; the
    full sort of a residual window ends the recursion. *)
Theorem heapAppendSort_recursion_shrinks {E} (ltb : E -> E -> bool)
  (fuel : nat) (s s' : list E) (k : Z) (log : list residual) :
  0 <= k <= len s -> len s < 2 ^ 63 -> (length s < fuel)%nat ->
  heapAppendSort ltb fuel k s = Ok log s' ->
  well_nested k log.
Proof.
  intros Hk Hs Hfuel Hrun.
  destruct (heapAppendSort_any ltb fuel k s Hfuel Hk Hs)
    as (log0 & s0 & Hrun0 & _ & Hnest).
  rewrite Hrun in Hrun0. now injection Hrun0 as -> _.
Qed.

Lemma heapAppendSort_recursion_shrinks_witness :
  well_nested 9 [Recurse 9 1].
Proof.
  apply (heapAppendSort_recursion_shrinks Z.ltb 11
           [7; 8; 6; 4; 0; 2; 3; 0; 3; 7] [0; 0; 2; 3; 3; 4; 6; 7; 7; 8]
           9 [Recurse 9 1]);
    vm_compute; try lia; intuition congruence.
Defined.

(** X9: the recursion of [heapAppendSort] is shallow: a call with tail
    length [k > 0] handles at most [1 + log8 k] residual windows, that is
    [8 ^ (number of residual decisions) <= 8 * k]. *)
Theorem heapAppendSort_recursion_depth {E} (ltb : E -> E -> bool)
  (fuel : nat) (s s' : list E) (k : Z) (log : list residual) :
  0 < k <= len s -> len s < 2 ^ 63 -> (length s < fuel)%nat ->
  heapAppendSort ltb fuel k s = Ok log s' ->
  8 ^ len log <= 8 * k.
Proof.
  intros Hk Hs Hfuel Hrun.
  destruct (heapAppendSort_any ltb fuel k s Hfuel ltac:(lia) Hs)
    as (log0 & s0 & Hrun0 & _ & Hnest).
  rewrite Hrun in Hrun0. injection Hrun0 as -> _.
  apply well_nested_depth; [lia | exact Hnest].
Qed.

Lemma heapAppendSort_recursion_depth_witness : 8 ^ 1 <= 8 * 9.
Proof.
  apply (heapAppendSort_recursion_depth Z.ltb 11
           [7; 8; 6; 4; 0; 2; 3; 0; 3; 7] [0; 0; 2; 3; 3; 4; 6; 7; 7; 8]
           9 [Recurse 9 1]);
    vm_compute; try lia; intuition congruence.
Defined.
(** ** Edge cases of the engines *)

(** X10: [heapAppendSort] has no check of its own for a tail longer than
    the slice: with [tailLength > len s] the slice expression
    [s[splitIdx:]] panics (a run-time bounds panic), before anything is
    written. *)
Theorem heapAppendSort_tail_too_long {E} (ltb : E -> E -> bool)
  (fuel : nat) (s : list E) (k : Z) :
  0 <= k < uint_size -> len s < 2 ^ 63 -> len s < k ->
  heapAppendSort ltb (S fuel) k s = Panic OutOfRange s.
Proof.
  intros Hk Hs Hlt. pose proof (len_nonneg s) as H0.
  cbn [heapAppendSort].
  destruct (Z.eqb_spec k 0) as [-> | _]; [lia |].
  assert (Hsplit : len s - to_int k < 0 \/ len s < len s - to_int k).
  { unfold to_int, uint_size in *. destruct (Z.ltb_spec k (2 ^ 63)); lia. }
  destruct (Z.eqb_spec (len s - to_int k) 0) as [Hz | _]; [lia |].
  unfold bind, Window, in_bounds.
  destruct (Z.leb_spec 0 (len s - to_int k)) as [Hpos | _]; [| reflexivity].
  destruct (Z.leb_spec (len s - to_int k) (len s)) as [Hle | _]; [lia |].
  reflexivity.
Qed.

Lemma heapAppendSort_tail_too_long_witness :
  heapAppendSort Z.ltb 1 5 [1; 3; 2] = Panic OutOfRange [1; 3; 2].
Proof.
  apply (heapAppendSort_tail_too_long Z.ltb 0 [1; 3; 2] 5);
    vm_compute; intuition congruence.
Defined.

(** X11: a tail longer than the slice is reported by the explicit check:
    for [len s < tailLength < 2^63], [Appended] and
    [groupInsertAppendSort] raise their "tail is longer" panic with the
    slice unchanged, and so do [AppendedWithBuf] and
    [groupInsertAppendSortWithBuf] for every buffer longer than the slice. *)
Theorem tail_too_long_is_reported {E} (ltb : E -> E -> bool)
  (s buf : list E) (k : Z) :
  (len s < k < 2 ^ 63 ->
   Appended ltb k s = Panic TailTooLong s /\
   groupInsertAppendSort ltb k s = Panic TailTooLong s) /\
  (len s < len buf ->
   AppendedWithBuf ltb buf s = Panic TailTooLong s /\
   groupInsertAppendSortWithBuf ltb buf s = Panic TailTooLong s).
Proof.
  split.
  - apply Appended_TailTooLong.
  - apply AppendedWithBuf_TailTooLong.
Qed.

Lemma tail_too_long_is_reported_witness :
  (Appended Z.ltb 5 [1; 3; 2] = Panic TailTooLong [1; 3; 2] /\
   groupInsertAppendSort Z.ltb 5 [1; 3; 2] = Panic TailTooLong [1; 3; 2]) /\
  (AppendedWithBuf Z.ltb [0; 0; 0; 0] [1; 3; 2] = Panic TailTooLong [1; 3; 2] /\
   groupInsertAppendSortWithBuf Z.ltb [0; 0; 0; 0] [1; 3; 2]
   = Panic TailTooLong [1; 3; 2]).
Proof.
  destruct (tail_too_long_is_reported Z.ltb [1; 3; 2] [0; 0; 0; 0] 5)
    as (H1 & H2).
  split; [apply H1 | apply H2]; vm_compute; intuition congruence.
Defined.

(** X12: called directly with an empty tail, each engine returns at once
    or after a pass that changes nothing: the slice (sorted or not) and the
    empty buffer are left as they are. *)
Theorem engines_empty_tail_noop {E} (ltb : E -> E -> bool) (s : list E)
  (fuel : nat) :
  len s < 2 ^ 63 ->
  groupInsertAppendSort ltb 0 s = Ok tt s /\
  groupInsertAppendSortWithBuf ltb [] s = Ok [] s /\
  heapAppendSort ltb (S fuel) 0 s = Ok [] s.
Proof.
  intros Hs. split; [| split].
  - now apply groupInsertAppendSort_empty_tail.
  - apply groupInsertAppendSortWithBuf_empty_tail.
  - reflexivity.
Qed.

Lemma engines_empty_tail_noop_witness :
  groupInsertAppendSort Z.ltb 0 [3; 1; 2] = Ok tt [3; 1; 2] /\
  groupInsertAppendSortWithBuf Z.ltb [] [3; 1; 2] = Ok [] [3; 1; 2] /\
  heapAppendSort Z.ltb 1 0 [3; 1; 2] = Ok [] [3; 1; 2].
Proof.
  apply (engines_empty_tail_noop Z.ltb [3; 1; 2] 0). reflexivity.
Defined.

(** X13: called directly with the whole slice as the tail, each engine
    is the full sort of the slice; the buffer of the buffered engine is
    left untouched. *)
Theorem engines_whole_slice_full_sort {E} (ltb : E -> E -> bool)
  (s buf : list E) (fuel : nat) :
  len s < 2 ^ 63 -> len buf = len s ->
  groupInsertAppendSort ltb (len s) s = Ok tt (sort_list ltb s) /\
  groupInsertAppendSortWithBuf ltb buf s = Ok buf (sort_list ltb s) /\
  heapAppendSort ltb (S fuel) (len s) s = Ok [] (sort_list ltb s).
Proof.
  intros Hs Hbuf. pose proof (len_nonneg s) as H0. split; [| split].
  - unfold groupInsertAppendSort. rewrite to_int_small by lia.
    destruct (Z.gtb_spec (len s) (len s)) as [Hbad | _]; [lia |].
    rewrite Z.sub_diag. reflexivity.
  - now apply groupInsertAppendSortWithBuf_whole.
  - cbn [heapAppendSort]. rewrite to_int_small by lia.
    destruct (Z.eqb_spec (len s) 0) as [Hz | Hnz].
    + assert (s = []) as -> by (apply length_zero_iff_nil; unfold len in Hz; lia).
      reflexivity.
    + rewrite Z.sub_diag. reflexivity.
Qed.

Lemma engines_whole_slice_full_sort_witness :
  groupInsertAppendSort Z.ltb 3 [3; 1; 2] = Ok tt [1; 2; 3] /\
  groupInsertAppendSortWithBuf Z.ltb [0; 0; 0] [3; 1; 2] = Ok [0; 0; 0] [1; 2; 3] /\
  heapAppendSort Z.ltb 1 3 [3; 1; 2] = Ok [] [1; 2; 3].
Proof.
  apply (engines_whole_slice_full_sort Z.ltb [3; 1; 2] [0; 0; 0] 0);
    reflexivity.
Defined.

(** ** Sorted slices are left alone *)

Section FixedPoint.
Context {E : Type} (ltb : E -> E -> bool).
Hypothesis Hord : strict_total_order ltb.

Lemma sorted_prefix_sorted (s : list E) (k : Z) :
  sorted ltb s -> prefix_sorted ltb k s.
Proof.
  intros Hs. unfold prefix_sorted.
  rewrite <- (take_drop (Z.to_nat (len s - k)) s) in Hs.
  now apply sorted_app_inv in Hs as (Hs & _).
Qed.

End FixedPoint.

(** X14: over a strict total order, a slice that is already sorted is
    left exactly as it is by [Appended], [AppendedWithBuf] and
    [heapAppendSort], whatever tail length [0 <= k <= len s] they are
    given. *)
Theorem sorted_slice_is_fixed_point {E} (ltb : E -> E -> bool)
  (s buf : list E) (k : Z) (fuel : nat) :
  strict_total_order ltb -> sorted ltb s ->
  0 <= k <= len s -> len s < 2 ^ 63 -> len buf = k -> (length s < fuel)%nat ->
  Appended ltb k s = Ok tt s /\
  slice_outcome (AppendedWithBuf ltb buf s) = Ok tt s /\
  slice_outcome (heapAppendSort ltb fuel k s) = Ok tt s.
Proof.
  intros Hord Hsorted Hk Hs Hbuf Hfuel.
  pose proof (sorted_prefix_sorted ltb s k Hsorted) as Hpre.
  pose proof (sort_list_sorted_id ltb Hord s Hsorted) as Hid.
  split; [| split].
  - rewrite (Appended_correct ltb Hord s k Hk Hs Hpre). now rewrite Hid.
  - destruct (AppendedWithBuf_correct ltb Hord s buf) as (buf' & Hrun);
      [lia | now rewrite Hbuf |].
    rewrite Hrun. cbn. now rewrite Hid.
  - destruct (heapAppendSort_correct ltb Hord fuel k s Hfuel Hk Hs Hpre)
      as (log & Hrun).
    rewrite Hrun. cbn. now rewrite Hid.
Qed.

Lemma sorted_slice_is_fixed_point_witness :
  Appended Z.ltb 3 [1; 2; 2; 5; 8; 9] = Ok tt [1; 2; 2; 5; 8; 9] /\
  slice_outcome (AppendedWithBuf Z.ltb [0; 0; 0] [1; 2; 2; 5; 8; 9])
  = Ok tt [1; 2; 2; 5; 8; 9] /\
  slice_outcome (heapAppendSort Z.ltb 7 3 [1; 2; 2; 5; 8; 9])
  = Ok tt [1; 2; 2; 5; 8; 9].
Proof.
  apply (sorted_slice_is_fixed_point Z.ltb [1; 2; 2; 5; 8; 9] [0; 0; 0] 3 7).
  - exact Z_ltb_order.
  - unfold sorted.
    repeat (constructor; [| repeat (constructor; try reflexivity)]).
    constructor.
  - vm_compute. intuition congruence.
  - reflexivity.
  - reflexivity.
  - vm_compute. lia.
Defined.

(** ** The adapters *)

Section SwapTwice.
Context {E : Type}.
Implicit Types (s : list E).

Lemma swap_at_involutive s i j :
  0 <= i < len s -> 0 <= j < len s -> swap_at (swap_at s i j) i j = s.
Proof.
  intros Hi Hj. apply list_eq. intros c. rewrite <- !lookupZ_nat.
  rewrite !lookupZ_swap_at by (rewrite ?len_swap_at; lia).
  f_equal.
  destruct (Z.eqb_spec (Z.of_nat c) i); [| destruct (Z.eqb_spec (Z.of_nat c) j)];
  repeat match goal with
         | |- context [Z.eqb ?a ?b] => destruct (Z.eqb_spec a b)
         end; lia.
Qed.

Lemma Swap_out_of_range s i j :
  ~ (0 <= i < len s /\ 0 <= j < len s) -> Swap i j s = Panic OutOfRange s.
Proof.
  intros Hout. unfold Swap, bind, Load.
  destruct (lookupZ s j) as [b |] eqn:Hb; [| reflexivity].
  destruct (lookupZ s i) as [a |] eqn:Ha; [| reflexivity].
  apply lookupZ_Some in Ha, Hb. tauto.
Qed.

End SwapTwice.

(** X15: [OrderedDesc.Less(i, j)] is [OrderedAsc.Less(j, i)]: the same
    answer on positions in range; on a position out of range both raise the
    run-time index panic and leave the slice unchanged. *)
Theorem OrderedDesc_Less_mirrors_OrderedAsc {E} (ltb : E -> E -> bool)
  (s : list E) (i j : Z) :
  OrderedDesc.Less ltb i j s = OrderedAsc.Less ltb j i s.
Proof.
  unfold OrderedDesc.Less, OrderedAsc.Less, bind, Load, ret.
  destruct (lookupZ s i) eqn:Hi, (lookupZ s j) eqn:Hj;
    cbn; rewrite ?Hi, ?Hj; reflexivity.
Qed.

(** X16: [Swap] is the same method on both adapters.  On positions in
    range it exchanges the two elements and leaves every other position
    alone, so the slice is rearranged and a second [Swap] of the same
    positions restores it; on a position out of range it panics before
    anything is written. *)
Theorem Ordered_Swap_exchanges {E} (s : list E) (i j : Z) :
  OrderedDesc.Swap i j s = OrderedAsc.Swap i j s /\
  (0 <= i < len s -> 0 <= j < len s ->
   exists s', OrderedAsc.Swap i j s = Ok tt s' /\
              lookupZ s' i = lookupZ s j /\ lookupZ s' j = lookupZ s i /\
              (forall c, c <> i -> c <> j -> lookupZ s' c = lookupZ s c) /\
              s' ≡ₚ s /\
              OrderedAsc.Swap i j s' = Ok tt s) /\
  (~ (0 <= i < len s /\ 0 <= j < len s) ->
   OrderedAsc.Swap i j s = Panic OutOfRange s).
Proof.
  split; [reflexivity |]. split.
  - intros Hi Hj. exists (swap_at s i j).
    assert (Hswap : forall t : list E, 0 <= i < len t -> 0 <= j < len t ->
                              OrderedAsc.Swap i j t = Ok tt (swap_at t i j)).
    { intros t Hit Hjt. pose proof (Swap_swap_at t [] i j Hit Hjt) as Hsw.
      now rewrite !app_nil_r in Hsw. }
    split; [now apply Hswap |].
    split; [now apply lookup_swap_fst |].
    split; [now apply lookup_swap_snd |].
    split; [intros c Hci Hcj; now apply lookup_swap_other |].
    split; [apply swap_at_perm |].
    rewrite Hswap by (rewrite len_swap_at; lia).
    now rewrite swap_at_involutive.
  - apply Swap_out_of_range.
Qed.

Lemma Ordered_Swap_exchanges_witness :
  OrderedDesc.Swap 0 2 [4; 5; 6] = OrderedAsc.Swap 0 2 [4; 5; 6] /\
  (exists s', OrderedAsc.Swap 0 2 [4; 5; 6] = Ok tt s' /\
              lookupZ s' 0 = lookupZ [4; 5; 6] 2 /\
              lookupZ s' 2 = lookupZ [4; 5; 6] 0 /\
              (forall c, c <> 0 -> c <> 2 -> lookupZ s' c = lookupZ [4; 5; 6] c) /\
              s' ≡ₚ [4; 5; 6] /\
              OrderedAsc.Swap 0 2 s' = Ok tt [4; 5; 6]) /\
  OrderedAsc.Swap 0 3 [4; 5; 6] = Panic OutOfRange [4; 5; 6].
Proof.
  destruct (Ordered_Swap_exchanges [4; 5; 6] 0 2) as (H1 & H2 & _).
  destruct (Ordered_Swap_exchanges [4; 5; 6] 0 3) as (_ & _ & H3).
  split; [exact H1 |]. split.
  - apply H2; vm_compute; intuition congruence.
  - apply H3. vm_compute. intuition congruence.
Defined.

Section Descending.
Context {E : Type} (ltb : E -> E -> bool).
Hypothesis Hord : strict_total_order ltb.

Lemma sort_list_flip (s : list E) :
  sort_list (fun a b => ltb b a) s = reverse (sort_list ltb s).
Proof.
  apply sort_list_unique; [apply flip_order, Hord | |].
  - apply (sorted_reverse (fun a b => ltb b a)).
    exact (sort_list_sorted ltb Hord s).
  - now rewrite reverse_Permutation, sort_list_perm.
Qed.

End Descending.

(** X17: over [OrderedDesc] the re-sort sorts in descending order.  With
    the comparator [OrderedDesc.gt] the engines compare through
    [OrderedDesc.Less], and on a slice whose first [n - k] elements are
    sorted descending [Appended] leaves the reverse of the ascending sort of
    the slice (the order on the elements being strict and total). *)
Theorem OrderedDesc_sorts_descending {E} (ltb : E -> E -> bool)
  (s : list E) (k : Z) :
  strict_total_order ltb ->
  0 <= k <= len s -> len s < 2 ^ 63 ->
  prefix_sorted (OrderedDesc.gt ltb) k s ->
  (forall i j, Less (OrderedDesc.gt ltb) i j = OrderedDesc.Less ltb i j) /\
  Appended (OrderedDesc.gt ltb) k s = Ok tt (reverse (sort_list ltb s)).
Proof.
  intros Hord Hk Hs Hpre. split; [reflexivity |].
  rewrite <- (sort_list_flip ltb Hord).
  exact (Appended_correct (OrderedDesc.gt ltb) (flip_order ltb Hord) s k
           Hk Hs Hpre).
Qed.

Lemma OrderedDesc_sorts_descending_witness :
  (forall i j, Less (OrderedDesc.gt Z.ltb) i j = OrderedDesc.Less Z.ltb i j) /\
  Appended (OrderedDesc.gt Z.ltb) 2 [9; 5; 4; 3; 1; 2; 7]
  = Ok tt (reverse (sort_list Z.ltb [9; 5; 4; 3; 1; 2; 7])).
Proof.
  apply (OrderedDesc_sorts_descending Z.ltb [9; 5; 4; 3; 1; 2; 7] 2).
  - exact Z_ltb_order.
  - vm_compute. intuition congruence.
  - reflexivity.
  - unfold prefix_sorted, sorted. simpl.
    repeat (constructor; [| repeat (constructor; try reflexivity)]).
    constructor.
Defined.

(** ** The test drivers *)

Lemma intsEqual_loop_spec (a b : list Z) :
  length a = length b ->
  forall (count idx : nat),
    (idx + count)%nat = length a ->
    intsEqual_loop count idx a b = true <-> drop idx a = drop idx b.
Proof.
  intros Hlen. induction count as [| count IH]; intros idx Hidx.
  - cbn. rewrite !drop_ge by lia. tauto.
  - cbn [intsEqual_loop].
    destruct (lookup_lt_is_Some_2 a idx) as [x Hx]; [lia |].
    destruct (lookup_lt_is_Some_2 b idx) as [y Hy]; [lia |].
    rewrite Hx, Hy, (drop_S a x idx Hx), (drop_S b y idx Hy).
    destruct (Z.eqb_spec x y) as [-> | Hne]; cbn [negb].
    + rewrite (IH (S idx)) by lia. split; [now intros -> | congruence].
    + split; [discriminate | congruence].
Qed.

(** X18: [intsEqual] decides equality of two slices: it answers [true]
    exactly when they have the same length and the same elements. *)
Theorem intsEqual_decides_equality (a b : list Z) :
  intsEqual a b = true <-> a = b.
Proof.
  unfold intsEqual. destruct (Z.eqb_spec (len a) (len b)) as [Hlen | Hne]; cbn [negb].
  - rewrite (intsEqual_loop_spec a b) by (unfold len in Hlen; lia).
    now rewrite !drop_0.
  - split; [discriminate | intros ->; contradiction].
Qed.

Lemma byte_ltb_order : strict_total_order byte_ltb.
Proof.
  unfold byte_ltb. split.
  - intros a. apply N.ltb_irrefl.
  - intros a b c H1%N.ltb_lt H2%N.ltb_lt. apply N.ltb_lt. lia.
  - intros a b H1%N.ltb_ge H2%N.ltb_ge.
    assert (Heq : to_N a = to_N b) by lia.
    pose proof (of_to_N a) as Ha. rewrite Heq, of_to_N in Ha. congruence.
Qed.

Lemma int_of_byte_sorted (l : list byte) :
  sorted byte_ltb l -> sorted Z.ltb (int_of_byte <$> l).
Proof.
  apply StronglySorted_fmap. intros x y. unfold leb_of, byte_ltb, int_of_byte.
  intros H%N.ltb_ge. apply Z.ltb_ge. lia.
Qed.

(** [prepareTestCase] hands the drivers a slice that satisfies the
    precondition of the engines. *)
Lemma prepareTestCase_run (initial : list byte) (k : Z) :
  0 <= k <= len initial -> len initial < 2 ^ 63 ->
  exists leftStrs rightStrs name,
    let P := take (Z.to_nat (len initial - k)) initial in
    let R := drop (Z.to_nat (len initial - k)) initial in
    prepareTestCase k initial
    = Ok (int_of_byte <$> (sort_list byte_ltb P ++ R),
          leftStrs, rightStrs, name)
         (sort_list byte_ltb P ++ R).
Proof.
  intros Hk Hs. cbv zeta. unfold prepareTestCase.
  rewrite to_int_small by lia.
  destruct (prefix_split initial k) as (P & R & Heq & HP & HR & HPtake); [lia |].
  rewrite <- HPtake.
  assert (HRdrop : drop (Z.to_nat (len initial - k)) initial = R).
  { rewrite Heq at 2. rewrite <- HP, len_to_nat. apply drop_app_length. }
  rewrite HRdrop. rewrite <- HP.
  set (n := len initial).
  assert (Hn : n = len P + len R) by (unfold n; rewrite Heq; apply len_app).
  rewrite Heq. unfold sort_Slice.
  change (P ++ R) with ([] ++ P ++ R).
  erewrite bind_ok by (apply Window_modify_app; reflexivity || lia).
  cbn [app]. set (P' := sort_list byte_ltb P).
  assert (HP' : len P' = len P).
  { unfold P', len. now rewrite sort_list_length. }
  assert (Hlen' : len (P' ++ R) = n) by (rewrite len_app; lia).
  pose proof (len_nonneg P) as HP0. pose proof (len_nonneg R) as HR0.
  rewrite (bind_ok _ _ _ _ _ (Slice_total (P' ++ R) 0 (len P)
                                ltac:(lia) ltac:(lia) ltac:(lia))).
  rewrite (bind_ok _ _ _ _ _ (Slice_total (P' ++ R) (len P) n
                                ltac:(lia) ltac:(lia) ltac:(lia))).
  eauto.
Qed.

Lemma prepareTestCase_ok (initial : list byte) (k : Z) :
  0 <= k <= len initial -> len initial < 2 ^ 63 ->
  exists s leftStrs rightStrs name initial',
    prepareTestCase k initial = Ok (s, leftStrs, rightStrs, name) initial' /\
    len s = len initial /\ prefix_sorted Z.ltb k s.
Proof.
  intros Hk Hs.
  destruct (prepareTestCase_run initial k Hk Hs)
    as (leftStrs & rightStrs & name & Hrun). cbv zeta in Hrun.
  set (P := take (Z.to_nat (len initial - k)) initial) in *.
  set (R := drop (Z.to_nat (len initial - k)) initial) in *.
  assert (HlenP' : length (sort_list byte_ltb P) = Z.to_nat (len initial - k)).
  { rewrite sort_list_length. unfold P, len in *. rewrite length_take. lia. }
  eexists _, _, _, _, _. split; [exact Hrun |].
  assert (Hlen : len (int_of_byte <$> sort_list byte_ltb P ++ R) = len initial).
  { unfold len in *. rewrite length_fmap, length_app, sort_list_length.
    unfold P, R. rewrite length_take, length_drop. lia. }
  split; [exact Hlen |].
  unfold prefix_sorted. rewrite Hlen, fmap_app.
  rewrite <- HlenP', <- (length_fmap int_of_byte), take_app_length.
  apply int_of_byte_sorted, sort_list_sorted, byte_ltb_order.
Qed.

(** X19: for every [0 <= tailLength <= len(initial)], [prepareTestCase]
    returns normally with a slice of the same length whose first
    [len - tailLength] elements are sorted ascending: the precondition of
    the engines.  It sorts that part of [initial] in place and leaves the
    tail as it was. *)
Theorem prepareTestCase_establishes_precondition (initial : list byte) (k : Z) :
  0 <= k <= len initial -> len initial < 2 ^ 63 ->
  exists s leftStrs rightStrs name initial',
    prepareTestCase k initial = Ok (s, leftStrs, rightStrs, name) initial' /\
    s = int_of_byte <$> initial' /\
    len s = len initial /\
    prefix_sorted Z.ltb k s /\
    initial' ≡ₚ initial /\
    drop (Z.to_nat (len initial - k)) initial'
    = drop (Z.to_nat (len initial - k)) initial.
Proof.
  intros Hk Hs.
  destruct (prepareTestCase_run initial k Hk Hs)
    as (leftStrs & rightStrs & name & Hrun). cbv zeta in Hrun.
  set (P := take (Z.to_nat (len initial - k)) initial) in *.
  set (R := drop (Z.to_nat (len initial - k)) initial) in *.
  assert (Heq : initial = P ++ R) by (symmetry; apply take_drop).
  assert (HlenP : length P = Z.to_nat (len initial - k)).
  { unfold P, len in *. rewrite length_take. lia. }
  assert (HlenP' : length (sort_list byte_ltb P) = Z.to_nat (len initial - k)).
  { now rewrite sort_list_length. }
  eexists _, _, _, _, _. split; [exact Hrun |].
  split; [reflexivity |].
  assert (Hlen : len (int_of_byte <$> sort_list byte_ltb P ++ R) = len initial).
  { unfold len in *. rewrite length_fmap, length_app, sort_list_length.
    unfold P, R. rewrite length_take, length_drop. lia. }
  split; [exact Hlen |]. split; [| split].
  - unfold prefix_sorted. rewrite Hlen, fmap_app.
    rewrite <- HlenP', <- (length_fmap int_of_byte), take_app_length.
    apply int_of_byte_sorted, sort_list_sorted, byte_ltb_order.
  - transitivity (P ++ R); [| now rewrite <- Heq].
    apply Permutation_app_tail, sort_list_perm.
  - rewrite <- HlenP'. now rewrite drop_app_length.
Qed.

Lemma prepareTestCase_establishes_precondition_witness :
  exists s leftStrs rightStrs name initial',
    prepareTestCase 2 [x4c; x41; xad; x25] = Ok (s, leftStrs, rightStrs, name) initial' /\
    s = int_of_byte <$> initial' /\
    len s = 4 /\
    prefix_sorted Z.ltb 2 s /\
    initial' ≡ₚ [x4c; x41; xad; x25] /\
    drop 2 initial' = [xad; x25].
Proof.
  apply (prepareTestCase_establishes_precondition [x4c; x41; xad; x25] 2);
    vm_compute; intuition congruence.
Defined.


Lemma intsEqual_refl (a : list Z) : intsEqual a a = true.
Proof.
  unfold intsEqual. rewrite Z.eqb_refl. cbn [negb].
  now apply intsEqual_loop_spec.
Qed.

Lemma copy_of_slice (s : list Z) : copy_into (replicate (length s) 0) s = s.
Proof. apply copy_into_same_length, length_replicate. Qed.

(** X20: the check of [testAppended] passes on every input the fuzz
    target [FuzzAppended] can draw: for every [initial] and every
    [0 <= tailLength <= len(initial)], [Appended] leaves the slice that
    [sort.Slice] leaves on a copy. *)
Theorem testAppended_passes (initial : list byte) (tailLength : Z) :
  0 <= tailLength <= len initial -> len initial < 2 ^ 63 ->
  testAppended initial tailLength = Pass.
Proof.
  intros Hk Hs.
  destruct (prepareTestCase_ok initial tailLength Hk Hs)
    as (s & l & r & name & initial' & Hrun & Hlen & Hpre).
  unfold testAppended. rewrite Hrun.
  rewrite (Appended_correct Z.ltb Z_ltb_order s tailLength) by (assumption || lia).
  now rewrite copy_of_slice, intsEqual_refl.
Qed.

(** X21: the check of [testAppended2] passes on every input the fuzz
    target [FuzzAppended2] can draw: for every [initial] and every
    [0 <= tailLength <= len(initial)], the empty tail included,
    [groupInsertAppendSort] called directly leaves the slice that
    [sort.Slice] leaves on a copy. *)
Theorem testAppended2_passes (initial : list byte) (tailLength : Z) :
  0 <= tailLength <= len initial -> len initial < 2 ^ 63 ->
  testAppended2 initial tailLength = Pass.
Proof.
  intros Hk Hs.
  destruct (prepareTestCase_ok initial tailLength Hk Hs)
    as (s & l & r & name & initial' & Hrun & Hlen & Hpre).
  unfold testAppended2. rewrite Hrun, copy_of_slice.
  destruct (Z.eq_dec tailLength 0) as [-> | Hk0].
  - rewrite groupInsertAppendSort_empty_tail by lia.
    rewrite (sort_list_sorted_id Z.ltb Z_ltb_order)
      by now apply prefix_sorted_0.
    now rewrite intsEqual_refl.
  - rewrite (groupInsertAppendSort_correct Z.ltb Z_ltb_order s tailLength)
      by (assumption || lia).
    now rewrite intsEqual_refl.
Qed.

(** X22: the check of [testAppended3] passes on every input the fuzz
    target [FuzzAppended3] can draw: for every [initial] and every
    [0 <= tailLength <= len(initial)], the empty tail included,
    [groupInsertAppendSortWithBuf] with a fresh buffer of [tailLength] zeros
    leaves the slice that [sort.Slice] leaves on a copy. *)
Theorem testAppended3_passes (initial : list byte) (tailLength : Z) :
  0 <= tailLength <= len initial -> len initial < 2 ^ 63 ->
  testAppended3 initial tailLength = Pass.
Proof.
  intros Hk Hs.
  destruct (prepareTestCase_ok initial tailLength Hk Hs)
    as (s & l & r & name & initial' & Hrun & Hlen & Hpre).
  unfold testAppended3. rewrite Hrun, copy_of_slice.
  destruct (Z.eq_dec tailLength 0) as [-> | Hk0].
  - change (replicate (Z.to_nat 0) 0) with (@nil Z).
    rewrite groupInsertAppendSortWithBuf_empty_tail.
    rewrite (sort_list_sorted_id Z.ltb Z_ltb_order)
      by now apply prefix_sorted_0.
    now rewrite intsEqual_refl.
  - set (buf := replicate (Z.to_nat tailLength) 0).
    assert (Hbuf : len buf = tailLength).
    { unfold buf, len. rewrite length_replicate. lia. }
    destruct (groupInsertAppendSortWithBuf_correct Z.ltb Z_ltb_order s buf)
      as (buf' & Hsort); [lia | now rewrite Hbuf |].
    rewrite Hsort. now rewrite intsEqual_refl.
Qed.

Lemma testAppended_passes_witness :
  testAppended [x31; xff; x7f] 2 = Pass.
Proof.
  apply (testAppended_passes [x31; xff; x7f] 2);
    vm_compute; intuition congruence.
Defined.

Lemma testAppended2_passes_witness :
  testAppended2 [x41; x4c; xad; x25; x43; x91] 5 = Pass.
Proof.
  apply (testAppended2_passes [x41; x4c; xad; x25; x43; x91] 5);
    vm_compute; intuition congruence.
Defined.

Lemma testAppended3_passes_witness :
  testAppended3 [x41; x4c; xad; x25; x43; x91] 5 = Pass.
Proof.
  apply (testAppended3_passes [x41; x4c; xad; x25; x43; x91] 5);
    vm_compute; intuition congruence.
Defined.

(** [prepareTestCase] on the bytes [76 65 173 37] with a tail of two. *)
Example prepareTestCase_name :
  prepareTestCase 2 [x4c; x41; xad; x25]
  = Ok ([65; 76; 173; 37], ["65"; "76"], ["173"; "37"],
        "65 76 | 173 37 (tailLength: 2)")
       [x41; x4c; xad; x25].
Proof. reflexivity. Qed.
